(** * Verification of the Tailscale systray controller (cmd/systray/systray.go)

    A shallow embedding of the exit-node taxonomy ([newMullvadPeers]), the
    exit-node menu renderer ([rebuildExitNodeMenu]), the menu rebuild, the
    event loop and the IPN bus watcher, together with the properties the
    specification states about them.

    Conventions.
    - A Go [string] is a sequence of bytes: [string] (a list of [ascii]).
    - A Go [int] / [rune] is a [Z]; a byte is the [Z] value of an [ascii].
    - A Go map is a [gmap]; where the source ranges over a map, the order of
      the range is an input of the model (a list) or, for maps the code
      builds itself, the order of [map_to_list].
    - A nil pointer is [None]; dereferencing it is a [Panic]. *)

From Stdlib Require Import ZArith Ascii String.
From Stdlib Require OrderedTypeEx.
From stdpp Require Import gmap strings list fin_maps sorting.

Local Open Scope Z_scope.
Set Warnings "-clear-no-such-hyp".

(** ** Bytes, runes and UTF-8 *)

Definition byteZ (c : ascii) : Z := Z.of_N (N_of_ascii c).
Definition byte_of_Z (z : Z) : ascii := ascii_of_N (Z.to_N (z mod 256)).

(** [utf8.RuneError], substituted by [string(rune)] for invalid runes. *)
Definition RuneError : Z := 0xFFFD.

(** [utf8.AppendRune]: the UTF-8 encoding of one rune. *)
Definition encodeRune (r : Z) : list ascii :=
  let r := if (r <? 0) || (0x10FFFF <? r) || ((0xD800 <=? r) && (r <=? 0xDFFF))
           then RuneError else r in
  if r <=? 0x7F then [byte_of_Z r]
  else if r <=? 0x7FF then
    [byte_of_Z (Z.lor 0xC0 (Z.shiftr r 6));
     byte_of_Z (Z.lor 0x80 (Z.land r 0x3F))]
  else if r <=? 0xFFFF then
    [byte_of_Z (Z.lor 0xE0 (Z.shiftr r 12));
     byte_of_Z (Z.lor 0x80 (Z.land (Z.shiftr r 6) 0x3F));
     byte_of_Z (Z.lor 0x80 (Z.land r 0x3F))]
  else
    [byte_of_Z (Z.lor 0xF0 (Z.shiftr r 18));
     byte_of_Z (Z.lor 0x80 (Z.land (Z.shiftr r 12) 0x3F));
     byte_of_Z (Z.lor 0x80 (Z.land (Z.shiftr r 6) 0x3F));
     byte_of_Z (Z.lor 0x80 (Z.land r 0x3F))].

(** The conversion [string(runes)] of a rune slice. *)
Definition string_of_runes (rs : list Z) : string :=
  string_of_list_ascii (concat (map encodeRune rs)).

(** ** countryFlag *)

(** The body of the loop [for i := range 2] of [countryFlag], over the bytes
    still to visit; [None] is the early [return ""]. *)
Fixpoint countryFlag_loop (bs : list ascii) (runes : list Z) : option (list Z) :=
  match bs with
  | [] => Some runes
  | c :: bs' =>
      let b := Z.lor (byteZ c) 32 in
      if (b <? byteZ "a") || (b >? byteZ "z") then None
      else countryFlag_loop bs' (runes ++ [0x1F1E6 + (b - byteZ "a")])
  end.

(** [countryFlag]: the emoji flag of a 2-character ASCII country code, or the
    empty string. The pattern is the test [len(code) != 2]. *)
Definition countryFlag (code : string) : string :=
  match code with
  | String c0 (String c1 EmptyString) =>
      match countryFlag_loop [c0; c1] [] with
      | Some runes => string_of_runes runes
      | None => ""
      end
  | _ => ""
  end.

(** *** Reference notions used to state the behaviour of [countryFlag] *)

Definition isUpper (c : ascii) : bool := (65 <=? byteZ c) && (byteZ c <=? 90).
Definition isLower (c : ascii) : bool := (97 <=? byteZ c) && (byteZ c <=? 122).
Definition isASCIILetter (c : ascii) : bool := isUpper c || isLower c.

(** ASCII lowercasing of one byte and of a string: only ['A'..'Z'] move. *)
Definition lowerByte (c : ascii) : ascii :=
  if isUpper c then byte_of_Z (byteZ c + 32) else c.

Fixpoint asciiLower (s : string) : string :=
  match s with
  | EmptyString => EmptyString
  | String c s' => String (lowerByte c) (asciiLower s')
  end.

(** The regional-indicator symbol of a lowercase letter. *)
Definition regionalIndicator (c : ascii) : Z := 0x1F1E6 + (byteZ c - 97).

Definition isRegionalIndicator (r : Z) : bool := (0x1F1E6 <=? r) && (r <=? 0x1F1FF).

Definition twoLetters (code : string) : option (ascii * ascii) :=
  match code with
  | String c0 (String c1 EmptyString) =>
      if isASCIILetter c0 && isASCIILetter c1 then Some (c0, c1) else None
  | _ => None
  end.

(** ** Results of code that can panic *)

Inductive outcome (A : Type) : Type :=
| Ok (a : A)
| Panic (msg : string).
Arguments Ok {A} a.
Arguments Panic {A} msg.

(** Sequencing: a panic aborts what follows. With these instances the
    notation [x ← m; k] reads as the statements of the source in order. *)
#[global] Instance outcome_ret : MRet outcome := λ A a, Ok a.
#[global] Instance outcome_bind : MBind outcome := λ A B f m,
  match m with
  | Ok a => f a
  | Panic msg => Panic msg
  end.

Definition nilDeref : string := "invalid memory address or nil pointer dereference".
Definition indexOutOfRange : string := "index out of range".

(** A [for ... range] loop whose body may panic, with the loop-carried state. *)
Fixpoint forRange {A B} (body : A → B → outcome A) (l : list B) (a : A) : outcome A :=
  match l with
  | [] => Ok a
  | x :: l' => body a x ≫= forRange body l'
  end.


(** ** The data the daemon reports (tailcfg, ipnstate) *)

Definition StableNodeID := string.

(** [tailcfg.Location] (the coordinates are not read by this program). *)
Module Location.
Record t := mk {
  Country : string;
  CountryCode : string;
  City : string;
  CityCode : string;
  Priority : Z;
}.
End Location.

(** [ipnstate.PeerStatus], the fields this program reads. [CapMap] is kept as
    the set of its keys. *)
Module PeerStatus.
Record t := mk {
  ID : StableNodeID;
  HostName : string;
  DNSName : string;
  TailscaleIPs : list string;
  Online : bool;
  ExitNodeOption : bool;
  Location : option Location.t;
  CapMap : gset string;
}.
End PeerStatus.

(** [ipnstate.ExitNodeStatus]. *)
Module ExitNodeStatus.
Record t := mk {
  ID : StableNodeID;
  Online : bool;
}.
End ExitNodeStatus.

(** [ipnstate.Status]. [Peer] is a Go map keyed by node key; the list is its
    entries in the order the [range] statement visits them. *)
Module Status.
Record t := mk {
  Self : option PeerStatus.t;
  ExitNodeStatus : option ExitNodeStatus.t;
  Peer : list PeerStatus.t;
}.
End Status.

(** ** The exit-node taxonomy *)

Module mvCity.
Record t := mk {
  name : string;
  best : option PeerStatus.t;
  peers : list PeerStatus.t;
}.
End mvCity.

Module mvCountry.
Record t := mk {
  code : string;
  name : string;
  best : option PeerStatus.t;
  cities : gmap string mvCity.t;
}.
End mvCountry.

Record mullvadPeers := { countries : gmap string mvCountry.t }.

(** The test [best == nil || ps.Location.Priority > best.Location.Priority],
    for a peer [ps] whose location [loc] is known to be non-nil. *)
Definition isBetter (best : option PeerStatus.t) (loc : Location.t) : outcome bool :=
  match best with
  | None => Ok true
  | Some b =>
      match PeerStatus.Location b with
      | None => Panic nilDeref
      | Some bl => Ok (Location.Priority loc >? Location.Priority bl)
      end
  end.

(** One iteration of the loop of [newMullvadPeers]. The country and the city
    are pointers stored in the maps: the updates of the iteration are written
    back into the maps at its end. *)
Definition newMullvadPeers_body (countries : gmap string mvCountry.t)
    (ps : PeerStatus.t) : outcome (gmap string mvCountry.t) :=
  match PeerStatus.Location ps with
  | Some loc =>
      if negb (PeerStatus.ExitNodeOption ps) then Ok countries else
      let country :=
        match countries !! Location.CountryCode loc with
        | Some c => c
        | None => mvCountry.mk (Location.CountryCode loc) (Location.Country loc) None ∅
        end in
      let city :=
        match mvCountry.cities country !! Location.CityCode loc with
        | Some y => y
        | None => mvCity.mk (Location.City loc) None []
        end in
      let peers := mvCity.peers city ++ [ps] in
      b ← isBetter (mvCity.best city) loc;
      let city := mvCity.mk (mvCity.name city)
                    (if b : bool then Some ps else mvCity.best city) peers in
      b' ← isBetter (mvCountry.best country) loc;
      let country := mvCountry.mk (mvCountry.code country) (mvCountry.name country)
                        (if b' : bool then Some ps else mvCountry.best country)
                        (<[Location.CityCode loc := city]> (mvCountry.cities country)) in
      Ok (<[Location.CountryCode loc := country]> countries)
  | None => Ok countries
  end.

Definition newMullvadPeers (status : Status.t) : outcome mullvadPeers :=
  countries ← forRange newMullvadPeers_body (Status.Peer status) ∅;
  Ok {| countries := countries |}.

(** The peers of the (country code, city code) bucket of a grouping. *)
Definition bucket (mp : mullvadPeers) (cc yc : string) : list PeerStatus.t :=
  match countries mp !! cc with
  | Some c =>
      match mvCountry.cities c !! yc with
      | Some y => mvCity.peers y
      | None => []
      end
  | None => []
  end.

(** *** Reference notions for the grouping *)

(** The grouping rule: exit-node-eligible and carrying location metadata. *)
Definition qualifies (ps : PeerStatus.t) : bool :=
  PeerStatus.ExitNodeOption ps && bool_decide (is_Some (PeerStatus.Location ps)).

Definition inCountry (cc : string) (ps : PeerStatus.t) : bool :=
  PeerStatus.ExitNodeOption ps &&
  match PeerStatus.Location ps with
  | Some l => bool_decide (Location.CountryCode l = cc)
  | None => false
  end.

Definition inCity (cc yc : string) (ps : PeerStatus.t) : bool :=
  PeerStatus.ExitNodeOption ps &&
  match PeerStatus.Location ps with
  | Some l => bool_decide (Location.CountryCode l = cc) && bool_decide (Location.CityCode l = yc)
  | None => false
  end.

Definition priorityOf (ps : PeerStatus.t) : Z :=
  match PeerStatus.Location ps with
  | Some l => Location.Priority l
  | None => 0
  end.

(** The first peer of greatest priority of a list. *)
Definition pickBest (best : option PeerStatus.t) (ps : PeerStatus.t) : option PeerStatus.t :=
  match best with
  | None => Some ps
  | Some b => if priorityOf ps >? priorityOf b then Some ps else Some b
  end.

Definition bestOf (l : list PeerStatus.t) : option PeerStatus.t :=
  fold_left pickBest l None.

(** The location of the first peer of a list: it names a new bucket. *)
Definition firstLoc (l : list PeerStatus.t) : option Location.t :=
  head l ≫= PeerStatus.Location.


(** What the maps of the grouping hold once the loop has visited the peers
    [l]: the state of one city and of one country. *)
Definition cityInv (F : list PeerStatus.t) (oy : option mvCity.t) : Prop :=
  match oy with
  | None => F = []
  | Some y =>
      F ≠ [] ∧ mvCity.peers y = F ∧ mvCity.best y = bestOf F
      ∧ Location.City <$> firstLoc F = Some (mvCity.name y)
  end.

Definition countryInv (cc : string) (l : list PeerStatus.t)
    (oc : option mvCountry.t) : Prop :=
  match oc with
  | None => filter (λ p, inCountry cc p) l = []
  | Some c =>
      filter (λ p, inCountry cc p) l ≠ []
      ∧ mvCountry.code c = cc
      ∧ Location.Country <$> firstLoc (filter (λ p, inCountry cc p) l)
        = Some (mvCountry.name c)
      ∧ mvCountry.best c = bestOf (filter (λ p, inCountry cc p) l)
      ∧ ∀ yc, cityInv (filter (λ p, inCity cc yc p) l) (mvCountry.cities c !! yc)
  end.

Definition groupInv (l : list PeerStatus.t) (m : gmap string mvCountry.t) : Prop :=
  ∀ cc, countryInv cc l (m !! cc).


(** ** ipn: connection states, profiles, preferences, errors *)

Module ipn.
Inductive State : Set :=
| NoState | InUseOtherUser | NeedsLogin | NeedsMachineAuth
| Stopped | Starting | Running.
End ipn.

Definition ProfileID := string.

(** [ipn.LoginProfile]; [DomainName] is [NetworkProfile.DomainName] and
    [ProfilePicURL] is [UserProfile.ProfilePicURL]. *)
Module LoginProfile.
Record t := mk {
  ID : ProfileID;
  Name : string;
  DomainName : string;
  ProfilePicURL : string;
}.
Definition zero : t := mk "" "" "" "".
End LoginProfile.

(** [ipn.MaskedPrefs], the fields this program sets; the others keep their
    zero value. *)
Module MaskedPrefs.
Record t := mk {
  WantRunning : bool;
  ExitNodeID : StableNodeID;
  WantRunningSet : bool;
  ExitNodeIDSet : bool;
}.
End MaskedPrefs.

(** [apitype.ExitNodeSuggestionResponse]. *)
Module ExitNodeSuggestion.
Record t := mk {
  ID : StableNodeID;
  Name : string;
  Location : option Location.t;
}.
End ExitNodeSuggestion.

(** Go errors: [context.Canceled], an opaque error, and [fmt.Errorf] with
    [%w], which keeps the wrapped error reachable for [errors.Is]. *)
Inductive error : Set :=
| context_Canceled
| errorString (msg : string)
| wrapError (prefix : string) (err : error).

Fixpoint Error (e : error) : string :=
  match e with
  | context_Canceled => "context canceled"
  | errorString msg => msg
  | wrapError prefix err => prefix +:+ Error err
  end.

(** [errors.Is(err, context.Canceled)]. *)
Fixpoint errors_Is_Canceled (e : error) : bool :=
  match e with
  | context_Canceled => true
  | errorString _ => false
  | wrapError _ err => errors_Is_Canceled err
  end.

(** The pair (value, error) returned by a call that can fail. *)
Inductive result (A : Type) : Type :=
| Success (a : A)
| Failure (err : error).
Arguments Success {A} a.
Arguments Failure {A} err.

(** ** Effects on the outside world *)

(** The requests to the daemon ([tailscale.LocalClient]). *)
Inductive Call : Type :=
| CStatus
| CProfileStatus
| CEditPrefs (mp : MaskedPrefs.t)
| CSwitchProfile (id : ProfileID)
| CSetUseExitNode (on : bool)
| CSuggestExitNode.

(** What the program does to its environment, in order. Durations are
    [time.Duration] values (nanoseconds). *)
Inductive Effect : Type :=
| ECall (c : Call)
| ELog (msg : string)
| ESleep (d : Z)
| ERemoteIcon (item : nat) (url : string)
| EClipboard (text : string)
| ENotify (title content : string)
| EOpenBrowser (url : string)
| EQuit
| EWatch (mask : Z)
| EWatcherClose
| ESend (s : ipn.State)
| EFatal (msg : string).

(** The daemon as seen through [localClient]: each answer may depend on
    everything the program did before the request. *)
Module LocalClient.
Record t := mk {
  Status : list Effect → result Status.t;
  ProfileStatus : list Effect → result (LoginProfile.t * list LoginProfile.t);
  EditPrefs : list Effect → MaskedPrefs.t → option error;
  SwitchProfile : list Effect → ProfileID → option error;
  SetUseExitNode : list Effect → bool → option error;
  SuggestExitNode : list Effect → result ExitNodeSuggestion.t;
}.
End LocalClient.

(** ** The systray menu *)

(** The three application icons. *)
Inductive tsLogo : Set := disconnected | loading | connected.

(** [systray.MenuItem]. Items live in a store; a pointer to an item is its
    index in the store. [parent] is [None] for a top-level item. *)
Record MenuItem := mkItem {
  title : string;
  tooltip : string;
  isSeparator : bool;
  isCheckable : bool;
  checked : bool;
  disabled : bool;
  hidden : bool;
  parent : option nat;
}.

Definition setTitle (t : string) (it : MenuItem) : MenuItem :=
  mkItem t (tooltip it) (isSeparator it) (isCheckable it) (checked it)
         (disabled it) (hidden it) (parent it).
Definition setChecked (b : bool) (it : MenuItem) : MenuItem :=
  mkItem (title it) (tooltip it) (isSeparator it) (isCheckable it) b
         (disabled it) (hidden it) (parent it).
Definition setDisabled (b : bool) (it : MenuItem) : MenuItem :=
  mkItem (title it) (tooltip it) (isSeparator it) (isCheckable it) (checked it)
         b (hidden it) (parent it).
Definition setHidden (b : bool) (it : MenuItem) : MenuItem :=
  mkItem (title it) (tooltip it) (isSeparator it) (isCheckable it) (checked it)
         (disabled it) b (parent it).

(** What a listener goroutine forwards when its item is clicked. *)
Inductive Target : Type :=
| toAccountsCh (id : ProfileID)
| toExitNodeCh (id : StableNodeID).

(** A listener goroutine: the context it races against, the item whose
    [ClickedCh] it reads, and what it sends. *)
Record Listener := mkListener {
  l_ctx : nat;
  l_item : nat;
  l_target : Target;
}.

(** The [Menu] struct. Item fields are pointers: [None] is nil.
    [eventCancel] holds the context it cancels. *)
Module Menu.
Record t := mk {
  status : option Status.t;
  connect : option nat;
  disconnect : option nat;
  self : option nat;
  more : option nat;
  exitNodes : option nat;
  quit : option nat;
  eventCancel : option nat;
}.
Definition zero : t := mk None None None None None None None None.
End Menu.

(** The state of the process: the package variables, the systray and the
    goroutines. *)
Record World := mkWorld {
  localClient : LocalClient.t;
  newMenuDelay : Z;
  items : list MenuItem;
  appLogo : tsLogo;
  listeners : list Listener;
  eventLoops : list nat;
  nextCtx : nat;
  effects : list Effect;
  menu : Menu.t;
}.

Definition set_items (f : list MenuItem → list MenuItem) (w : World) : World :=
  mkWorld (localClient w) (newMenuDelay w) (f (items w)) (appLogo w) (listeners w)
          (eventLoops w) (nextCtx w) (effects w) (menu w).
Definition set_appLogo (l : tsLogo) (w : World) : World :=
  mkWorld (localClient w) (newMenuDelay w) (items w) l (listeners w)
          (eventLoops w) (nextCtx w) (effects w) (menu w).
Definition set_listeners (f : list Listener → list Listener) (w : World) : World :=
  mkWorld (localClient w) (newMenuDelay w) (items w) (appLogo w) (f (listeners w))
          (eventLoops w) (nextCtx w) (effects w) (menu w).
Definition set_eventLoops (f : list nat → list nat) (w : World) : World :=
  mkWorld (localClient w) (newMenuDelay w) (items w) (appLogo w) (listeners w)
          (f (eventLoops w)) (nextCtx w) (effects w) (menu w).
Definition set_nextCtx (n : nat) (w : World) : World :=
  mkWorld (localClient w) (newMenuDelay w) (items w) (appLogo w) (listeners w)
          (eventLoops w) n (effects w) (menu w).
Definition set_effects (f : list Effect → list Effect) (w : World) : World :=
  mkWorld (localClient w) (newMenuDelay w) (items w) (appLogo w) (listeners w)
          (eventLoops w) (nextCtx w) (f (effects w)) (menu w).
Definition set_menu (f : Menu.t → Menu.t) (w : World) : World :=
  mkWorld (localClient w) (newMenuDelay w) (items w) (appLogo w) (listeners w)
          (eventLoops w) (nextCtx w) (effects w) (f (menu w)).

(** Code that reads and writes the state of the process and may panic. *)
Definition M (A : Type) : Type := World → outcome (A * World).

#[global] Instance M_ret : MRet M := λ A a w, Ok (a, w).
#[global] Instance M_bind : MBind M := λ A B f m w,
  match m w with
  | Ok (a, w') => f a w'
  | Panic msg => Panic msg
  end.

Definition gets {A} (f : World → A) : M A := λ w, Ok (f w, w).
Definition modify (f : World → World) : M unit := λ w, Ok (tt, f w).
Definition panic {A} (msg : string) : M A := λ _, Panic msg.
Definition skip : M unit := mret tt.

(** Reading through a pointer. *)
Definition deref {A} (p : option A) : M A :=
  match p with
  | Some a => mret a
  | None => panic nilDeref
  end.

Definition liftOutcome {A} (o : outcome A) : M A := λ w,
  match o with
  | Ok a => Ok (a, w)
  | Panic msg => Panic msg
  end.

(** A [for ... range] loop over a list. *)
Fixpoint forEach {B} (l : list B) (body : B → M unit) : M unit :=
  match l with
  | [] => skip
  | x :: l' => body x ≫= λ _, forEach l' body
  end.

Definition when (b : bool) (m : M unit) : M unit := if b then m else skip.

Definition emit (e : Effect) : M unit := modify (set_effects (λ es, es ++ [e])).
Definition log_Print (msg : string) : M unit := emit (ELog msg).
Definition time_Sleep (d : Z) : M unit := emit (ESleep d).

(** *** systray primitives *)

Definition addItem (it : MenuItem) : M nat := λ w,
  Ok (length (items w), set_items (λ l, l ++ [it]) w).

Definition systray_AddMenuItem (title tooltip : string) : M nat :=
  addItem (mkItem title tooltip false false false false false None).
Definition systray_AddSeparator : M unit :=
  addItem (mkItem "" "" true false false false false None) ≫= λ _, skip.
Definition AddSubMenuItem (item : nat) (title tooltip : string) : M nat :=
  addItem (mkItem title tooltip false false false false false (Some item)).
Definition AddSubMenuItemCheckbox (item : nat) (title tooltip : string)
    (checked : bool) : M nat :=
  addItem (mkItem title tooltip false true checked false false (Some item)).
Definition AddSeparator (item : nat) : M unit :=
  addItem (mkItem "" "" true false false false false (Some item)) ≫= λ _, skip.

Definition updItem (f : MenuItem → MenuItem) (item : nat) : M unit :=
  modify (set_items (alter f item)).
Definition Check : nat → M unit := updItem (setChecked true).
Definition Disable : nat → M unit := updItem (setDisabled true).
Definition Enable : nat → M unit := updItem (setDisabled false).
Definition Hide : nat → M unit := updItem (setHidden true).
Definition Show : nat → M unit := updItem (setHidden false).
Definition SetTitle (t : string) : nat → M unit := updItem (setTitle t).
Definition systray_ResetMenu : M unit := modify (set_items (λ _, [])).
Definition setAppIcon (l : tsLogo) : M unit := modify (set_appLogo l).

(** *** Requests to the daemon *)

Definition request {A} (c : Call) (answer : LocalClient.t → list Effect → A) : M A :=
  λ w, Ok (answer (localClient w) (effects w),
           set_effects (λ es, es ++ [ECall c]) w).

(** ** Strings *)

(** [strings.Split(s, ".")[0]]: the text before the first dot. *)
Fixpoint firstLabel (s : string) : string :=
  match s with
  | EmptyString => EmptyString
  | String c s' => if Ascii.eqb c "." then EmptyString else String c (firstLabel s')
  end.

Definition newline : string := String (ascii_of_nat 10) EmptyString.

(** [profileTitle]: the title string of a profile menu item. *)
Definition profileTitle (profile : LoginProfile.t) : string :=
  let title := LoginProfile.Name profile in
  if negb (String.eqb (LoginProfile.DomainName profile) "")
  then title +:+ newline +:+ LoginProfile.DomainName profile
  else title.

(** [tailcfg.NodeAttrSuggestExitNodeUI], declared in package tailcfg. *)
Definition NodeAttrSuggestExitNodeUI : string := "suggest-exit-node-ui".

Definition CapMap_Contains (ps : PeerStatus.t) (cap : string) : bool :=
  bool_decide (cap ∈ PeerStatus.CapMap ps).

(** ** Sorted views of the taxonomy *)

(** The order of [cmp.Compare] on the names. *)
Definition byName {A} (name : A → string) : relation A :=
  λ a b, String.compare (name a) (name b) ≠ Gt.

#[global] Instance byName_dec {A} (name : A → string) (a b : A) :
  Decision (byName name a b).
Proof. unfold byName. apply _. Defined.

(** [slices.Collect(maps.Values(m))] followed by [slices.SortFunc] on the
    names. *)
Definition sortedCountries (mp : mullvadPeers) : list mvCountry.t :=
  merge_sort (byName mvCountry.name) (snd <$> map_to_list (countries mp)).

Definition sortedCities (mc : mvCountry.t) : list mvCity.t :=
  merge_sort (byName mvCity.name) (snd <$> map_to_list (mvCountry.cities mc)).

(** ** Rebuilding the exit-node menu *)

(** [onClick]: start a goroutine that forwards the clicks of [item] to
    [menu.exitNodeCh] as [nodeID], until [ctx] is done. *)
Definition onClick (ctx item : nat) (nodeID : StableNodeID) : M unit :=
  modify (set_listeners (λ ls, ls ++ [mkListener ctx item (toExitNodeCh nodeID)])).

(** The test [status.ExitNodeStatus != nil && id == status.ExitNodeStatus.ID]. *)
Definition isActive (status : Status.t) (id : StableNodeID) : bool :=
  match Status.ExitNodeStatus status with
  | Some e => String.eqb id (ExitNodeStatus.ID e)
  | None => false
  end.

Definition set_exitNodes (p : option nat) (m : Menu.t) : Menu.t :=
  Menu.mk (Menu.status m) (Menu.connect m) (Menu.disconnect m) (Menu.self m)
          (Menu.more m) p (Menu.quit m) (Menu.eventCancel m).

(** The title of the "Recommended" entry. *)
Definition recommendedTitle (sugg : ExitNodeSuggestion.t) : string :=
  "Recommended: " +:+
  match ExitNodeSuggestion.Location sugg with
  | Some loc =>
      if negb (String.eqb (Location.Country loc) "")
      then countryFlag (Location.CountryCode loc) +:+ " " +:+ Location.Country loc
           +:+ ": " +:+ Location.City loc
      else firstLabel (ExitNodeSuggestion.Name sugg)
  | None => firstLabel (ExitNodeSuggestion.Name sugg)
  end.

(** The "Recommended" section. *)
Definition recommendedSection (ctx exitNodes : nat) (status : Status.t)
    (self : PeerStatus.t) : M unit :=
  when (CapMap_Contains self NodeAttrSuggestExitNodeUI)
    (r ← request CSuggestExitNode LocalClient.SuggestExitNode;
     match r with
     | Success sugg =>
         AddSeparator exitNodes;;
         rm ← AddSubMenuItemCheckbox exitNodes (recommendedTitle sugg) "" false;
         onClick ctx rm (ExitNodeSuggestion.ID sugg);;
         when (isActive status (ExitNodeSuggestion.ID sugg)) (Check rm)
     | Failure _ => skip
     end).

(** The body of the loop over [status.Peer] that renders the tailnet exit
    nodes. *)
Definition tailnetBody (ctx exitNodes : nat) (status : Status.t)
    (ps : PeerStatus.t) : M unit :=
  if negb (PeerStatus.ExitNodeOption ps) || bool_decide (is_Some (PeerStatus.Location ps))
  then skip
  else
    let name := firstLabel (PeerStatus.DNSName ps) in
    let name := if negb (PeerStatus.Online ps) then name +:+ " (offline)" else name in
    sm ← AddSubMenuItemCheckbox exitNodes name "" false;
    when (negb (PeerStatus.Online ps)) (Disable sm);;
    when (isActive status (PeerStatus.ID ps)) (Check sm);;
    onClick ctx sm (PeerStatus.ID ps).

(** The "Tailnet Exit Nodes" section. *)
Definition tailnetSection (ctx exitNodes : nat) (status : Status.t) : M unit :=
  let tailnetExitNodes :=
    List.filter (λ ps, PeerStatus.ExitNodeOption ps
                       && negb (bool_decide (is_Some (PeerStatus.Location ps))))
                (Status.Peer status) in
  when (0 <? Z.of_nat (length tailnetExitNodes))
    (AddSeparator exitNodes;;
     hdr ← AddSubMenuItem exitNodes "Tailnet Exit Nodes" "";
     Disable hdr;;
     forEach (Status.Peer status) (tailnetBody ctx exitNodes status)).

(** The loop over the peers of a city that checks the entries [path] when
    one of the peers is the active exit node. *)
Definition checkPeers (status : Status.t) (path : list nat)
    (peers : list PeerStatus.t) : M unit :=
  forEach peers (λ ps,
    match Status.ExitNodeStatus status with
    | Some e =>
        when (String.eqb (ExitNodeStatus.ID e) (PeerStatus.ID ps))
             (forEach path Check)
    | None => skip
    end).

(** One city entry of a multi-city country. *)
Definition cityBody (ctx mullvadMenu countryMenu : nat) (status : Status.t)
    (city : mvCity.t) : M unit :=
  cityMenu ← AddSubMenuItemCheckbox countryMenu (mvCity.name city) "" false;
  best ← deref (mvCity.best city);
  onClick ctx cityMenu (PeerStatus.ID best);;
  when (bool_decide (is_Some (Status.ExitNodeStatus status)))
       (checkPeers status [mullvadMenu; countryMenu; cityMenu] (mvCity.peers city)).

(** One country of the "Mullvad VPN" submenu. *)
Definition countryBody (ctx mullvadMenu : nat) (status : Status.t)
    (country : mvCountry.t) : M unit :=
  let flag := countryFlag (mvCountry.code country) in
  countryMenu ← AddSubMenuItemCheckbox mullvadMenu
                  (flag +:+ " " +:+ mvCountry.name country) "" false;
  if bool_decide (size (mvCountry.cities country) = 1%nat) then
    (* single-city country, no submenu *)
    best ← deref (mvCountry.best country);
    onClick ctx countryMenu (PeerStatus.ID best);;
    when (bool_decide (is_Some (Status.ExitNodeStatus status)))
         (forEach (snd <$> map_to_list (mvCountry.cities country)) (λ city,
            checkPeers status [mullvadMenu; countryMenu] (mvCity.peers city)))
  else
    (* multi-city country: "best available" option and cities *)
    d ← gets newMenuDelay;
    time_Sleep d;;
    bm ← AddSubMenuItemCheckbox countryMenu "Best Available" "" false;
    best ← deref (mvCountry.best country);
    onClick ctx bm (PeerStatus.ID best);;
    AddSeparator countryMenu;;
    forEach (sortedCities country) (cityBody ctx mullvadMenu countryMenu status).

(** The "Location-based Exit Nodes" section. *)
Definition mullvadSection (ctx exitNodes : nat) (status : Status.t)
    (self : PeerStatus.t) : M unit :=
  mullvadExitNodes ←
    (if CapMap_Contains self "mullvad"
     then liftOutcome (newMullvadPeers status)
     else mret {| countries := ∅ |});
  when (0 <? Z.of_nat (size (countries mullvadExitNodes)))
    (AddSeparator exitNodes;;
     hdr ← AddSubMenuItem exitNodes "Location-based Exit Nodes" "";
     Disable hdr;;
     mullvadMenu ← AddSubMenuItemCheckbox exitNodes "Mullvad VPN" "" false;
     forEach (sortedCountries mullvadExitNodes) (countryBody ctx mullvadMenu status)).

(** [Menu.rebuildExitNodeMenu]. The first read through [status] is the
    argument [status.ExitNodeStatus == nil] of the "None" entry. *)
Definition rebuildExitNodeMenu (ctx : nat) : M unit :=
  status ← gets (λ w, Menu.status (menu w));
  exitNodes ← systray_AddMenuItem "Exit Nodes" "";
  modify (set_menu (set_exitNodes (Some exitNodes)));;
  d ← gets newMenuDelay;
  time_Sleep d;;
  status ← deref status;
  noExitNodeMenu ← AddSubMenuItemCheckbox exitNodes "None" ""
                     (bool_decide (Status.ExitNodeStatus status = None));
  onClick ctx noExitNodeMenu "";;
  (* Show recommended exit node if available. *)
  self ← deref (Status.Self status);
  recommendedSection ctx exitNodes status self;;
  (* Add tailnet exit nodes if present. *)
  tailnetSection ctx exitNodes status;;
  (* Add mullvad exit nodes if present. *)
  self ← deref (Status.Self status);
  mullvadSection ctx exitNodes status self.

(** ** Fetching the state and rebuilding the menu *)

(** The [state] struct. *)
Module state.
Record t := mk {
  status : option Status.t;
  curProfile : LoginProfile.t;
  allProfiles : list LoginProfile.t;
}.
End state.

(** [fetchState]: a failed request is logged and leaves the zero value. *)
Definition fetchState : M state.t :=
  r ← request CStatus LocalClient.Status;
  status ← match r with
           | Success st => mret (Some st)
           | Failure err => log_Print (Error err);; mret None
           end;
  r ← request CProfileStatus LocalClient.ProfileStatus;
  profiles ← match r with
             | Success p => mret p
             | Failure err => log_Print (Error err);; mret (LoginProfile.zero, [])
             end;
  mret (state.mk status profiles.1 profiles.2).

(** [setRemoteIcon]: fetching (or finding in the cache) the image and setting
    it is one effect; nothing happens for an empty URL. *)
Definition setRemoteIcon (item : nat) (urlStr : string) : M unit :=
  if String.eqb urlStr "" then skip else emit (ERemoteIcon item urlStr).

(** [context.WithCancel]: a fresh context. *)
Definition context_WithCancel : M nat := λ w,
  Ok (nextCtx w, set_nextCtx (S (nextCtx w)) w).

(** Cancelling a context retires the goroutines that race against it. *)
Definition cancel (ctx : nat) : M unit :=
  modify (λ w, set_listeners (filter (λ l, l_ctx l ≠ ctx))
                 (set_eventLoops (filter (λ c, c ≠ ctx)) w)).

Definition set_status (s : option Status.t) (m : Menu.t) : Menu.t :=
  Menu.mk s (Menu.connect m) (Menu.disconnect m) (Menu.self m)
          (Menu.more m) (Menu.exitNodes m) (Menu.quit m) (Menu.eventCancel m).
Definition set_connect (p : option nat) (m : Menu.t) : Menu.t :=
  Menu.mk (Menu.status m) p (Menu.disconnect m) (Menu.self m)
          (Menu.more m) (Menu.exitNodes m) (Menu.quit m) (Menu.eventCancel m).
Definition set_disconnect (p : option nat) (m : Menu.t) : Menu.t :=
  Menu.mk (Menu.status m) (Menu.connect m) p (Menu.self m)
          (Menu.more m) (Menu.exitNodes m) (Menu.quit m) (Menu.eventCancel m).
Definition set_self (p : option nat) (m : Menu.t) : Menu.t :=
  Menu.mk (Menu.status m) (Menu.connect m) (Menu.disconnect m) p
          (Menu.more m) (Menu.exitNodes m) (Menu.quit m) (Menu.eventCancel m).
Definition set_more (p : option nat) (m : Menu.t) : Menu.t :=
  Menu.mk (Menu.status m) (Menu.connect m) (Menu.disconnect m) (Menu.self m)
          p (Menu.exitNodes m) (Menu.quit m) (Menu.eventCancel m).
Definition set_quit (p : option nat) (m : Menu.t) : Menu.t :=
  Menu.mk (Menu.status m) (Menu.connect m) (Menu.disconnect m) (Menu.self m)
          (Menu.more m) (Menu.exitNodes m) p (Menu.eventCancel m).
Definition set_eventCancel (p : option nat) (m : Menu.t) : Menu.t :=
  Menu.mk (Menu.status m) (Menu.connect m) (Menu.disconnect m) (Menu.self m)
          (Menu.more m) (Menu.exitNodes m) (Menu.quit m) p.

(** One profile entry of the accounts submenu, with its listener. *)
Definition profileBody (ctx accounts : nat) (st : state.t)
    (profile : LoginProfile.t) : M unit :=
  let title := profileTitle profile in
  item ← (if String.eqb (LoginProfile.ID profile) (LoginProfile.ID (state.curProfile st))
          then AddSubMenuItemCheckbox accounts title "" true
          else AddSubMenuItem accounts title "");
  setRemoteIcon item (LoginProfile.ProfilePicURL profile);;
  modify (set_listeners (λ ls,
    ls ++ [mkListener ctx item (toAccountsCh (LoginProfile.ID profile))])).

(** The "This Device" entry, present when the status and its self peer are. *)
Definition selfEntry (st : state.t) : M unit :=
  match state.status st with
  | Some status =>
      match Status.Self status with
      | Some self =>
          ip ← match PeerStatus.TailscaleIPs self with
               | ip :: _ => mret ip
               | [] => panic indexOutOfRange
               end;
          item ← systray_AddMenuItem
                   ("This Device: " +:+ PeerStatus.HostName self +:+ " (" +:+ ip +:+ ")") "";
          modify (set_menu (set_self (Some item)))
      | None => skip
      end
  | None => skip
  end.

(** [Menu.rebuild]: rebuild the systray menu from a fetched state. The event
    loop of the new generation is started last. *)
Definition rebuild (st : state.t) : M unit :=
  m ← gets menu;
  match Menu.eventCancel m with
  | Some c => cancel c
  | None => skip
  end;;
  ctx ← context_WithCancel;
  modify (set_menu (set_eventCancel (Some ctx)));;
  modify (set_menu (set_status (state.status st)));;
  systray_ResetMenu;;
  connect ← systray_AddMenuItem "Connect" "";
  modify (set_menu (set_connect (Some connect)));;
  disconnect ← systray_AddMenuItem "Disconnect" "";
  modify (set_menu (set_disconnect (Some disconnect)));;
  Hide disconnect;;
  systray_AddSeparator;;
  let pt := profileTitle (state.curProfile st) in
  let account := if negb (String.eqb pt "") then pt else "Account" in
  accounts ← systray_AddMenuItem account "";
  setRemoteIcon accounts (LoginProfile.ProfilePicURL (state.curProfile st));;
  d ← gets newMenuDelay;
  time_Sleep d;;
  forEach (state.allProfiles st) (profileBody ctx accounts st);;
  selfEntry st;;
  systray_AddSeparator;;
  rebuildExitNodeMenu ctx;;
  more ← systray_AddMenuItem "More settings" "";
  modify (set_menu (set_more (Some more)));;
  Enable more;;
  quit ← systray_AddMenuItem "Quit" "Quit the app";
  modify (set_menu (set_quit (Some quit)));;
  Enable quit;;
  modify (set_eventLoops (λ ls, ls ++ [ctx])).

(** ** The event loop *)

(** What one iteration of the [select] of [eventLoop] can receive. *)
Inductive Event : Type :=
| CtxDone
| StateChange (s : ipn.State)
| ConnectClicked
| DisconnectClicked
| SelfClicked
| MoreClicked
| AccountSelected (id : ProfileID)
| ExitNodeSelected (id : StableNodeID)
| QuitClicked.

(** The desktop session as the program reaches it: the clipboard and the
    notification service of the session bus. Each answer may depend on
    everything the program did before. *)
Module Desktop.
Record t := mk {
  clipboard_WriteAll : list Effect → string → option error;
  dbus_SessionBus : list Effect → option error;
  Notify : list Effect → string → string → option error;
}.
End Desktop.

(** [sendNotification]: without a session bus the error is logged and no
    call is made; a failed call is logged. *)
Definition sendNotification (dt : Desktop.t) (title content : string) : M unit :=
  h ← gets effects;
  match Desktop.dbus_SessionBus dt h with
  | Some err => log_Print ("dbus: " +:+ Error err)
  | None =>
      emit (ENotify title content);;
      match Desktop.Notify dt h title content with
      | Some err => log_Print ("dbus: " +:+ Error err)
      | None => skip
      end
  end.

(** [copyTailscaleIP]. *)
Definition copyTailscaleIP (dt : Desktop.t) (device : option PeerStatus.t) : M unit :=
  match device with
  | Some dev =>
      match PeerStatus.TailscaleIPs dev with
      | ip :: _ =>
          let name := firstLabel (PeerStatus.DNSName dev) in
          h ← gets effects;
          emit (EClipboard ip);;
          match Desktop.clipboard_WriteAll dt h ip with
          | Some err => log_Print ("clipboard error: " +:+ Error err)
          | None => skip
          end;;
          sendNotification dt ("Copied Address for " +:+ name) ip
      | [] => skip
      end
  | None => skip
  end.

(** The reaction of the event loop to a state change. *)
Definition onState (s : ipn.State) : M unit :=
  match s with
  | ipn.Running =>
      setAppIcon loading;;
      st ← fetchState;
      rebuild st;;
      setAppIcon connected;;
      m ← gets menu;
      connect ← deref (Menu.connect m);
      SetTitle "Connected" connect;;
      Disable connect;;
      disconnect ← deref (Menu.disconnect m);
      Show disconnect;;
      Enable disconnect
  | ipn.NoState | ipn.Stopped =>
      m ← gets menu;
      connect ← deref (Menu.connect m);
      SetTitle "Connect" connect;;
      Enable connect;;
      disconnect ← deref (Menu.disconnect m);
      Hide disconnect;;
      setAppIcon disconnected
  | ipn.Starting => setAppIcon loading
  | _ => skip
  end.

(** The reaction of the event loop to the choice of an exit node. *)
Definition onExitNode (exitNode : StableNodeID) : M unit :=
  (if String.eqb exitNode "" then
     log_Print "disable exit node";;
     r ← request (CSetUseExitNode false) (λ lc h, LocalClient.SetUseExitNode lc h false);
     match r with
     | Some err => log_Print ("failed disabling exit node: " +:+ Error err)
     | None => skip
     end
   else
     log_Print ("enable exit node: " +:+ exitNode);;
     let mp := MaskedPrefs.mk false exitNode false true in
     r ← request (CEditPrefs mp) (λ lc h, LocalClient.EditPrefs lc h mp);
     match r with
     | Some err => log_Print ("failed setting exit node: " +:+ Error err)
     | None => skip
     end);;
  st ← fetchState;
  rebuild st.

(** One iteration of the loop of [Menu.eventLoop] on the received event; the
    result tells whether the loop goes on. The [select] statement first
    evaluates its channel operands, reading through the item pointers. *)
Definition eventLoop_iter (dt : Desktop.t) (ev : Event) : M bool :=
  m ← gets menu;
  deref (Menu.connect m);;
  deref (Menu.disconnect m);;
  deref (Menu.self m);;
  deref (Menu.more m);;
  deref (Menu.quit m);;
  match ev with
  | CtxDone => mret false
  | StateChange s => onState s;; mret true
  | ConnectClicked =>
      let mp := MaskedPrefs.mk true "" true false in
      r ← request (CEditPrefs mp) (λ lc h, LocalClient.EditPrefs lc h mp);
      match r with
      | Some err => log_Print (Error err);; mret true
      | None => mret true
      end
  | DisconnectClicked =>
      let mp := MaskedPrefs.mk false "" true false in
      r ← request (CEditPrefs mp) (λ lc h, LocalClient.EditPrefs lc h mp);
      match r with
      | Some err => log_Print ("disconnecting: " +:+ Error err);; mret true
      | None => mret true
      end
  | SelfClicked =>
      m ← gets menu;
      status ← deref (Menu.status m);
      copyTailscaleIP dt (Status.Self status);;
      mret true
  | MoreClicked => emit (EOpenBrowser "http://100.100.100.100/");; mret true
  | AccountSelected id =>
      r ← request (CSwitchProfile id) (λ lc h, LocalClient.SwitchProfile lc h id);
      match r with
      | Some err =>
          log_Print ("failed switching to profile ID " +:+ id +:+ ": " +:+ Error err);;
          mret true
      | None => mret true
      end
  | ExitNodeSelected id => onExitNode id;; mret true
  | QuitClicked => emit EQuit;; mret true
  end.

(** [Menu.eventLoop] over the events it receives, until its context is done
    or the events run out. *)
Fixpoint eventLoop (dt : Desktop.t) (evs : list Event) : M unit :=
  match evs with
  | [] => skip
  | ev :: evs' =>
      continue ← eventLoop_iter dt ev;
      if continue : bool then eventLoop dt evs' else skip
  end.

(** ** Reference notions for the rendered menu *)

(** A world that differs from [w] in the items, the listeners and the
    effects only. *)
Definition put (its : list MenuItem) (ls : list Listener) (es : list Effect)
    (w : World) : World :=
  mkWorld (localClient w) (newMenuDelay w) its (appLogo w) ls
          (eventLoops w) (nextCtx w) es (menu w).

(** The items of a path all checked, in the order of the path. *)
Definition checkAll (path : list nat) (l : list MenuItem) : list MenuItem :=
  fold_left (λ l i, alter (setChecked true) i l) path l.

Definition checkIf (b : bool) (path : list nat) (l : list MenuItem) : list MenuItem :=
  if b then checkAll path l else l.

(** A tailnet exit node: eligible, without location metadata. *)
Definition isTailnetExitNode (ps : PeerStatus.t) : bool :=
  PeerStatus.ExitNodeOption ps && negb (bool_decide (is_Some (PeerStatus.Location ps))).

(** The entry and the listener of a tailnet exit node. *)
Definition tailnetItem (exitNodes : nat) (status : Status.t) (ps : PeerStatus.t) : MenuItem :=
  mkItem (if negb (PeerStatus.Online ps)
          then firstLabel (PeerStatus.DNSName ps) +:+ " (offline)"
          else firstLabel (PeerStatus.DNSName ps))
         "" false true (isActive status (PeerStatus.ID ps))
         (negb (PeerStatus.Online ps)) false (Some exitNodes).

Definition exitNodeListener (ctx item : nat) (id : StableNodeID) : Listener :=
  mkListener ctx item (toExitNodeCh id).

(** Whether the active exit node is one of the peers of a city, of a
    country, of the whole taxonomy. *)
Definition cityActive (status : Status.t) (city : mvCity.t) : bool :=
  existsb (λ ps, isActive status (PeerStatus.ID ps)) (mvCity.peers city).

Definition countryActive (status : Status.t) (country : mvCountry.t) : bool :=
  existsb (cityActive status) (snd <$> map_to_list (mvCountry.cities country)).

Definition bestID (best : option PeerStatus.t) : StableNodeID :=
  from_option PeerStatus.ID "" best.

Definition isSingleCity (country : mvCountry.t) : bool :=
  bool_decide (size (mvCountry.cities country) = 1%nat).

Definition separatorItem (parent : option nat) : MenuItem :=
  mkItem "" "" true false false false false parent.

Definition cityItem (countryMenu : nat) (status : Status.t) (city : mvCity.t) : MenuItem :=
  mkItem (mvCity.name city) "" false true (cityActive status city) false false
         (Some countryMenu).

Definition countryItem (mullvadMenu : nat) (status : Status.t) (country : mvCountry.t) : MenuItem :=
  mkItem (countryFlag (mvCountry.code country) +:+ " " +:+ mvCountry.name country)
         "" false true (countryActive status country) false false (Some mullvadMenu).

Definition bestAvailableItem (countryMenu : nat) : MenuItem :=
  mkItem "Best Available" "" false true false false false (Some countryMenu).

(** The entries a country adds to the menu when its own entry gets the
    index [k]: the entry alone, or the entry followed by its submenu. *)
Definition countryBlock (mullvadMenu k : nat) (status : Status.t)
    (country : mvCountry.t) : list MenuItem :=
  countryItem mullvadMenu status country ::
  if isSingleCity country then []
  else bestAvailableItem k :: separatorItem (Some k)
       :: (cityItem k status <$> sortedCities country).

Definition countryListeners (ctx k : nat) (country : mvCountry.t) : list Listener :=
  if isSingleCity country
  then [exitNodeListener ctx k (bestID (mvCountry.best country))]
  else exitNodeListener ctx (k + 1) (bestID (mvCountry.best country))
       :: imap (λ i city, exitNodeListener ctx (k + 3 + i) (bestID (mvCity.best city)))
               (sortedCities country).

Definition countryEffects (d : Z) (country : mvCountry.t) : list Effect :=
  if isSingleCity country then [] else [ESleep d].

Arguments countryBlock : simpl never.
Arguments countryListeners : simpl never.

(** The entries, listeners and effects of a list of countries, the first of
    which gets the index [k]. *)
Fixpoint countryBlocks (mullvadMenu k : nat) (status : Status.t)
    (cs : list mvCountry.t) : list MenuItem :=
  match cs with
  | [] => []
  | c :: cs' =>
      countryBlock mullvadMenu k status c
      ++ countryBlocks mullvadMenu (k + length (countryBlock mullvadMenu k status c)) status cs'
  end.

Fixpoint countriesListeners (ctx mullvadMenu k : nat) (status : Status.t)
    (cs : list mvCountry.t) : list Listener :=
  match cs with
  | [] => []
  | c :: cs' =>
      countryListeners ctx k c
      ++ countriesListeners ctx mullvadMenu
           (k + length (countryBlock mullvadMenu k status c)) status cs'
  end.

(** A country whose best peers are all set: rendering it cannot panic. *)
Definition bestSet (c : mvCountry.t) : Prop :=
  is_Some (mvCountry.best c)
  ∧ ∀ yc y, mvCountry.cities c !! yc = Some y → is_Some (mvCity.best y).

(** *** The rendered exit-node menu, section by section *)

Definition exitNodesItem : MenuItem :=
  mkItem "Exit Nodes" "" false false false false false None.

Definition noneItem (exitNodes : nat) (status : Status.t) : MenuItem :=
  mkItem "None" "" false true (bool_decide (Status.ExitNodeStatus status = None))
         false false (Some exitNodes).

Definition recommendedItem (exitNodes : nat) (status : Status.t)
    (sugg : ExitNodeSuggestion.t) : MenuItem :=
  mkItem (recommendedTitle sugg) "" false true
         (isActive status (ExitNodeSuggestion.ID sugg)) false false (Some exitNodes).

Definition headerItem (exitNodes : nat) (title : string) : MenuItem :=
  mkItem title "" false false false true false (Some exitNodes).

(** The suggestion the daemon gives after the effects [history], if the self
    node has the capability and the request succeeds. *)
Definition suggestionAt (self : PeerStatus.t) (lc : LocalClient.t)
    (history : list Effect) : option ExitNodeSuggestion.t :=
  if CapMap_Contains self NodeAttrSuggestExitNodeUI then
    match LocalClient.SuggestExitNode lc history with
    | Success sugg => Some sugg
    | Failure _ => None
    end
  else None.

Definition recommendedItems (exitNodes : nat) (status : Status.t)
    (osugg : option ExitNodeSuggestion.t) : list MenuItem :=
  match osugg with
  | Some sugg => [separatorItem (Some exitNodes); recommendedItem exitNodes status sugg]
  | None => []
  end.

Definition recommendedListeners (ctx k : nat)
    (osugg : option ExitNodeSuggestion.t) : list Listener :=
  match osugg with
  | Some sugg => [exitNodeListener ctx (k + 1) (ExitNodeSuggestion.ID sugg)]
  | None => []
  end.

Definition recommendedEffects (self : PeerStatus.t) : list Effect :=
  if CapMap_Contains self NodeAttrSuggestExitNodeUI then [ECall CSuggestExitNode] else [].

Definition tailnetExitNodes (status : Status.t) : list PeerStatus.t :=
  filter (λ ps, isTailnetExitNode ps) (Status.Peer status).

Definition tailnetItems (exitNodes : nat) (status : Status.t) : list MenuItem :=
  match tailnetExitNodes status with
  | [] => []
  | _ => separatorItem (Some exitNodes) :: headerItem exitNodes "Tailnet Exit Nodes"
         :: (tailnetItem exitNodes status <$> tailnetExitNodes status)
  end.

Definition tailnetListeners (ctx k : nat) (status : Status.t) : list Listener :=
  imap (λ i ps, exitNodeListener ctx (k + 2 + i) (PeerStatus.ID ps))
       (tailnetExitNodes status).

(** The taxonomy the menu shows: empty without the "mullvad" capability. *)
Definition mullvadPeersOf (status : Status.t) (self : PeerStatus.t) : mullvadPeers :=
  if CapMap_Contains self "mullvad" then
    match newMullvadPeers status with
    | Ok mp => mp
    | Panic _ => {| countries := ∅ |}
    end
  else {| countries := ∅ |}.

Definition mullvadItem (exitNodes : nat) (status : Status.t) (mp : mullvadPeers) : MenuItem :=
  mkItem "Mullvad VPN" "" false true
         (existsb (countryActive status) (sortedCountries mp)) false false (Some exitNodes).

(** The section whose first entry gets the index [k]. *)
Definition mullvadItems (exitNodes k : nat) (status : Status.t)
    (self : PeerStatus.t) : list MenuItem :=
  let mp := mullvadPeersOf status self in
  if 0 <? Z.of_nat (size (countries mp)) then
    separatorItem (Some exitNodes) :: headerItem exitNodes "Location-based Exit Nodes"
    :: mullvadItem exitNodes status mp
    :: countryBlocks (k + 2) (k + 3) status (sortedCountries mp)
  else [].

Definition mullvadListeners (ctx k : nat) (status : Status.t)
    (self : PeerStatus.t) : list Listener :=
  countriesListeners ctx (k + 2) (k + 3) status (sortedCountries (mullvadPeersOf status self)).

Definition mullvadEffects (d : Z) (status : Status.t) (self : PeerStatus.t) : list Effect :=
  flat_map (countryEffects d) (sortedCountries (mullvadPeersOf status self)).

(** The whole exit-node menu, whose root entry gets the index [e]. *)
Definition exitNodeItems (e : nat) (status : Status.t) (self : PeerStatus.t)
    (osugg : option ExitNodeSuggestion.t) : list MenuItem :=
  [exitNodesItem; noneItem e status]
  ++ recommendedItems e status osugg
  ++ tailnetItems e status
  ++ mullvadItems e (e + 2 + length (recommendedItems e status osugg)
                       + length (tailnetItems e status)) status self.

Definition exitNodeListeners (ctx e : nat) (status : Status.t) (self : PeerStatus.t)
    (osugg : option ExitNodeSuggestion.t) : list Listener :=
  [exitNodeListener ctx (e + 1) ""]
  ++ recommendedListeners ctx (e + 2) osugg
  ++ tailnetListeners ctx (e + 2 + length (recommendedItems e status osugg)) status
  ++ mullvadListeners ctx (e + 2 + length (recommendedItems e status osugg)
                             + length (tailnetItems e status)) status self.

Definition exitNodeEffects (d : Z) (status : Status.t) (self : PeerStatus.t) : list Effect :=
  [ESleep d] ++ recommendedEffects self ++ mullvadEffects d status self.

(** The number of entries of a country, and the position of the entry of
    the [n]-th country relative to the first. *)
Definition blockLen (c : mvCountry.t) : nat :=
  if isSingleCity c then 1%nat else (3 + length (sortedCities c))%nat.

Fixpoint blockOffset (cs : list mvCountry.t) (n : nat) : nat :=
  match n, cs with
  | S n', c :: cs' => (blockLen c + blockOffset cs' n')%nat
  | _, _ => 0%nat
  end.

(** The store is well formed when parents precede their children and the
    listeners read existing items. *)
Definition wfItems (l : list MenuItem) : Prop :=
  ∀ i it p, l !! i = Some it → parent it = Some p → (p < i)%nat.

Definition wfListeners (w : World) : Prop :=
  ∀ l, l ∈ listeners w → (l_item l < length (items w))%nat.

(** ** Sample inputs *)

(** A tailnet with two Mullvad cities in Germany, one in Sweden, an offline
    tailnet exit node and a peer that is no exit node. *)
Module sample.

Definition mullvadPeer (id dns country cc city yc : string) (priority : Z) : PeerStatus.t :=
  PeerStatus.mk id "" dns [] true true
    (Some (Location.mk country cc city yc priority)) ∅.

Definition berlin : PeerStatus.t :=
  mullvadPeer "n1" "de-ber-wg-001.mullvad.ts.net" "Germany" "DE" "Berlin" "BER" 10.
Definition frankfurt : PeerStatus.t :=
  mullvadPeer "n2" "de-fra-wg-001.mullvad.ts.net" "Germany" "DE" "Frankfurt" "FRA" 20.
Definition stockholm : PeerStatus.t :=
  mullvadPeer "n3" "se-sto-wg-001.mullvad.ts.net" "Sweden" "SE" "Stockholm" "STO" 5.
Definition home : PeerStatus.t :=
  PeerStatus.mk "n4" "home" "home.tail.ts.net" ["100.64.0.4"] false true None ∅.
Definition laptop : PeerStatus.t :=
  PeerStatus.mk "n5" "laptop" "laptop.tail.ts.net" ["100.64.0.5"] true false None ∅.

Definition self : PeerStatus.t :=
  PeerStatus.mk "n0" "desk" "desk.tail.ts.net" ["100.64.0.1"] true false None
    ({["mullvad"]} ∪ {[NodeAttrSuggestExitNodeUI]}).

(** The status when the exit node in use is [active]. *)
Definition status (active : option StableNodeID) : Status.t :=
  Status.mk (Some self) ((λ id, ExitNodeStatus.mk id true) <$> active)
            [berlin; home; frankfurt; laptop; stockholm].

Definition profile : LoginProfile.t :=
  LoginProfile.mk "p1" "user@example.com" "example.com" "".

(** A daemon that reports [st], suggests the Frankfurt node and accepts every
    command. *)
Definition daemon (st : Status.t) : LocalClient.t :=
  LocalClient.mk (λ _, Success st) (λ _, Success (profile, [profile]))
    (λ _ _, None) (λ _ _, None) (λ _ _, None)
    (λ _, Success (ExitNodeSuggestion.mk "n2" "de-fra-wg-001.mullvad.ts.net"
                     (PeerStatus.Location frankfurt))).

(** A daemon whose status request fails. *)
Definition brokenDaemon : LocalClient.t :=
  LocalClient.mk (λ _, Failure (errorString "tailscaled not running"))
    (λ _, Success (profile, [profile]))
    (λ _ _, None) (λ _ _, None) (λ _ _, None)
    (λ _, Failure (errorString "no suggestion")).

(** The process right after start, before the first rebuild. *)
Definition start (lc : LocalClient.t) : World :=
  mkWorld lc 10000000 [] disconnected [] [] 0 [] Menu.zero.

(** A world in which the menu knows the status [st] and no item exists. *)
Definition world (st : Status.t) : World :=
  mkWorld (daemon st) 0 [] disconnected [] [] 1 []
          (Menu.mk (Some st) None None None None None None None).


End sample.

(** *** The rebuilt menu *)

Definition connectItem : MenuItem :=
  mkItem "Connect" "" false false false false false None.
Definition disconnectItem : MenuItem :=
  mkItem "Disconnect" "" false false false false true None.
Definition accountsItem (st : state.t) : MenuItem :=
  mkItem (if negb (String.eqb (profileTitle (state.curProfile st)) "")
          then profileTitle (state.curProfile st) else "Account")
         "" false false false false false None.
Definition isCurrent (st : state.t) (profile : LoginProfile.t) : bool :=
  String.eqb (LoginProfile.ID profile) (LoginProfile.ID (state.curProfile st)).
Definition profileItem (accounts : nat) (st : state.t) (profile : LoginProfile.t) : MenuItem :=
  mkItem (profileTitle profile) "" false (isCurrent st profile) (isCurrent st profile)
         false false (Some accounts).
Definition selfItem (self : PeerStatus.t) (ip : string) : MenuItem :=
  mkItem ("This Device: " +:+ PeerStatus.HostName self +:+ " (" +:+ ip +:+ ")")
         "" false false false false false None.
Definition moreItem : MenuItem :=
  mkItem "More settings" "" false false false false false None.
Definition quitItem : MenuItem :=
  mkItem "Quit" "Quit the app" false false false false false None.

Definition remoteIconEffects (item : nat) (url : string) : list Effect :=
  if String.eqb url "" then [] else [ERemoteIcon item url].

(** The entries above the exit-node menu. *)
Definition menuHead (st : state.t) (self : PeerStatus.t) (ip : string) : list MenuItem :=
  [connectItem; disconnectItem; separatorItem None; accountsItem st]
  ++ (profileItem 3 st <$> state.allProfiles st)
  ++ [selfItem self ip; separatorItem None].

Definition accountListeners (ctx : nat) (st : state.t) : list Listener :=
  imap (λ i profile, mkListener ctx (4 + i) (toAccountsCh (LoginProfile.ID profile)))
       (state.allProfiles st).

Definition profileIconEffects (st : state.t) : list Effect :=
  concat (imap (λ i profile, remoteIconEffects (4 + i) (LoginProfile.ProfilePicURL profile))
               (state.allProfiles st)).

(** The effects of a rebuild up to the exit-node menu. *)
Definition headEffects (d : Z) (st : state.t) : list Effect :=
  remoteIconEffects 3 (LoginProfile.ProfilePicURL (state.curProfile st))
  ++ [ESleep d] ++ profileIconEffects st.

(** The listeners and event loops that survive the cancellation of the
    context held by [eventCancel]. *)
Definition survivors {A} (ctxOf : A → nat) (c : option nat) (l : list A) : list A :=
  match c with
  | Some c => filter (λ x, ctxOf x ≠ c) l
  | None => l
  end.

(** The world of a rebuild when the entries above the exit-node menu are in
    place. *)
Definition headWorld (st : state.t) (self : PeerStatus.t) (ip : string)
    (w : World) : World :=
  mkWorld (localClient w) (newMenuDelay w)
    (menuHead st self ip)
    (appLogo w)
    (survivors l_ctx (Menu.eventCancel (menu w)) (listeners w)
     ++ accountListeners (nextCtx w) st)
    (survivors id (Menu.eventCancel (menu w)) (eventLoops w))
    (S (nextCtx w))
    (effects w ++ headEffects (newMenuDelay w) st)
    (Menu.mk (state.status st) (Some 0%nat) (Some 1%nat)
             (Some (length (menuHead st self ip) - 2)%nat)
             (Menu.more (menu w)) (Menu.exitNodes (menu w)) (Menu.quit (menu w))
             (Some (nextCtx w))).

(** The world a rebuild leaves, for a state whose status has a self peer
    with the first address [ip]. *)
Definition rebuilt (st : state.t) (status : Status.t) (self : PeerStatus.t)
    (ip : string) (w : World) : World :=
  let ctx := nextCtx w in
  let d := newMenuDelay w in
  let head := menuHead st self ip in
  let e := length head in
  let history := effects w ++ headEffects d st in
  let os := suggestionAt self (localClient w) (history ++ [ESleep d]) in
  let exits := exitNodeItems e status self os in
  mkWorld (localClient w) d
    (head ++ exits ++ [moreItem; quitItem])
    (appLogo w)
    (survivors l_ctx (Menu.eventCancel (menu w)) (listeners w)
     ++ accountListeners ctx st ++ exitNodeListeners ctx e status self os)
    (survivors id (Menu.eventCancel (menu w)) (eventLoops w) ++ [ctx])
    (S ctx)
    (history ++ exitNodeEffects d status self)
    (Menu.mk (Some status) (Some 0%nat) (Some 1%nat) (Some (e - 2)%nat)
             (Some (e + length exits)%nat) (Some e)
             (Some (e + length exits + 1)%nat) (Some ctx)).

(** *** The fetched state *)

(** The effects of the status request of [fetchState] after the effects
    [h], and those of the profile request that follows. *)
Definition statusEffects (lc : LocalClient.t) (h : list Effect) : list Effect :=
  ECall CStatus ::
  match LocalClient.Status lc h with
  | Success _ => []
  | Failure err => [ELog (Error err)]
  end.

Definition profileEffects (lc : LocalClient.t) (h : list Effect) : list Effect :=
  ECall CProfileStatus ::
  match LocalClient.ProfileStatus lc (h ++ statusEffects lc h) with
  | Success _ => []
  | Failure err => [ELog (Error err)]
  end.

Definition fetchEffects (lc : LocalClient.t) (h : list Effect) : list Effect :=
  statusEffects lc h ++ profileEffects lc h.

Definition fetchedState (lc : LocalClient.t) (h : list Effect) : state.t :=
  let status := match LocalClient.Status lc h with
                | Success st => Some st
                | Failure _ => None
                end in
  let profiles := match LocalClient.ProfileStatus lc (h ++ statusEffects lc h) with
                  | Success p => p
                  | Failure _ => (LoginProfile.zero, [])
                  end in
  state.mk status profiles.1 profiles.2.


(** *** The command of an exit-node selection *)

(** The daemon command for the selected id: clearing the exit node for the
    zero id, otherwise the masked preference update that sets it. *)
Definition exitNodeCommand (id : StableNodeID) : Call :=
  if String.eqb id "" then CSetUseExitNode false
  else CEditPrefs (MaskedPrefs.mk false id false true).

Definition exitNodeAnnounce (id : StableNodeID) : Effect :=
  if String.eqb id "" then ELog "disable exit node"
  else ELog ("enable exit node: " +:+ id).

(** The log line of a failed command, none when it succeeded. *)
Definition exitNodeFailure (lc : LocalClient.t) (h : list Effect)
    (id : StableNodeID) : list Effect :=
  if String.eqb id "" then
    match LocalClient.SetUseExitNode lc h false with
    | Some err => [ELog ("failed disabling exit node: " +:+ Error err)]
    | None => []
    end
  else
    match LocalClient.EditPrefs lc h (MaskedPrefs.mk false id false true) with
    | Some err => [ELog ("failed setting exit node: " +:+ Error err)]
    | None => []
    end.

Definition isCall (e : Effect) : bool :=
  match e with
  | ECall _ => true
  | _ => false
  end.

(** ** The IPN bus watcher *)

(** [ipn.NotifyInitialState] and [ipn.NotifyNoPrivateKeys], declared in
    package ipn. *)
Definition NotifyInitialState : Z := Z.shiftl 1 1.
Definition NotifyNoPrivateKeys : Z := Z.shiftl 1 4.

(** [3 * time.Second]. *)
Definition reconnectDelay : Z := 3 * 1000000000.

(** [ipn.Notify], the field this program reads. *)
Module Notify.
Record t := mk { State : option ipn.State }.
End Notify.

(** [ipn.State.String]. *)
Definition State_String (s : ipn.State) : string :=
  match s with
  | ipn.NoState => "NoState"
  | ipn.InUseOtherUser => "InUseOtherUser"
  | ipn.NeedsLogin => "NeedsLogin"
  | ipn.NeedsMachineAuth => "NeedsMachineAuth"
  | ipn.Stopped => "Stopped"
  | ipn.Starting => "Starting"
  | ipn.Running => "Running"
  end.

(** One pass of the [select] of [watchIPNBusInner]: the context is found
    done, or [watcher.Next] returns. *)
Inductive Read : Type :=
| ReadDone
| ReadNext (r : result Notify.t).

(** What one call of [localClient.WatchIPNBus] gives: an error, or a watcher
    with the reads it delivers (a watcher that has delivered them all keeps
    the program waiting). *)
Definition Subscription : Type := result (list Read).

Inductive innerResult : Type :=
| InnerReturn (err : option error)
| InnerBlocked.

(** The loop of [watchIPNBusInner]. *)
Fixpoint watchReads (reads : list Read) : list Effect * innerResult :=
  match reads with
  | [] => ([], InnerBlocked)
  | ReadDone :: _ => ([], InnerReturn None)
  | ReadNext (Failure err) :: _ =>
      ([], InnerReturn (Some (wrapError "ipnbus error: " err)))
  | ReadNext (Success n) :: reads' =>
      let sent := match Notify.State n with
                  | Some s => [ESend s; ELog ("new state: " +:+ State_String s)]
                  | None => []
                  end in
      (sent ++ (watchReads reads').1, (watchReads reads').2)
  end.

(** [watchIPNBusInner]; the deferred [watcher.Close] runs when it returns. *)
Definition watchIPNBusInner (sub : Subscription) : list Effect * innerResult :=
  let mask := Z.lor NotifyInitialState NotifyNoPrivateKeys in
  match sub with
  | Failure err => ([EWatch mask], InnerReturn (Some (wrapError "watching ipn bus: " err)))
  | Success reads =>
      ([EWatch mask] ++ (watchReads reads).1
       ++ match (watchReads reads).2 with
          | InnerReturn _ => [EWatcherClose]
          | InnerBlocked => []
          end,
       (watchReads reads).2)
  end.

(** Where [watchIPNBus] stands when the subscriptions it was given are used
    up: the process has exited, the loop is about to subscribe again, or it
    waits inside a subscription. *)
Inductive watcherStatus : Set := Exited | Reconnecting | Watching.

(** [watchIPNBus] over the subscriptions the daemon grants it, in order. *)
Fixpoint watchIPNBus (subs : list Subscription) : list Effect * watcherStatus :=
  match subs with
  | [] => ([], Reconnecting)
  | sub :: subs' =>
      match (watchIPNBusInner sub).2 with
      | InnerBlocked => ((watchIPNBusInner sub).1, Watching)
      | InnerReturn (Some err) =>
          if errors_Is_Canceled err then
            ((watchIPNBusInner sub).1
             ++ [ELog (Error err); EFatal ("watchIPNBus: " +:+ Error err)], Exited)
          else
            ((watchIPNBusInner sub).1 ++ [ELog (Error err); ESleep reconnectDelay]
             ++ (watchIPNBus subs').1, (watchIPNBus subs').2)
      | InnerReturn None =>
          ((watchIPNBusInner sub).1 ++ [ESleep reconnectDelay] ++ (watchIPNBus subs').1,
           (watchIPNBus subs').2)
      end
  end.

(** *** Reference notions for the watcher *)

(** The error that ends a subscription: the subscription error, or the
    first read error met before the context is found done. *)
Fixpoint readError (reads : list Read) : option error :=
  match reads with
  | [] => None
  | ReadDone :: _ => None
  | ReadNext (Failure err) :: _ => Some err
  | ReadNext (Success _) :: reads' => readError reads'
  end.

Definition subscriptionError (sub : Subscription) : option error :=
  match sub with
  | Failure err => Some err
  | Success reads => readError reads
  end.

Definition isWatch (e : Effect) : bool :=
  match e with
  | EWatch _ => true
  | _ => false
  end.

Definition isSleep (d : Z) (e : Effect) : bool :=
  match e with
  | ESleep d' => d' =? d
  | _ => false
  end.

Definition isFatal (e : Effect) : bool :=
  match e with
  | EFatal _ => true
  | _ => false
  end.

(** ** Generations of goroutines *)

(** The goroutines that were started and whose context was not cancelled
    are those of the current generation: one event loop and the listeners
    that race against the context [menu.eventCancel] cancels. Before the first
    rebuild there is none. *)
Definition generation (w : World) : Prop :=
  match Menu.eventCancel (menu w) with
  | Some c => eventLoops w = [c] ∧ (∀ l, l ∈ listeners w → l_ctx l = c) ∧ (c < nextCtx w)%nat
  | None => eventLoops w = [] ∧ listeners w = []
  end.

(** Code that leaves the goroutines to one generation whenever it finds
    them so and does not panic. *)
Definition keeps {A} (m : M A) : Prop :=
  ∀ w a w', m w = Ok (a, w') → generation w → generation w'.

(** A change of the world that touches neither the goroutines nor the
    contexts. *)
Definition quiet (f : World → World) : Prop :=
  ∀ w, listeners (f w) = listeners w ∧ eventLoops (f w) = eventLoops w
       ∧ nextCtx (f w) = nextCtx w
       ∧ Menu.eventCancel (menu (f w)) = Menu.eventCancel (menu w).

(** ** The sections of the exit-node menu *)

(** Below the root entry [e], the header of a section is the entry that is
    neither a checkbox nor a separator. *)
Definition isHeaderOf (e : nat) (it : MenuItem) : Prop :=
  isCheckable it = false ∧ isSeparator it = false ∧ parent it = Some e.

Definition isSeparatorOf (e : nat) (it : MenuItem) : Prop :=
  isSeparator it = true ∧ parent it = Some e.

#[global] Instance isHeaderOf_dec e it : Decision (isHeaderOf e it).
Proof. unfold isHeaderOf. apply _. Defined.

#[global] Instance isSeparatorOf_dec e it : Decision (isSeparatorOf e it).
Proof. unfold isSeparatorOf. apply _. Defined.

(** The conditions under which the source builds the tailnet section and
    the location-based section. *)
Definition hasTailnetSection (status : Status.t) : bool :=
  existsb isTailnetExitNode (Status.Peer status).

Definition hasMullvadSection (status : Status.t) (self : PeerStatus.t) : bool :=
  CapMap_Contains self "mullvad" && existsb qualifies (Status.Peer status).

(** ** Clicks *)

(** The item pointers the [select] of the event loop reads through. *)
Definition pointersSet (m : Menu.t) : Prop :=
  is_Some (Menu.connect m) ∧ is_Some (Menu.disconnect m) ∧ is_Some (Menu.self m)
  ∧ is_Some (Menu.more m) ∧ is_Some (Menu.quit m).

#[global] Instance pointersSet_dec m : Decision (pointersSet m).
Proof. unfold pointersSet. apply _. Defined.

(** The request of a click on "Connect" or "Disconnect". *)
Definition wantRunning (b : bool) : MaskedPrefs.t := MaskedPrefs.mk b "" true false.

(** The log line of a failed request, none when it succeeded. *)
Definition failureLog (prefix : string) (r : option error) : list Effect :=
  match r with
  | Some err => [ELog (prefix +:+ Error err)]
  | None => []
  end.




(** ** What the watcher forwards *)

(** The states a watcher delivers before its subscription ends. *)
Fixpoint statesOf (reads : list Read) : list ipn.State :=
  match reads with
  | [] => []
  | ReadDone :: _ => []
  | ReadNext (Failure _) :: _ => []
  | ReadNext (Success n) :: reads' =>
      match Notify.State n with
      | Some s => s :: statesOf reads'
      | None => statesOf reads'
      end
  end.

Definition statesOfSub (sub : Subscription) : list ipn.State :=
  match sub with
  | Success reads => statesOf reads
  | Failure _ => []
  end.

(** The subscriptions [watchIPNBus] gets to ask for: those up to the first
    that ends in a cancellation or keeps it waiting. *)
Fixpoint handled (subs : list Subscription) : list Subscription :=
  match subs with
  | [] => []
  | sub :: subs' =>
      sub ::
      match (watchIPNBusInner sub).2 with
      | InnerBlocked => []
      | InnerReturn (Some err) => if errors_Is_Canceled err then [] else handled subs'
      | InnerReturn None => handled subs'
      end
  end.

Definition sentState (e : Effect) : option ipn.State :=
  match e with
  | ESend s => Some s
  | _ => None
  end.

(** The calls on the bus: subscribing and closing the watcher. *)
Definition isBusCall (e : Effect) : bool :=
  match e with
  | EWatch _ | EWatcherClose => true
  | _ => false
  end.

(** The bus calls of one subscription: a watcher is closed iff it was
    obtained and its reads came to an end. *)
Definition busCallsOf (sub : Subscription) : list Effect :=
  EWatch (Z.lor NotifyInitialState NotifyNoPrivateKeys) ::
  match sub, (watchIPNBusInner sub).2 with
  | Success _, InnerReturn _ => [EWatcherClose]
  | _, _ => []
  end.

Definition isLog (e : Effect) : bool :=
  match e with
  | ELog _ => true
  | _ => false
  end.

(** ** The cache of remote images *)

(** [setRemoteIcon] with its cache, apart from the menu: the state is the
    package variable [httpCache], together with what the function did to
    its environment, the requests it sent with their answers and the icons
    it set. *)
Module RemoteIcon.

(** What [http.Get] gives when it returns no error: the status code, and the
    bytes [io.ReadAll] reads from the body. *)
Record Response := mkResponse {
  StatusCode : Z;
  Body : list ascii;
}.

(** [http.StatusOK], declared in package net/http. *)
Definition StatusOK : Z := 200.

Record t := mk {
  httpCache : gmap string (list ascii);
  requests : list (string * result Response);
  icons : list (nat * list ascii);
}.

Definition empty : t := mk ∅ [] [].

(** The network: the answer to a request may depend on the requests made
    before. *)
Definition Network : Type := list (string * result Response) → string → result Response.

Definition setRemoteIcon (http_Get : Network) (menu : option nat) (urlStr : string)
    (s : t) : t :=
  match menu with
  | None => s
  | Some item =>
      if String.eqb urlStr "" then s else
      let '(b, s) :=
        match httpCache s !! urlStr with
        | Some b => (b, s)
        | None =>
            let resp := http_Get (requests s) urlStr in
            let s := mk (httpCache s) (requests s ++ [(urlStr, resp)]) (icons s) in
            match resp with
            | Success r =>
                if StatusCode r =? StatusOK
                then (Body r, mk (<[urlStr := Body r]> (httpCache s)) (requests s) (icons s))
                else ([], s)
            | Failure _ => ([], s)
            end
        end in
      if (0 <? Z.of_nat (length b))%Z
      then mk (httpCache s) (requests s) (icons s ++ [(item, b)])
      else s
  end.

(** A sequence of calls. *)
Definition setRemoteIcons (http_Get : Network) (calls : list (option nat * string))
    (s : t) : t :=
  fold_left (λ s c, setRemoteIcon http_Get c.1 c.2 s) calls s.

(** The requests that were answered with the status OK. *)
Definition fetched (r : string * result Response) : bool :=
  match r.2 with
  | Success resp => StatusCode resp =? StatusOK
  | Failure _ => false
  end.

(** The cache holds the bodies of the requests that were answered with the
    status OK, and no URL was requested with that answer twice. *)
Definition cacheInv (s : t) : Prop :=
  (∀ url b, httpCache s !! url = Some b ↔
            ∃ r, (url, Success r) ∈ requests s ∧ StatusCode r = StatusOK ∧ Body r = b)
  ∧ NoDup (fst <$> List.filter fetched (requests s))
  ∧ (∀ item b, (item, b) ∈ icons s → b ≠ []).

End RemoteIcon.

(** ** Reading a flag back *)

(** The two letters of a flag: each regional indicator symbol is four bytes
    long, and its last byte tells the letter. *)
Definition flagLetters (flag : string) : option (ascii * ascii) :=
  match list_ascii_of_string flag with
  | [_; _; _; b0; _; _; _; b1] =>
      Some (byte_of_Z (byteZ b0 - 0xA6 + 97), byte_of_Z (byteZ b1 - 0xA6 + 97))
  | _ => None
  end.

(** ** Delays *)

Definition isAnySleep (e : Effect) : bool :=
  match e with
  | ESleep _ => true
  | _ => false
  end.

(** The countries of the taxonomy that get a submenu. *)
Definition multiCity (mp : mullvadPeers) : list mvCountry.t :=
  List.filter (λ c, negb (isSingleCity c)) (sortedCountries mp).

(** ** Sample runs *)

(** The sample tailnet with the tailnet exit node in use, two profiles, a
    desktop session that works, and the world after the first rebuild. *)
Module demo.

Definition status : Status.t := sample.status (Some "n4").

Definition work : LoginProfile.t :=
  LoginProfile.mk "p2" "work@example.org" "" "https://example.org/p.png".

Definition state : state.t :=
  state.mk (Some status) sample.profile [sample.profile; work].

Definition w0 : World := sample.start (sample.daemon status).

Definition w1 : World := rebuilt state status sample.self "100.64.0.1" w0.

Definition desktop : Desktop.t :=
  Desktop.mk (λ _ _, None) (λ _, None) (λ _ _ _, None).


(** The world after a click on "More settings", the selection of the
    tailnet exit node and a click on "Quit". *)
Definition events : list Event := [MoreClicked; ExitNodeSelected "n4"; QuitClicked].

Definition w2 : World :=
  match eventLoop desktop events w1 with
  | Ok (_, w) => w
  | Panic _ => w1
  end.

End demo.
(** * Proofs *)

(** ** countryFlag *)

Section countryFlag_facts.

Lemma lor32_letter (c : ascii) :
  ((Z.lor (byteZ c) 32 <? byteZ "a") || (Z.lor (byteZ c) 32 >? byteZ "z"))
  = negb (isASCIILetter c).
Proof. destruct c as [[] [] [] [] [] [] [] []]; vm_compute; reflexivity. Qed.

Lemma lor32_lower (c : ascii) :
  isASCIILetter c = true → Z.lor (byteZ c) 32 = byteZ (lowerByte c).
Proof. destruct c as [[] [] [] [] [] [] [] []]; vm_compute; congruence. Qed.

Lemma lowerByte_letter (c : ascii) :
  isASCIILetter (lowerByte c) = isASCIILetter c.
Proof. destruct c as [[] [] [] [] [] [] [] []]; vm_compute; reflexivity. Qed.

Lemma lowerByte_idem (c : ascii) : lowerByte (lowerByte c) = lowerByte c.
Proof. destruct c as [[] [] [] [] [] [] [] []]; vm_compute; reflexivity. Qed.

Lemma lowerByte_indicator (c : ascii) :
  isASCIILetter c = true →
  isRegionalIndicator (regionalIndicator (lowerByte c)) = true.
Proof. destruct c as [[] [] [] [] [] [] [] []]; vm_compute; congruence. Qed.

Lemma lowerByte_encoded (c : ascii) :
  isASCIILetter c = true →
  length (encodeRune (regionalIndicator (lowerByte c))) = 4%nat.
Proof. destruct c as [[] [] [] [] [] [] [] []]; vm_compute; congruence. Qed.

Lemma length_string_of_list_ascii (l : list ascii) :
  String.length (string_of_list_ascii l) = length l.
Proof. induction l; simpl; congruence. Qed.

Lemma countryFlag_two (c0 c1 : ascii) :
  countryFlag (String c0 (String c1 EmptyString)) =
  if isASCIILetter c0 && isASCIILetter c1
  then string_of_runes [regionalIndicator (lowerByte c0);
                        regionalIndicator (lowerByte c1)]
  else "".
Proof.
  unfold countryFlag, countryFlag_loop.
  rewrite !lor32_letter.
  destruct (isASCIILetter c0) eqn:H0; simpl; [|done].
  destruct (isASCIILetter c1) eqn:H1; simpl; [|done].
  by rewrite !lor32_lower.
Qed.

End countryFlag_facts.

(** C10. [countryFlag] is total and case-insensitive: the result is the empty
    string unless the code is exactly two bytes, both ASCII letters of either
    case; then it is the UTF-8 string of the two regional-indicator runes of
    the lowercased letters, each in U+1F1E6..U+1F1FF. Hence the flag of a
    code is the flag of its ASCII-lowercased form. *)
Theorem countryFlag_spec (code : string) :
  countryFlag code =
    match twoLetters code with
    | Some (c0, c1) =>
        string_of_runes [regionalIndicator (lowerByte c0);
                         regionalIndicator (lowerByte c1)]
    | None => ""
    end
  ∧ match twoLetters code with
    | Some (c0, c1) =>
        isRegionalIndicator (regionalIndicator (lowerByte c0)) = true
        ∧ isRegionalIndicator (regionalIndicator (lowerByte c1)) = true
        ∧ String.length (countryFlag code) = 8%nat
    | None => True
    end
  ∧ countryFlag code = countryFlag (asciiLower code).
Proof.
  destruct code as [|c0 [|c1 [|c2 rest]]]; try (by repeat split).
  rewrite countryFlag_two. unfold twoLetters. simpl asciiLower.
  rewrite countryFlag_two, !lowerByte_letter, !lowerByte_idem.
  destruct (isASCIILetter c0) eqn:H0; simpl; [|done].
  destruct (isASCIILetter c1) eqn:H1; simpl; [|done].
  split; [done|]. split; [|done].
  split; [by apply lowerByte_indicator|].
  split; [by apply lowerByte_indicator|].
  unfold string_of_runes. simpl concat.
  rewrite length_string_of_list_ascii, app_nil_r, length_app.
  by rewrite !lowerByte_encoded.
Qed.

Example countryFlag_US :
  list_ascii_of_string (countryFlag "uS") =
  map byte_of_Z [0xF0; 0x9F; 0x87; 0xBA; 0xF0; 0x9F; 0x87; 0xB8].
Proof. vm_compute. reflexivity. Qed.

(** ** Loops that may panic *)

Lemma forRange_app {A B} (body : A → B → outcome A) l1 l2 a :
  forRange body (l1 ++ l2) a = forRange body l1 a ≫= forRange body l2.
Proof.
  revert a; induction l1 as [|x l1 IH]; intros a; simpl; [done|].
  destruct (body a x); simpl; [apply IH|done].
Qed.

(** ** The grouping of [newMullvadPeers] *)

Section grouping.

Implicit Types (l F : list PeerStatus.t) (ps : PeerStatus.t).
Implicit Types (m : gmap string mvCountry.t) (cc yc : string).

Lemma filter_snoc_True {A} (P : A → Prop) `{!∀ x, Decision (P x)} (l : list A) x :
  P x → filter P (l ++ [x]) = filter P l ++ [x].
Proof. intros. by rewrite filter_app, filter_cons_True, filter_nil. Qed.

Lemma filter_snoc_False {A} (P : A → Prop) `{!∀ x, Decision (P x)} (l : list A) x :
  ¬ P x → filter P (l ++ [x]) = filter P l.
Proof. intros. by rewrite filter_app, filter_cons_False, filter_nil, app_nil_r. Qed.

Lemma bestOf_snoc l ps : bestOf (l ++ [ps]) = pickBest (bestOf l) ps.
Proof. unfold bestOf. by rewrite fold_left_app. Qed.

Lemma bestOf_nil l : bestOf l = None ↔ l = [].
Proof.
  split; [|by intros ->].
  induction l as [|p l _] using rev_ind; [done|].
  rewrite bestOf_snoc. unfold pickBest. destruct (bestOf l); [|done].
  by destruct (_ >? _).
Qed.

Lemma bestOf_elem l b : bestOf l = Some b → b ∈ l.
Proof.
  revert b. induction l as [|p l IH] using rev_ind; intros b; [done|].
  rewrite bestOf_snoc. unfold pickBest. rewrite elem_of_app, list_elem_of_singleton.
  destruct (bestOf l) as [b0|]; [|naive_solver].
  destruct (_ >? _); naive_solver.
Qed.

Lemma bestOf_max l b p : bestOf l = Some b → p ∈ l → priorityOf p ≤ priorityOf b.
Proof.
  revert b. induction l as [|q l IH] using rev_ind; intros b; [by rewrite elem_of_nil|].
  rewrite bestOf_snoc. unfold pickBest. rewrite elem_of_app, list_elem_of_singleton.
  destruct (bestOf l) as [b0|] eqn:Hb.
  - destruct (priorityOf q >? priorityOf b0) eqn:Hgt; intros [= <-] [Hin| ->];
      try specialize (IH _ eq_refl Hin); lia.
  - apply bestOf_nil in Hb as ->. intros [= <-] [Hin| ->]; [by apply elem_of_nil in Hin|lia].
Qed.

Lemma inCountry_loc cc ps :
  inCountry cc ps ↔
  PeerStatus.ExitNodeOption ps = true
  ∧ ∃ loc, PeerStatus.Location ps = Some loc ∧ Location.CountryCode loc = cc.
Proof.
  unfold inCountry. destruct (PeerStatus.ExitNodeOption ps); simpl; [|naive_solver].
  destruct (PeerStatus.Location ps) as [loc|]; [|naive_solver].
  rewrite bool_decide_spec. naive_solver.
Qed.

Lemma inCity_loc cc yc ps :
  inCity cc yc ps ↔
  PeerStatus.ExitNodeOption ps = true
  ∧ ∃ loc, PeerStatus.Location ps = Some loc
           ∧ Location.CountryCode loc = cc ∧ Location.CityCode loc = yc.
Proof.
  unfold inCity. destruct (PeerStatus.ExitNodeOption ps); simpl; [|naive_solver].
  destruct (PeerStatus.Location ps) as [loc|]; [|naive_solver].
  rewrite andb_True, !bool_decide_spec. naive_solver.
Qed.

Lemma inCity_inCountry cc yc ps : inCity cc yc ps → inCountry cc ps.
Proof. rewrite inCity_loc, inCountry_loc. naive_solver. Qed.

Lemma qualifies_loc ps :
  qualifies ps ↔
  PeerStatus.ExitNodeOption ps = true ∧ is_Some (PeerStatus.Location ps).
Proof. unfold qualifies. rewrite andb_True, bool_decide_spec, Is_true_true. done. Qed.

Lemma filter_nil_not_elem {A} (P : A → Prop) `{!∀ x, Decision (P x)} (l : list A) :
  filter P l = [] ↔ ∀ x, x ∈ l → ¬ P x.
Proof.
  split.
  - intros Hnil x Hx HP.
    assert (x ∈ filter P l) as Hin by (by apply list_elem_of_filter).
    rewrite Hnil in Hin. by apply elem_of_nil in Hin.
  - intros Hall. destruct (filter P l) as [|x l'] eqn:Hf; [done|].
    assert (x ∈ filter P l) as Hin by (rewrite Hf; left).
    apply list_elem_of_filter in Hin as [HP Hin]. by destruct (Hall x Hin).
Qed.

Lemma inCity_filter_nil cc yc l :
  filter (λ p, inCountry cc p) l = [] → filter (λ p, inCity cc yc p) l = [].
Proof.
  rewrite !filter_nil_not_elem. intros H x Hx Hc. eapply H; [done|].
  by eapply inCity_inCountry.
Qed.

(** The test of the source agrees with [pickBest] on located peers, and
    does not dereference a nil location. *)
Lemma isBetter_pick F ps loc :
  (∀ p, p ∈ F → is_Some (PeerStatus.Location p)) →
  PeerStatus.Location ps = Some loc →
  ∃ b : bool, isBetter (bestOf F) loc = Ok b
    ∧ (if b then Some ps else bestOf F) = bestOf (F ++ [ps]).
Proof.
  intros HF Hloc. rewrite bestOf_snoc. unfold isBetter, pickBest.
  destruct (bestOf F) as [b|] eqn:Hb; [|by exists true].
  destruct (HF b (bestOf_elem _ _ Hb)) as [bl Hbl]. rewrite Hbl.
  eexists; split; [done|]. unfold priorityOf. by rewrite Hloc, Hbl.
Qed.

Lemma app_snoc_nonempty {A} (l : list A) x : l ++ [x] ≠ [].
Proof. by destruct l. Qed.

Lemma firstLoc_app F l : F ≠ [] → firstLoc (F ++ l) = firstLoc F.
Proof. by destruct F. Qed.

Lemma newMullvadPeers_body_inv l m ps :
  groupInv l m →
  ∃ m', newMullvadPeers_body m ps = Ok m' ∧ groupInv (l ++ [ps]) m'.
Proof.
  intros Hinv. unfold newMullvadPeers_body.
  destruct (PeerStatus.Location ps) as [loc|] eqn:Hloc; cycle 1.
  { exists m. split; [done|]. intros cc. specialize (Hinv cc).
    assert (∀ cc yc, ¬ inCountry cc ps ∧ ¬ inCity cc yc ps) as Hno.
    { intros ??. rewrite inCity_loc, inCountry_loc.
      split; intros (?&?&?&?); congruence. }
    unfold countryInv in *. rewrite filter_snoc_False by apply (Hno cc cc).
    destruct (m !! cc) as [c|]; [|done].
    destruct Hinv as (?&?&?&?&Hy). repeat split; try done.
    intros yc. rewrite filter_snoc_False by apply (Hno cc yc). apply Hy. }
  destruct (PeerStatus.ExitNodeOption ps) eqn:Hopt; simpl negb; cbv iota; cycle 1.
  { exists m. split; [done|]. intros cc. specialize (Hinv cc).
    assert (∀ cc yc, ¬ inCountry cc ps ∧ ¬ inCity cc yc ps) as Hno.
    { intros ??. rewrite inCity_loc, inCountry_loc.
      split; intros (?&?&?&?); congruence. }
    unfold countryInv in *. rewrite filter_snoc_False by apply (Hno cc cc).
    destruct (m !! cc) as [c|]; [|done].
    destruct Hinv as (?&?&?&?&Hy). repeat split; try done.
    intros yc. rewrite filter_snoc_False by apply (Hno cc yc). apply Hy. }
  set (cc0 := Location.CountryCode loc). set (yc0 := Location.CityCode loc).
  assert (inCountry cc0 ps) as HinC by (apply inCountry_loc; eauto).
  assert (inCity cc0 yc0 ps) as HinY by (apply inCity_loc; eauto 6).
  assert (∀ cc, cc ≠ cc0 → ¬ inCountry cc ps) as HneC.
  { intros cc ?. rewrite inCountry_loc. naive_solver. }
  assert (∀ cc yc, (cc ≠ cc0 ∨ yc ≠ yc0) → ¬ inCity cc yc ps) as HneY.
  { intros cc yc ?. rewrite inCity_loc. naive_solver. }
  assert (∀ cc yc p, p ∈ filter (λ p, inCity cc yc p) l → is_Some (PeerStatus.Location p)) as HlocY.
  { intros cc yc p. rewrite list_elem_of_filter, inCity_loc. naive_solver. }
  assert (∀ cc p, p ∈ filter (λ p, inCountry cc p) l → is_Some (PeerStatus.Location p)) as HlocC.
  { intros cc p. rewrite list_elem_of_filter, inCountry_loc. naive_solver. }
  (* the country and the city the iteration works on, and what they hold *)
  set (country := match m !! cc0 with Some c => c | None => _ end).
  set (city := match mvCountry.cities country !! yc0 with Some y => y | None => _ end).
  assert (mvCountry.code country = cc0
          ∧ mvCountry.best country = bestOf (filter (λ p, inCountry cc0 p) l)
          ∧ Location.Country <$> firstLoc (filter (λ p, inCountry cc0 p) l ++ [ps])
            = Some (mvCountry.name country)
          ∧ ∀ yc, cityInv (filter (λ p, inCity cc0 yc p) l) (mvCountry.cities country !! yc))
    as (Hcode & Hcbest & Hcname & Hcities).
  { specialize (Hinv cc0). unfold countryInv in Hinv. subst country.
    destruct (m !! cc0) as [c|].
    - destruct Hinv as (Hne&?&Hn&?&?). repeat split; try done.
      by rewrite firstLoc_app.
    - rewrite Hinv. repeat split; try done.
      + unfold firstLoc. simpl. by rewrite Hloc.
      + intros yc. simpl. rewrite lookup_empty. simpl. by apply inCity_filter_nil. }
  assert (mvCity.peers city = filter (λ p, inCity cc0 yc0 p) l
          ∧ mvCity.best city = bestOf (filter (λ p, inCity cc0 yc0 p) l)
          ∧ Location.City <$> firstLoc (filter (λ p, inCity cc0 yc0 p) l ++ [ps])
            = Some (mvCity.name city))
    as (Hypeers & Hybest & Hyname).
  { specialize (Hcities yc0). unfold cityInv in Hcities. subst city.
    destruct (mvCountry.cities country !! yc0) as [y|].
    - destruct Hcities as (Hne&?&?&Hn). repeat split; try done.
      by rewrite firstLoc_app.
    - rewrite Hcities. repeat split; try done.
      unfold firstLoc. simpl. by rewrite Hloc. }
  destruct (isBetter_pick _ ps loc (HlocY cc0 yc0) Hloc) as (b & Hbeq & Hb).
  destruct (isBetter_pick _ ps loc (HlocC cc0) Hloc) as (b' & Hb'eq & Hb').
  rewrite Hybest, Hbeq. simpl. rewrite Hcbest, Hb'eq. simpl. rewrite Hb, Hb'.
  eexists; split; [done|].
  intros cc. destruct (decide (cc = cc0)) as [->|Hcc].
  - rewrite lookup_insert_eq. unfold countryInv. simpl.
    rewrite filter_snoc_True by done.
    split; [apply app_snoc_nonempty|]. repeat split; try done.
    intros yc. destruct (decide (yc = yc0)) as [->|Hyc].
    + rewrite lookup_insert_eq. unfold cityInv. simpl.
      rewrite filter_snoc_True by done.
      split; [apply app_snoc_nonempty|]. repeat split; try done.
      by rewrite Hypeers.
    + rewrite lookup_insert_ne by done.
      rewrite filter_snoc_False by (apply HneY; auto). apply Hcities.
  - rewrite lookup_insert_ne by done. specialize (Hinv cc).
    unfold countryInv in *. rewrite filter_snoc_False by (by apply HneC).
    destruct (m !! cc) as [c|]; [|done].
    destruct Hinv as (?&?&?&?&Hy). repeat split; try done.
    intros yc. rewrite filter_snoc_False by (apply HneY; auto). apply Hy.
Qed.

Lemma forRange_newMullvadPeers l0 l m :
  groupInv l0 m →
  ∃ m', forRange newMullvadPeers_body l m = Ok m' ∧ groupInv (l0 ++ l) m'.
Proof.
  revert l0 m. induction l as [|ps l IH]; intros l0 m Hinv; simpl.
  - exists m. by rewrite app_nil_r.
  - destruct (newMullvadPeers_body_inv _ _ ps Hinv) as (m1 & -> & H1). simpl.
    destruct (IH _ _ H1) as (m' & -> & H'). exists m'.
    by rewrite <- app_assoc in H'.
Qed.

(** [newMullvadPeers] never panics, and its result is described by
    [groupInv] over all the peers of the status. *)
Lemma newMullvadPeers_inv (st : Status.t) :
  ∃ mp, newMullvadPeers st = Ok mp ∧ groupInv (Status.Peer st) (countries mp).
Proof.
  unfold newMullvadPeers.
  destruct (forRange_newMullvadPeers [] (Status.Peer st) ∅) as (m & -> & Hm).
  { intros cc. by rewrite lookup_empty. }
  by exists {| countries := m |}.
Qed.

(** Reading the invariant at one bucket. *)
Lemma groupInv_bucket l m cc yc :
  groupInv l m → bucket {| countries := m |} cc yc = filter (λ p, inCity cc yc p) l.
Proof.
  intros Hinv. specialize (Hinv cc). unfold bucket, countryInv in *. simpl.
  destruct (m !! cc) as [c|].
  - destruct Hinv as (_&_&_&_&Hy). specialize (Hy yc). unfold cityInv in Hy.
    destruct (mvCountry.cities c !! yc) as [y|]; [by destruct Hy as (_&->&_)|done].
  - symmetry. by apply inCity_filter_nil.
Qed.

Lemma groupInv_city l m cc c yc y :
  groupInv l m → m !! cc = Some c → mvCountry.cities c !! yc = Some y →
  filter (λ p, inCity cc yc p) l ≠ []
  ∧ mvCity.peers y = filter (λ p, inCity cc yc p) l
  ∧ mvCity.best y = bestOf (filter (λ p, inCity cc yc p) l).
Proof.
  intros Hinv Hc Hy. specialize (Hinv cc). rewrite Hc in Hinv.
  destruct Hinv as (_&_&_&_&Hys). specialize (Hys yc). rewrite Hy in Hys.
  by destruct Hys as (?&?&?&_).
Qed.

Lemma groupInv_country l m cc c :
  groupInv l m → m !! cc = Some c →
  filter (λ p, inCountry cc p) l ≠ []
  ∧ mvCountry.code c = cc
  ∧ mvCountry.best c = bestOf (filter (λ p, inCountry cc p) l).
Proof.
  intros Hinv Hc. specialize (Hinv cc). rewrite Hc in Hinv.
  by destruct Hinv as (?&?&?&?&_).
Qed.

(** Every peer of a country sits in one of the cities of that country. *)
Lemma groupInv_country_member l m cc c p :
  groupInv l m → m !! cc = Some c → p ∈ filter (λ p, inCountry cc p) l →
  ∃ yc y, mvCountry.cities c !! yc = Some y ∧ p ∈ mvCity.peers y.
Proof.
  intros Hinv Hc Hp. pose proof Hp as Hp'.
  apply list_elem_of_filter in Hp' as [HC Hin].
  apply inCountry_loc in HC as (Hopt & loc & Hloc & Hcc).
  specialize (Hinv cc). rewrite Hc in Hinv. destruct Hinv as (_&_&_&_&Hys).
  specialize (Hys (Location.CityCode loc)). unfold cityInv in Hys.
  assert (p ∈ filter (λ p, inCity cc (Location.CityCode loc) p) l) as HpY.
  { apply list_elem_of_filter. split; [|done]. apply inCity_loc. eauto 6. }
  destruct (mvCountry.cities c !! Location.CityCode loc) as [y|] eqn:Hy.
  - destruct Hys as (_&Hpeers&_). exists (Location.CityCode loc), y.
    by rewrite Hpeers.
  - rewrite Hys in HpY. by apply elem_of_nil in HpY.
Qed.

End grouping.

(** C1. The grouping partitions the eligible located peers: each bucket
    holds exactly the peers of the status that are exit-node eligible and
    located at its (country code, city code), in status order and as often as
    the status lists them; hence such a peer is in its own bucket and in no
    other, a peer that is not eligible or has no location is in no bucket,
    the union of the buckets is the set of eligible located peers, and no
    bucket of the maps is empty. The grouping never panics. *)
Theorem newMullvadPeers_partition (st : Status.t) :
  ∃ mp, newMullvadPeers st = Ok mp
  ∧ (∀ cc yc, bucket mp cc yc = filter (λ ps, inCity cc yc ps) (Status.Peer st))
  ∧ (∀ ps cc yc,
       ps ∈ bucket mp cc yc ↔
       ps ∈ Status.Peer st ∧ PeerStatus.ExitNodeOption ps = true
       ∧ ∃ loc, PeerStatus.Location ps = Some loc
                ∧ Location.CountryCode loc = cc ∧ Location.CityCode loc = yc)
  ∧ (∀ ps, ps ∈ Status.Peer st → qualifies ps →
       ∃ cc yc, ps ∈ bucket mp cc yc
                ∧ ∀ cc' yc', ps ∈ bucket mp cc' yc' → cc' = cc ∧ yc' = yc)
  ∧ (∀ ps cc yc, ¬ qualifies ps → ps ∉ bucket mp cc yc)
  ∧ (∀ ps, (∃ cc yc, ps ∈ bucket mp cc yc) ↔
           ps ∈ filter (λ ps, qualifies ps) (Status.Peer st))
  ∧ (∀ cc c, countries mp !! cc = Some c → mvCountry.cities c ≠ ∅)
  ∧ (∀ cc c yc y, countries mp !! cc = Some c → mvCountry.cities c !! yc = Some y →
       mvCity.peers y ≠ []).
Proof.
  destruct (newMullvadPeers_inv st) as ([m] & Hrun & Hinv). simpl in Hinv.
  exists {| countries := m |}. split; [done|].
  assert (∀ ps cc yc,
       ps ∈ bucket {| countries := m |} cc yc ↔
       ps ∈ Status.Peer st ∧ PeerStatus.ExitNodeOption ps = true
       ∧ ∃ loc, PeerStatus.Location ps = Some loc
                ∧ Location.CountryCode loc = cc ∧ Location.CityCode loc = yc) as Hmem.
  { intros ps cc yc. rewrite (groupInv_bucket _ _ _ _ Hinv).
    rewrite list_elem_of_filter, inCity_loc. naive_solver. }
  split; [intros; by apply groupInv_bucket|]. split; [done|].
  split; [|split; [|split; [|split]]].
  - intros ps Hin [Hopt [loc Hloc]]%qualifies_loc.
    exists (Location.CountryCode loc), (Location.CityCode loc). split.
    + apply Hmem. eauto 7.
    + intros cc' yc' (_ & _ & loc' & Hloc' & <- & <-)%Hmem. by simplify_eq.
  - intros ps cc yc Hq (_ & Hopt & loc & Hloc & _)%Hmem. apply Hq.
    apply qualifies_loc. eauto.
  - intros ps. rewrite list_elem_of_filter, qualifies_loc. split.
    + intros (cc & yc & (? & ? & loc & ? & _)%Hmem). eauto.
    + intros ([Hopt [loc Hloc]] & Hin).
      exists (Location.CountryCode loc), (Location.CityCode loc). apply Hmem. eauto 7.
  - simpl. intros cc c Hc Hempty.
    destruct (groupInv_country _ _ _ _ Hinv Hc) as (Hne & _).
    destruct (filter (λ p, inCountry cc p) (Status.Peer st)) as [|p F] eqn:HF; [done|].
    destruct (groupInv_country_member _ _ _ _ p Hinv Hc) as (yc & y & Hy & _).
    { rewrite HF. left. }
    by rewrite Hempty, lookup_empty in Hy.
  - simpl. intros cc c yc y Hc Hy.
    destruct (groupInv_city _ _ _ _ _ _ Hinv Hc Hy) as (? & -> & _). done.
Qed.

(** C2. In the grouping of any status, the best peer of every city is set,
    is a member of that city's own peer list and has a location priority at
    least that of every member; the best peer of every country is set, is a
    member of one of that country's cities and has a priority at least that
    of every peer of every city of the country. *)
Theorem newMullvadPeers_best (st : Status.t) :
  ∃ mp, newMullvadPeers st = Ok mp
  ∧ ∀ cc c, countries mp !! cc = Some c →
      (∃ b lb, mvCountry.best c = Some b ∧ PeerStatus.Location b = Some lb
         ∧ (∃ yc y, mvCountry.cities c !! yc = Some y ∧ b ∈ mvCity.peers y)
         ∧ ∀ yc y p, mvCountry.cities c !! yc = Some y → p ∈ mvCity.peers y →
             ∃ lp, PeerStatus.Location p = Some lp
                   ∧ Location.Priority lp ≤ Location.Priority lb)
      ∧ ∀ yc y, mvCountry.cities c !! yc = Some y →
          mvCity.peers y ≠ []
          ∧ ∃ b lb, mvCity.best y = Some b ∧ PeerStatus.Location b = Some lb
              ∧ b ∈ mvCity.peers y
              ∧ ∀ p, p ∈ mvCity.peers y →
                  ∃ lp, PeerStatus.Location p = Some lp
                        ∧ Location.Priority lp ≤ Location.Priority lb.
Proof.
  destruct (newMullvadPeers_inv st) as ([m] & Hrun & Hinv). simpl in Hinv.
  exists {| countries := m |}. split; [done|]. simpl. intros cc c Hc.
  assert (∀ (F : list PeerStatus.t),
    F ≠ [] → (∀ p, p ∈ F → is_Some (PeerStatus.Location p)) →
    ∃ b lb, bestOf F = Some b ∧ PeerStatus.Location b = Some lb ∧ b ∈ F
      ∧ ∀ p, p ∈ F → ∃ lp, PeerStatus.Location p = Some lp
                          ∧ Location.Priority lp ≤ Location.Priority lb) as Hbest.
  { intros F Hne HF. destruct (bestOf F) as [b|] eqn:Hb;
      [|by apply bestOf_nil in Hb].
    pose proof (bestOf_elem _ _ Hb) as Hin. destruct (HF b Hin) as [lb Hlb].
    exists b, lb. repeat split; try done. intros p Hp.
    destruct (HF p Hp) as [lp Hlp]. exists lp. split; [done|].
    pose proof (bestOf_max _ _ _ Hb Hp) as Hle. unfold priorityOf in Hle.
    by rewrite Hlp, Hlb in Hle. }
  split.
  - destruct (groupInv_country _ _ _ _ Hinv Hc) as (Hne & _ & ->).
    destruct (Hbest _ Hne) as (b & lb & Hb & Hlb & Hin & Hmax).
    { intros p. rewrite list_elem_of_filter, inCountry_loc. naive_solver. }
    exists b, lb. repeat split; try done.
    + by eapply groupInv_country_member.
    + intros yc y p Hy Hp. apply Hmax.
      destruct (groupInv_city _ _ _ _ _ _ Hinv Hc Hy) as (_ & Hpeers & _).
      rewrite Hpeers in Hp. apply list_elem_of_filter in Hp as [Hp ?].
      apply list_elem_of_filter. split; [|done]. by eapply inCity_inCountry.
  - intros yc y Hy.
    destruct (groupInv_city _ _ _ _ _ _ Hinv Hc Hy) as (Hne & -> & ->).
    split; [done|]. apply Hbest; [done|].
    intros p. rewrite list_elem_of_filter, inCity_loc. naive_solver.
Qed.

(** ** The state monad and the systray primitives *)

Section monad.

Lemma bind_Ok {A B} (m : M A) (f : A → M B) w a w' :
  m w = Ok (a, w') → (m ≫= f) w = f a w'.
Proof. unfold mbind, M_bind. by intros ->. Qed.

Lemma bind_Panic {A B} (m : M A) (f : A → M B) w msg :
  m w = Panic msg → (m ≫= f) w = Panic msg.
Proof. unfold mbind, M_bind. by intros ->. Qed.

Lemma put_id w : put (items w) (listeners w) (effects w) w = w.
Proof. by destruct w. Qed.

Lemma put_put its ls es its' ls' es' w :
  put its ls es (put its' ls' es' w) = put its ls es w.
Proof. done. Qed.

Lemma forEach_app {B} (l1 l2 : list B) (body : B → M unit) w :
  forEach (l1 ++ l2) body w = (forEach l1 body ≫= λ _, forEach l2 body) w.
Proof.
  revert w. induction l1 as [|x l1 IH]; intros w; [done|].
  simpl. unfold mbind, M_bind. destruct (body x w) as [[[] w1]|]; [|done].
  apply IH.
Qed.

Lemma addItem_run it w :
  addItem it w = Ok (length (items w), put (items w ++ [it]) (listeners w) (effects w) w).
Proof. done. Qed.

Lemma systray_AddMenuItem_run t tt' w :
  systray_AddMenuItem t tt' w =
  Ok (length (items w),
      put (items w ++ [mkItem t tt' false false false false false None])
          (listeners w) (effects w) w).
Proof. done. Qed.

Lemma systray_AddSeparator_run w :
  systray_AddSeparator w =
  Ok (tt, put (items w ++ [separatorItem None]) (listeners w) (effects w) w).
Proof. done. Qed.

Lemma AddSubMenuItem_run e t tt' w :
  AddSubMenuItem e t tt' w =
  Ok (length (items w),
      put (items w ++ [mkItem t tt' false false false false false (Some e)])
          (listeners w) (effects w) w).
Proof. done. Qed.

Lemma AddSubMenuItemCheckbox_run e t tt' b w :
  AddSubMenuItemCheckbox e t tt' b w =
  Ok (length (items w),
      put (items w ++ [mkItem t tt' false true b false false (Some e)])
          (listeners w) (effects w) w).
Proof. done. Qed.

Lemma AddSeparator_run e w :
  AddSeparator e w =
  Ok (tt, put (items w ++ [separatorItem (Some e)]) (listeners w) (effects w) w).
Proof. done. Qed.

Lemma updItem_run f i w :
  updItem f i w = Ok (tt, put (alter f i (items w)) (listeners w) (effects w) w).
Proof. done. Qed.

Lemma onClick_run ctx i id w :
  onClick ctx i id w =
  Ok (tt, put (items w) (listeners w ++ [exitNodeListener ctx i id]) (effects w) w).
Proof. done. Qed.

Lemma emit_run e w :
  emit e w = Ok (tt, put (items w) (listeners w) (effects w ++ [e]) w).
Proof. done. Qed.

Lemma request_run {A} c (answer : LocalClient.t → list Effect → A) w :
  request c answer w =
  Ok (answer (localClient w) (effects w),
      put (items w) (listeners w) (effects w ++ [ECall c]) w).
Proof. done. Qed.

Lemma skip_run w : skip w = Ok (tt, put (items w) (listeners w) (effects w) w).
Proof. unfold skip, mret, M_ret. by rewrite put_id. Qed.

Lemma alter_at_length {A} (f : A → A) (l : list A) x l' :
  alter f (length l) (l ++ x :: l') = l ++ f x :: l'.
Proof.
  replace (length l) with (length l + 0)%nat by lia.
  by rewrite alter_app_r.
Qed.

End monad.

(** One statement of a sequence, run on a world. *)
Ltac mstep :=
  erewrite bind_Ok by
    first [ apply AddSubMenuItemCheckbox_run | apply AddSubMenuItem_run
          | apply AddSeparator_run | apply systray_AddMenuItem_run
          | apply systray_AddSeparator_run
          | apply onClick_run
          | apply (updItem_run (setChecked true)) | apply (updItem_run (setDisabled true))
          | apply (updItem_run (setDisabled false)) | apply (updItem_run (setHidden true))
          | apply (updItem_run (setHidden false)) | apply updItem_run
          | apply emit_run | apply request_run | reflexivity ];
  cbn [items listeners effects menu localClient newMenuDelay appLogo eventLoops nextCtx put];
  rewrite ?put_put.

(** Unfolding the primitives of the model in a goal. *)
Ltac unfold_prims :=
  unfold AddSubMenuItemCheckbox, AddSubMenuItem, AddSeparator, systray_AddMenuItem,
    systray_AddSeparator, addItem, Check, Disable, Enable, Hide, Show, SetTitle,
    updItem, onClick, when, skip, modify, gets, deref, panic, time_Sleep, log_Print,
    emit, request, setAppIcon, systray_ResetMenu, liftOutcome,
    set_items, set_listeners, set_effects, set_menu, set_appLogo,
    set_eventLoops, set_nextCtx in *.

Ltac msimpl :=
  unfold_prims; unfold mbind, M_bind, mret, M_ret in *; simpl.

(** ** Checking the entries of a path *)

Section checks.

Implicit Types (l : list MenuItem) (path : list nat).

Lemma length_checkAll path l : length (checkAll path l) = length l.
Proof.
  revert l. induction path as [|i path IH]; intros l; [done|].
  unfold checkAll in *. simpl. by rewrite IH, length_alter.
Qed.

Lemma length_checkIf b path l : length (checkIf b path l) = length l.
Proof. destruct b; [apply length_checkAll|done]. Qed.

Lemma lookup_checkAll path l j :
  checkAll path l !! j =
  (if bool_decide (j ∈ path) then setChecked true else id) <$> l !! j.
Proof.
  revert l. induction path as [|i path IH]; intros l.
  - simpl. by destruct (l !! j).
  - unfold checkAll in *. simpl. rewrite IH, list_lookup_alter.
    destruct (decide (i = j)) as [->|Hne].
    + rewrite (bool_decide_true (j ∈ j :: path)) by left.
      destruct (l !! j) as [x|]; simpl; [|by case_bool_decide].
      by case_bool_decide.
    + destruct (l !! j) as [x|]; simpl; [|by repeat case_bool_decide].
      repeat case_bool_decide; try done; set_solver.
Qed.

Lemma checkAll_idem path l : checkAll path (checkAll path l) = checkAll path l.
Proof.
  apply list_eq. intros j. rewrite !lookup_checkAll.
  destruct (l !! j) as [x|]; simpl; [|done]. by case_bool_decide.
Qed.

Lemma checkIf_checkIf b1 b2 path l :
  checkIf b2 path (checkIf b1 path l) = checkIf (b1 || b2) path l.
Proof. destruct b1, b2; simpl; try done. apply checkAll_idem. Qed.

Lemma checkAll_app_l path l l' :
  Forall (λ i, i < length l)%nat path → checkAll path (l ++ l') = checkAll path l ++ l'.
Proof.
  revert l. induction path as [|i path IH]; intros l Hall; [done|].
  apply Forall_cons in Hall as [Hi Hall]. unfold checkAll in *. simpl.
  rewrite alter_app_l by done. apply IH. by rewrite length_alter.
Qed.

Lemma checkIf_app_l b path l l' :
  Forall (λ i, i < length l)%nat path → checkIf b path (l ++ l') = checkIf b path l ++ l'.
Proof. destruct b; [apply checkAll_app_l|done]. Qed.

Lemma checkAll_snoc path i l :
  checkAll (path ++ [i]) l = alter (setChecked true) i (checkAll path l).
Proof. unfold checkAll. by rewrite fold_left_app. Qed.

Lemma forEach_Check path w :
  forEach path Check w = Ok (tt, put (checkAll path (items w)) (listeners w) (effects w) w).
Proof.
  revert w. induction path as [|i path IH]; intros w; simpl.
  - unfold skip, mret, M_ret. by rewrite put_id.
  - erewrite bind_Ok by reflexivity. rewrite IH. done.
Qed.

Lemma checkPeers_run st path peers w :
  checkPeers st path peers w =
  Ok (tt, put (checkIf (existsb (λ ps, isActive st (PeerStatus.ID ps)) peers) path (items w))
              (listeners w) (effects w) w).
Proof.
  unfold checkPeers. revert w. induction peers as [|ps peers IH]; intros w; simpl.
  - unfold skip, mret, M_ret. by rewrite put_id.
  - unfold isActive at 1.
    destruct (Status.ExitNodeStatus st) as [e|] eqn:He.
    + rewrite (String.eqb_sym (PeerStatus.ID ps)).
      destruct (String.eqb (ExitNodeStatus.ID e) (PeerStatus.ID ps)); simpl.
      * erewrite bind_Ok by apply forEach_Check. rewrite IH. simpl.
        do 2 f_equal. unfold put; simpl. f_equal.
        destruct (existsb _ peers); simpl; [apply checkAll_idem|done].
      * erewrite bind_Ok by reflexivity. by rewrite IH.
    + erewrite bind_Ok by reflexivity. by rewrite IH.
Qed.

End checks.

(** ** The tailnet exit nodes *)

Section tailnet.

Lemma tailnetBody_run ctx e st ps w :
  tailnetBody ctx e st ps w =
  Ok (tt, if isTailnetExitNode ps
          then put (items w ++ [tailnetItem e st ps])
                   (listeners w ++ [exitNodeListener ctx (length (items w)) (PeerStatus.ID ps)])
                   (effects w) w
          else w).
Proof.
  unfold tailnetBody, isTailnetExitNode, tailnetItem.
  destruct (PeerStatus.ExitNodeOption ps); simpl; [|done].
  destruct (bool_decide (is_Some (PeerStatus.Location ps))); simpl; [done|].
  destruct (PeerStatus.Online ps), (isActive st (PeerStatus.ID ps)); msimpl;
    rewrite ?alter_at_length; simpl; rewrite ?alter_at_length; done.
Qed.

Lemma tailnet_loop ctx e st l w :
  forEach l (tailnetBody ctx e st) w =
  Ok (tt, put (items w ++ (tailnetItem e st <$> filter (λ ps, isTailnetExitNode ps) l))
              (listeners w ++
               imap (λ i ps, exitNodeListener ctx (length (items w) + i) (PeerStatus.ID ps))
                    (filter (λ ps, isTailnetExitNode ps) l))
              (effects w) w).
Proof.
  revert w. induction l as [|ps l IH]; intros w; simpl.
  - unfold skip, mret, M_ret. by rewrite !app_nil_r, put_id.
  - erewrite bind_Ok by apply tailnetBody_run. rewrite IH.
    destruct (isTailnetExitNode ps) eqn:Hps.
    + rewrite filter_cons_True by (by rewrite Hps). simpl.
      do 2 f_equal. unfold put; simpl. f_equal.
      * by rewrite <- app_assoc.
      * rewrite <- app_assoc. simpl. do 2 f_equal.
        { f_equal. lia. }
        apply imap_ext. intros i x _. simpl. f_equal. rewrite length_app. simpl. lia.
    + by rewrite filter_cons_False by (rewrite Hps; simpl; tauto).
Qed.

End tailnet.

(** ** The countries and cities of the "Mullvad VPN" submenu *)

Section mullvad.

Implicit Types (w : World) (st : Status.t) (c : mvCountry.t) (y : mvCity.t).

Lemma elem_of_sortedCities c y :
  y ∈ sortedCities c ↔ ∃ yc, mvCountry.cities c !! yc = Some y.
Proof.
  unfold sortedCities. rewrite merge_sort_Permutation, list_elem_of_fmap. split.
  - intros ([yc y'] & -> & Hin). exists yc. by apply elem_of_map_to_list.
  - intros (yc & Hy). exists (yc, y). split; [done|]. by apply elem_of_map_to_list.
Qed.

Lemma elem_of_sortedCountries mp c :
  c ∈ sortedCountries mp ↔ ∃ cc, countries mp !! cc = Some c.
Proof.
  unfold sortedCountries. rewrite merge_sort_Permutation, list_elem_of_fmap. split.
  - intros ([cc c'] & -> & Hin). exists cc. by apply elem_of_map_to_list.
  - intros (cc & Hc). exists (cc, c). split; [done|]. by apply elem_of_map_to_list.
Qed.

Lemma existsb_Permutation {A} (f : A → bool) (l1 l2 : list A) :
  l1 ≡ₚ l2 → existsb f l1 = existsb f l2.
Proof.
  induction 1 as [|x l1 l2 _ IH|x y l|l1 l2 l3 _ IH1 _ IH2]; simpl.
  - done.
  - by rewrite IH.
  - by destruct (f x), (f y).
  - by rewrite IH1.
Qed.

Lemma countryActive_sorted st c :
  existsb (cityActive st) (sortedCities c) = countryActive st c.
Proof. apply existsb_Permutation, merge_sort_Permutation. Qed.

(** Without an active exit node nothing is active. *)
Lemma isActive_None st id : Status.ExitNodeStatus st = None → isActive st id = false.
Proof. unfold isActive. by intros ->. Qed.

Lemma guarded_checkPeers st path peers w :
  when (bool_decide (is_Some (Status.ExitNodeStatus st))) (checkPeers st path peers) w
  = checkPeers st path peers w.
Proof.
  destruct (Status.ExitNodeStatus st) as [e|] eqn:He.
  - by rewrite bool_decide_true.
  - rewrite bool_decide_false by (by intros [? ?]). simpl.
    rewrite checkPeers_run.
    replace (existsb _ peers) with false.
    + simpl. unfold skip, mret, M_ret. by rewrite put_id.
    + symmetry. apply not_true_is_false. rewrite existsb_exists.
      intros (ps & _ & Hps). by rewrite isActive_None in Hps.
Qed.

(** Checking a path that ends at the entry just appended. *)
Lemma checkIf_new b path l x rest :
  Forall (λ i, i < length l)%nat path →
  checkIf b (path ++ [length l]) (l ++ x :: rest)
  = checkIf b path l ++ (if b then setChecked true x else x) :: rest.
Proof.
  intros Hpath. destruct b; simpl; [|done].
  rewrite checkAll_snoc, checkAll_app_l by done.
  rewrite <- (length_checkAll path l). apply alter_at_length.
Qed.

Lemma cityBody_run ctx m k st y w :
  (m < length (items w))%nat → (k < length (items w))%nat → is_Some (mvCity.best y) →
  cityBody ctx m k st y w =
  Ok (tt, put (checkIf (cityActive st y) [m; k] (items w) ++ [cityItem k st y])
              (listeners w ++ [exitNodeListener ctx (length (items w)) (bestID (mvCity.best y))])
              (effects w) w).
Proof.
  intros Hm Hk [b Hb]. unfold cityBody. rewrite Hb.
  erewrite bind_Ok by reflexivity. erewrite bind_Ok by reflexivity.
  erewrite bind_Ok by reflexivity.
  rewrite guarded_checkPeers, checkPeers_run. simpl.
  do 2 f_equal. unfold put; simpl. f_equal.
  change [m; k; length (items w)] with ([m; k] ++ [length (items w)]).
  rewrite checkIf_new by (repeat constructor; done).
  unfold cityItem, cityActive. by destruct (existsb _ _).
Qed.

Lemma cities_loop ctx m k st ys w :
  (m < length (items w))%nat → (k < length (items w))%nat →
  Forall (λ y, is_Some (mvCity.best y)) ys →
  forEach ys (cityBody ctx m k st) w =
  Ok (tt, put (checkIf (existsb (cityActive st) ys) [m; k] (items w) ++ (cityItem k st <$> ys))
              (listeners w ++
               imap (λ i y, exitNodeListener ctx (length (items w) + i) (bestID (mvCity.best y))) ys)
              (effects w) w).
Proof.
  revert w. induction ys as [|y ys IH]; intros w Hm Hk Hbest; simpl.
  - unfold skip, mret, M_ret. by rewrite !app_nil_r, put_id.
  - apply Forall_cons in Hbest as [Hy Hys].
    erewrite bind_Ok by (by apply cityBody_run).
    rewrite IH; simpl; rewrite ?length_app, ?length_checkIf; try lia; [|done].
    do 2 f_equal. unfold put; simpl. f_equal.
    + rewrite checkIf_app_l, checkIf_checkIf, <- app_assoc; [done|].
      rewrite length_checkIf. repeat constructor; done.
    + rewrite <- app_assoc. simpl. do 2 f_equal.
      { f_equal. lia. }
      apply imap_ext. intros i x _. simpl. f_equal. lia.
Qed.

(** The loop of the single-city branch over the cities of the country. *)
Lemma checkCities_loop st path ys w :
  forEach ys (λ city, checkPeers st path (mvCity.peers city)) w =
  Ok (tt, put (checkIf (existsb (cityActive st) ys) path (items w))
              (listeners w) (effects w) w).
Proof.
  revert w. induction ys as [|y ys IH]; intros w; simpl.
  - unfold skip, mret, M_ret. by rewrite put_id.
  - erewrite bind_Ok by apply checkPeers_run. rewrite IH. simpl.
    do 2 f_equal. unfold put; simpl. f_equal. apply checkIf_checkIf.
Qed.

Lemma guarded_checkCities st path ys w :
  when (bool_decide (is_Some (Status.ExitNodeStatus st)))
       (forEach ys (λ city, checkPeers st path (mvCity.peers city))) w
  = forEach ys (λ city, checkPeers st path (mvCity.peers city)) w.
Proof.
  destruct (Status.ExitNodeStatus st) as [e|] eqn:He.
  - by rewrite bool_decide_true.
  - rewrite bool_decide_false by (by intros [? ?]). simpl.
    rewrite checkCities_loop.
    replace (existsb _ ys) with false.
    + simpl. unfold skip, mret, M_ret. by rewrite put_id.
    + symmetry. apply not_true_is_false. rewrite existsb_exists.
      intros (y & _ & Hy). unfold cityActive in Hy. apply existsb_exists in Hy.
      destruct Hy as (ps & _ & Hps). by rewrite isActive_None in Hps.
Qed.

Lemma countryBody_run ctx m st c w :
  (m < length (items w))%nat → bestSet c →
  countryBody ctx m st c w =
  Ok (tt, put (checkIf (countryActive st c) [m] (items w)
               ++ countryBlock m (length (items w)) st c)
              (listeners w ++ countryListeners ctx (length (items w)) c)
              (effects w ++ countryEffects (newMenuDelay w) c) w).
Proof.
  intros Hm [[b Hb] Hys]. unfold countryBody, countryBlock, countryListeners, countryEffects.
  erewrite bind_Ok by reflexivity. fold (isSingleCity c).
  destruct (isSingleCity c) eqn:Hsingle.
  - rewrite Hb. erewrite bind_Ok by reflexivity. erewrite bind_Ok by reflexivity.
    rewrite guarded_checkCities, checkCities_loop. simpl.
    do 2 f_equal. unfold put; simpl. f_equal; [|by rewrite app_nil_r].
    change [m; length (items w)] with ([m] ++ [length (items w)]).
    rewrite checkIf_new by (repeat constructor; done).
    unfold countryItem, countryActive. by destruct (existsb _ _).
  - erewrite bind_Ok by reflexivity. erewrite bind_Ok by reflexivity.
    erewrite bind_Ok by reflexivity. rewrite Hb.
    erewrite bind_Ok by reflexivity. erewrite bind_Ok by reflexivity.
    erewrite bind_Ok by reflexivity.
    rewrite cities_loop; simpl; rewrite ?length_app; simpl; try lia.
    + do 2 f_equal. unfold put; simpl. f_equal.
      * rewrite countryActive_sorted. rewrite <- !app_assoc. simpl.
        change [m; length (items w)] with ([m] ++ [length (items w)]).
        rewrite checkIf_new by (repeat constructor; done).
        rewrite <- app_assoc. simpl. do 2 f_equal.
        unfold countryItem. by destruct (countryActive st c).
      * rewrite <- !app_assoc. simpl. f_equal. f_equal.
        apply imap_ext. intros i x _. simpl. f_equal. lia.
    + apply Forall_forall. intros y [yc Hy]%elem_of_sortedCities. by eapply Hys.
Qed.

Lemma countries_loop ctx m st cs w :
  (m < length (items w))%nat → Forall bestSet cs →
  forEach cs (countryBody ctx m st) w =
  Ok (tt, put (checkIf (existsb (countryActive st) cs) [m] (items w)
               ++ countryBlocks m (length (items w)) st cs)
              (listeners w ++ countriesListeners ctx m (length (items w)) st cs)
              (effects w ++ flat_map (countryEffects (newMenuDelay w)) cs) w).
Proof.
  revert w. induction cs as [|c cs IH]; intros w Hm Hbest; simpl.
  - unfold skip, mret, M_ret. by rewrite !app_nil_r, put_id.
  - apply Forall_cons in Hbest as [Hc Hcs].
    erewrite bind_Ok by (by apply countryBody_run).
    rewrite IH; simpl; rewrite ?length_app, ?length_checkIf; try lia; [|done].
    do 2 f_equal. unfold put; simpl. f_equal.
    + rewrite checkIf_app_l, checkIf_checkIf, <- app_assoc; [done|].
      rewrite length_checkIf. repeat constructor; done.
    + by rewrite <- app_assoc.
    + by rewrite <- app_assoc.
Qed.

End mullvad.

(** ** The sections of the exit-node menu *)

Section sections.

Implicit Types (w : World) (st : Status.t) (self : PeerStatus.t).

Lemma recommendedSection_run ctx e st self w :
  recommendedSection ctx e st self w =
  Ok (tt, put (items w ++ recommendedItems e st
                            (suggestionAt self (localClient w) (effects w)))
              (listeners w ++ recommendedListeners ctx (length (items w))
                                (suggestionAt self (localClient w) (effects w)))
              (effects w ++ recommendedEffects self) w).
Proof.
  unfold recommendedSection, suggestionAt, recommendedEffects.
  destruct (CapMap_Contains self NodeAttrSuggestExitNodeUI); unfold when.
  - mstep.
    destruct (LocalClient.SuggestExitNode (localClient w) (effects w)) as [sugg|err].
    + do 3 mstep. unfold recommendedItems, recommendedItem, recommendedListeners.
      destruct (isActive st (ExitNodeSuggestion.ID sugg)).
      * rewrite (updItem_run (setChecked true)). cbn [items listeners effects put].
        rewrite alter_at_length, <- app_assoc, length_app. done.
      * rewrite skip_run. cbn [items listeners effects put].
        rewrite <- app_assoc, length_app. done.
    + rewrite skip_run. cbn [items listeners effects put]. by rewrite !app_nil_r.
  - rewrite skip_run. by rewrite !app_nil_r.
Qed.

Lemma List_filter_filter {A} (f : A → bool) (l : list A) :
  List.filter f l = filter (λ x, f x) l.
Proof.
  induction l as [|x l IH]; simpl; [done|].
  destruct (f x) eqn:Hx.
  - rewrite filter_cons_True by (by rewrite Hx). by f_equal.
  - by rewrite filter_cons_False by (rewrite Hx; simpl; tauto).
Qed.

Lemma tailnetSection_run ctx e st w :
  tailnetSection ctx e st w =
  Ok (tt, put (items w ++ tailnetItems e st)
              (listeners w ++ tailnetListeners ctx (length (items w)) st)
              (effects w) w).
Proof.
  unfold tailnetSection, tailnetItems, tailnetListeners, tailnetExitNodes.
  rewrite List_filter_filter.
  change (filter (λ x, Is_true (PeerStatus.ExitNodeOption x
            && negb (bool_decide (is_Some (PeerStatus.Location x))))) (Status.Peer st))
    with (filter (λ ps, Is_true (isTailnetExitNode ps)) (Status.Peer st)).
  destruct (filter (λ ps, Is_true (isTailnetExitNode ps)) (Status.Peer st))
    as [|ps F] eqn:HF.
  - simpl. rewrite skip_run. by rewrite !app_nil_r.
  - replace (0 <? Z.of_nat (length (ps :: F))) with true
      by (symmetry; apply Z.ltb_lt; simpl; lia).
    unfold when. do 3 mstep.
    rewrite tailnet_loop, HF. cbn [items listeners effects put].
    rewrite alter_at_length, <- !app_assoc, !length_app, put_put. simpl.
    done.
Qed.

Lemma groupInv_bestSet l m cc c : groupInv l m → m !! cc = Some c → bestSet c.
Proof.
  intros Hinv Hc. split.
  - destruct (groupInv_country _ _ _ _ Hinv Hc) as (Hne & _ & ->).
    destruct (bestOf _) eqn:Hb; [done|]. by apply bestOf_nil in Hb.
  - intros yc y Hy.
    destruct (groupInv_city _ _ _ _ _ _ Hinv Hc Hy) as (Hne & _ & ->).
    destruct (bestOf _) eqn:Hb; [done|]. by apply bestOf_nil in Hb.
Qed.

(** The taxonomy the menu shows satisfies the invariant of the grouping. *)
Lemma mullvadPeersOf_inv st self :
  ∃ l, groupInv l (countries (mullvadPeersOf st self))
       ∧ (CapMap_Contains self "mullvad" = true → l = Status.Peer st)
       ∧ (CapMap_Contains self "mullvad" = false → l = []).
Proof.
  unfold mullvadPeersOf. destruct (CapMap_Contains self "mullvad").
  - destruct (newMullvadPeers_inv st) as (mp & -> & Hinv). by exists (Status.Peer st).
  - exists []. split; [|done]. intros cc. simpl. by rewrite lookup_empty.
Qed.

(** Every country the menu shows has its best peers set. *)
Lemma mullvadPeersOf_bestSet st self :
  Forall bestSet (sortedCountries (mullvadPeersOf st self)).
Proof.
  apply Forall_forall. intros c [cc Hc]%elem_of_sortedCountries.
  destruct (mullvadPeersOf_inv st self) as (l & Hinv & _).
  by eapply groupInv_bestSet.
Qed.

Lemma mullvadSection_run ctx e st self w :
  mullvadSection ctx e st self w =
  Ok (tt, put (items w ++ mullvadItems e (length (items w)) st self)
              (listeners w ++ mullvadListeners ctx (length (items w)) st self)
              (effects w ++ mullvadEffects (newMenuDelay w) st self) w).
Proof.
  unfold mullvadSection, mullvadItems, mullvadListeners, mullvadEffects.
  pose proof (mullvadPeersOf_bestSet st self) as Hbest.
  assert ((if CapMap_Contains self "mullvad"
           then liftOutcome (newMullvadPeers st)
           else mret {| countries := ∅ |}) w = Ok (mullvadPeersOf st self, w)) as Hmp.
  { unfold mullvadPeersOf. destruct (CapMap_Contains self "mullvad"); [|done].
    destruct (newMullvadPeers_inv st) as (mp & -> & _). done. }
  erewrite bind_Ok by exact Hmp.
  destruct (0 <? Z.of_nat (size (countries (mullvadPeersOf st self)))) eqn:Hsize;
    unfold when.
  - do 4 mstep.
    rewrite countries_loop; [|cbn [items put]; rewrite !length_app; simpl; lia|done].
    cbn [items listeners effects put newMenuDelay]. rewrite put_put.
    rewrite alter_at_length.
    change [length ((items w ++ [separatorItem (Some e)])
                    ++ [setDisabled true
                          (mkItem "Location-based Exit Nodes" "" false false false false
                                  false (Some e))])]
      with ([] ++ [length ((items w ++ [separatorItem (Some e)])
                    ++ [setDisabled true
                          (mkItem "Location-based Exit Nodes" "" false false false false
                                  false (Some e))])]).
    rewrite checkIf_new by constructor.
    replace (checkIf _ [] _) with
      ((items w ++ [separatorItem (Some e)])
       ++ [setDisabled true
             (mkItem "Location-based Exit Nodes" "" false false false false
                     false (Some e))]) by (by destruct (existsb _ _)).
    rewrite <- !app_assoc, !length_app. simpl.
    replace (length (items w) + 1 + 1)%nat with (length (items w) + 2)%nat by lia.
    replace (length (items w) + 1 + 1 + 1)%nat with (length (items w) + 3)%nat by lia.
    replace (length (items w) + 2 + 1)%nat with (length (items w) + 3)%nat by lia.
    do 3 f_equal. do 3 f_equal.
    unfold mullvadItem. by destruct (existsb _ _).
  - assert (sortedCountries (mullvadPeersOf st self) = []) as ->.
    { apply Z.ltb_ge in Hsize.
      assert (countries (mullvadPeersOf st self) = ∅) as Hempty
        by (apply map_size_empty_inv; lia).
      unfold sortedCountries. rewrite Hempty, map_to_list_empty. done. }
    simpl. rewrite skip_run. by rewrite !app_nil_r.
Qed.

Lemma rebuildExitNodeMenu_run ctx w st self :
  Menu.status (menu w) = Some st → Status.Self st = Some self →
  rebuildExitNodeMenu ctx w =
  Ok (tt, set_menu (set_exitNodes (Some (length (items w))))
            (put (items w ++ exitNodeItems (length (items w)) st self
                    (suggestionAt self (localClient w) (effects w ++ [ESleep (newMenuDelay w)])))
                 (listeners w ++ exitNodeListeners ctx (length (items w)) st self
                    (suggestionAt self (localClient w) (effects w ++ [ESleep (newMenuDelay w)])))
                 (effects w ++ exitNodeEffects (newMenuDelay w) st self) w)).
Proof.
  intros Hst Hself. unfold rebuildExitNodeMenu.
  mstep. rewrite Hst. do 4 mstep.
  cbn [set_menu items listeners effects menu localClient newMenuDelay put].
  do 3 mstep. rewrite Hself. mstep.
  cbn [set_menu items listeners effects menu localClient newMenuDelay put].
  erewrite bind_Ok by apply recommendedSection_run.
  cbn [set_menu items listeners effects menu localClient newMenuDelay put].
  erewrite bind_Ok by apply tailnetSection_run.
  cbn [set_menu items listeners effects menu localClient newMenuDelay put].
  mstep. rewrite mullvadSection_run.
  cbn [set_menu items listeners effects menu localClient newMenuDelay put].
  unfold exitNodeItems, exitNodeListeners, exitNodeEffects, noneItem, exitNodesItem.
  rewrite <- !app_assoc, !length_app. simpl.
  set (d := newMenuDelay w).
  set (os := suggestionAt self (localClient w) (effects w ++ [ESleep d])).
  replace (length (items w) + 1)%nat with (S (length (items w))) by lia.
  replace (length (items w) + 1 + 1)%nat with (length (items w) + 2)%nat by lia.
  set (R := length (recommendedItems (length (items w)) st os)).
  set (T := length (tailnetItems (length (items w)) st)).
  replace (length (items w) + S (S (R + T)))%nat
    with (length (items w) + 2 + R + T)%nat by lia.
  replace (length (items w) + S (S R))%nat with (length (items w) + 2 + R)%nat by lia.
  reflexivity.
Qed.

Lemma rebuildExitNodeMenu_nil_status ctx w :
  Menu.status (menu w) = None → rebuildExitNodeMenu ctx w = Panic nilDeref.
Proof.
  intros Hst. unfold rebuildExitNodeMenu.
  mstep. rewrite Hst. do 4 mstep.
  cbn [set_menu items listeners effects menu localClient newMenuDelay put].
  done.
Qed.

Lemma rebuildExitNodeMenu_nil_self ctx w st :
  Menu.status (menu w) = Some st → Status.Self st = None →
  rebuildExitNodeMenu ctx w = Panic nilDeref.
Proof.
  intros Hst Hself. unfold rebuildExitNodeMenu.
  mstep. rewrite Hst. do 4 mstep.
  cbn [set_menu items listeners effects menu localClient newMenuDelay put].
  do 3 mstep. rewrite Hself. done.
Qed.

End sections.

(** ** Where the entries of the countries are *)

Section blocks.

Local Open Scope nat_scope.
Implicit Types (st : Status.t) (c : mvCountry.t) (cs : list mvCountry.t).

Lemma length_countryBlock m k st c : length (countryBlock m k st c) = blockLen c.
Proof.
  unfold countryBlock, blockLen. destruct (isSingleCity c); simpl; [done|].
  by rewrite length_fmap.
Qed.

Lemma blockLen_pos c : (0 < blockLen c)%nat.
Proof. unfold blockLen. destruct (isSingleCity c); lia. Qed.

Lemma blockOffset_lt cs n n' c :
  (n < n')%nat → cs !! n = Some c → (n' ≤ length cs)%nat →
  (blockOffset cs n + blockLen c ≤ blockOffset cs n')%nat.
Proof.
  revert n n'. induction cs as [|c0 cs IH]; intros n n' Hlt Hc Hn'; [done|].
  destruct n' as [|n']; [lia|]. destruct n as [|n]; simpl in *.
  - simplify_eq. lia.
  - assert (n < n')%nat as Hlt' by lia. assert (n' ≤ length cs)%nat as Hn'' by lia.
    pose proof (IH n n' Hlt' Hc Hn''). lia.
Qed.

Lemma blockOffset_inj cs n n' c c' :
  cs !! n = Some c → cs !! n' = Some c' → blockOffset cs n = blockOffset cs n' → n = n'.
Proof.
  intros Hc Hc' Heq.
  pose proof (lookup_lt_Some _ _ _ Hc). pose proof (lookup_lt_Some _ _ _ Hc').
  pose proof (blockLen_pos c). pose proof (blockLen_pos c').
  destruct (Nat.lt_trichotomy n n') as [Hlt|[?|Hlt]]; [|done|].
  - pose proof (blockOffset_lt cs n n' c Hlt Hc). lia.
  - pose proof (blockOffset_lt cs n' n c' Hlt Hc'). lia.
Qed.

(** The entries of one country, by position in its block. *)
Lemma countryBlock_lookup m k st c i a :
  countryBlock m k st c !! i = Some a →
  (i = 0%nat ∧ a = countryItem m st c)
  ∨ (isSingleCity c = false
     ∧ ((i = 1%nat ∧ a = bestAvailableItem k)
        ∨ (i = 2%nat ∧ a = separatorItem (Some k))
        ∨ ∃ j y, sortedCities c !! j = Some y ∧ i = (3 + j)%nat ∧ a = cityItem k st y)).
Proof.
  unfold countryBlock. destruct i as [|i]; simpl; [naive_solver|].
  destruct (isSingleCity c); [done|]. intros Hi. right. split; [done|]. revert Hi.
  intros Hi. destruct i as [|[|j]]; simpl in *; [naive_solver..|].
  right; right. rewrite list_lookup_fmap in Hi.
  destruct (sortedCities c !! j) as [y|] eqn:Hy; simplify_eq/=. eauto.
Qed.

(** Every entry of the blocks belongs to one country, at a known place. *)
Lemma countryBlocks_lookup m base st cs i a :
  countryBlocks m base st cs !! i = Some a →
  ∃ n c, cs !! n = Some c
    ∧ ((i = blockOffset cs n ∧ a = countryItem m st c)
       ∨ (isSingleCity c = false
          ∧ ((i = (blockOffset cs n + 1)%nat
              ∧ a = bestAvailableItem (base + blockOffset cs n))
             ∨ (i = (blockOffset cs n + 2)%nat
                ∧ a = separatorItem (Some (base + blockOffset cs n)))
             ∨ ∃ j y, sortedCities c !! j = Some y
                 ∧ i = (blockOffset cs n + 3 + j)%nat
                 ∧ a = cityItem (base + blockOffset cs n) st y))).
Proof.
  revert base i. induction cs as [|c cs IH]; intros base i Hi; [done|].
  cbn [countryBlocks] in Hi. apply lookup_app_Some in Hi as [Hi|[Hge Hi]].
  - exists 0%nat, c. split; [done|]. cbn [blockOffset]. rewrite Nat.add_0_r.
    apply countryBlock_lookup in Hi. naive_solver.
  - rewrite length_countryBlock in Hge, Hi.
    destruct (IH _ _ Hi) as (n & c' & Hc' & Hcases).
    exists (S n), c'. split; [done|]. cbn [blockOffset].
    replace (base + (blockLen c + blockOffset cs n))%nat
      with (base + blockLen c + blockOffset cs n)%nat by lia.
    destruct Hcases as [[? ->]|[Hs [[? ->]|[[? ->]|(j & y & Hy & ? & ->)]]]].
    + left. split; [lia|done].
    + right. split; [done|]. left. split; [lia|done].
    + right. split; [done|]. right; left. split; [lia|done].
    + right. split; [done|]. right; right. exists j, y. split; [done|]. split; [lia|done].
Qed.

(** The entry of the [n]-th country. *)
Lemma countryBlocks_country m base st cs n c :
  cs !! n = Some c →
  countryBlocks m base st cs !! blockOffset cs n = Some (countryItem m st c).
Proof.
  revert base n. induction cs as [|c0 cs IH]; intros base n Hc; [done|].
  destruct n as [|n]; cbn [countryBlocks countriesListeners blockOffset lookup list_lookup] in *.
  - by simplify_eq.
  - rewrite lookup_app_r; rewrite length_countryBlock; [|lia].
    replace (blockLen c0 + blockOffset cs n - blockLen c0)%nat
      with (blockOffset cs n) by lia.
    by apply IH.
Qed.

(** The submenu of the [n]-th country, when it has several cities. *)
Lemma countryBlocks_submenu m base st cs n c :
  cs !! n = Some c → isSingleCity c = false →
  countryBlocks m base st cs !! (blockOffset cs n + 1)%nat
    = Some (bestAvailableItem (base + blockOffset cs n))
  ∧ ∀ j y, sortedCities c !! j = Some y →
      countryBlocks m base st cs !! (blockOffset cs n + 3 + j)%nat
        = Some (cityItem (base + blockOffset cs n) st y).
Proof.
  revert base n. induction cs as [|c0 cs IH]; intros base n Hc Hs; [done|].
  destruct n as [|n]; cbn [countryBlocks countriesListeners blockOffset lookup list_lookup] in *.
  - simplify_eq. unfold countryBlock. rewrite Hs. rewrite Nat.add_0_r. split; [done|].
    intros j y Hy. rewrite lookup_app_l.
    + simpl. by rewrite list_lookup_fmap, Hy.
    + simpl. rewrite length_fmap. apply lookup_lt_Some in Hy. lia.
  - destruct (IH (base + blockLen c0)%nat n Hc Hs) as [HBA Hcity].
    replace (base + (blockLen c0 + blockOffset cs n))%nat
      with (base + blockLen c0 + blockOffset cs n)%nat by lia.
    split.
    + rewrite lookup_app_r; rewrite length_countryBlock; [|lia].
      rewrite <- HBA. f_equal. lia.
    + intros j y Hy.
      rewrite lookup_app_r; rewrite length_countryBlock; [|lia].
      rewrite <- (Hcity j y Hy). f_equal. lia.
Qed.

Lemma length_countryBlocks m base st cs :
  length (countryBlocks m base st cs) = blockOffset cs (length cs).
Proof.
  revert base. induction cs as [|c cs IH]; intros base; [done|].
  cbn [countryBlocks blockOffset length]. by rewrite length_app, length_countryBlock, IH.
Qed.

End blocks.

(** ** The listeners of the countries *)

Section block_listeners.

Local Open Scope nat_scope.
Implicit Types (st : Status.t) (c : mvCountry.t) (cs : list mvCountry.t).

Lemma countriesListeners_elem ctx m base st cs l :
  l ∈ countriesListeners ctx m base st cs →
  ∃ n c, cs !! n = Some c
    ∧ ((isSingleCity c = true
        ∧ l = exitNodeListener ctx (base + blockOffset cs n) (bestID (mvCountry.best c)))
       ∨ (isSingleCity c = false
          ∧ (l = exitNodeListener ctx (base + blockOffset cs n + 1) (bestID (mvCountry.best c))
             ∨ ∃ j y, sortedCities c !! j = Some y
                 ∧ l = exitNodeListener ctx (base + blockOffset cs n + 3 + j)
                         (bestID (mvCity.best y))))).
Proof.
  revert base. induction cs as [|c cs IH]; intros base Hl; [by apply elem_of_nil in Hl|].
  cbn [countriesListeners] in Hl. apply elem_of_app in Hl as [Hl|Hl].
  - exists 0%nat, c. split; [done|]. cbn [blockOffset]. rewrite Nat.add_0_r.
    unfold countryListeners in Hl. destruct (isSingleCity c).
    + left. apply list_elem_of_singleton in Hl. done.
    + right. split; [done|]. apply elem_of_cons in Hl as [->|Hl]; [by left|].
      right. apply list_elem_of_lookup in Hl as [j Hj].
      rewrite list_lookup_imap in Hj.
      destruct (sortedCities c !! j) as [y|] eqn:Hy; simplify_eq/=. eauto.
  - rewrite length_countryBlock in Hl.
    destruct (IH _ Hl) as (n & c' & Hc' & Hcases).
    exists (S n), c'. split; [done|]. cbn [blockOffset].
    replace (base + (blockLen c + blockOffset cs n))%nat
      with (base + blockLen c + blockOffset cs n)%nat by lia.
    done.
Qed.

Lemma countriesListeners_single ctx m base st cs n c :
  cs !! n = Some c → isSingleCity c = true →
  exitNodeListener ctx (base + blockOffset cs n) (bestID (mvCountry.best c))
  ∈ countriesListeners ctx m base st cs.
Proof.
  revert base n. induction cs as [|c0 cs IH]; intros base n Hc Hs; [done|].
  destruct n as [|n]; cbn [countryBlocks countriesListeners blockOffset lookup list_lookup] in *; apply elem_of_app.
  - simplify_eq. left. unfold countryListeners. rewrite Hs, Nat.add_0_r. left.
  - right. rewrite length_countryBlock.
    replace (base + (blockLen c0 + blockOffset cs n))%nat
      with (base + blockLen c0 + blockOffset cs n)%nat by lia.
    by apply IH.
Qed.


End block_listeners.

(** ** Countries with a single city *)

Section single_city.

Lemma filter_ext_elem {A} (P Q : A → Prop) `{!∀ x, Decision (P x), !∀ x, Decision (Q x)}
    (l : list A) :
  (∀ x, x ∈ l → P x ↔ Q x) → filter P l = filter Q l.
Proof.
  induction l as [|x l IH]; intros Hext; [done|].
  rewrite !filter_cons. rewrite IH by (intros y Hy; apply Hext; by right).
  pose proof (Hext x (list_elem_of_here _ _)).
  destruct (decide (P x)), (decide (Q x)); tauto || done.
Qed.

Lemma map_size_1_inv {A} (m : gmap string A) :
  size m = 1%nat → ∃ k x, m !! k = Some x ∧ ∀ k' x', m !! k' = Some x' → k' = k ∧ x' = x.
Proof.
  intros Hsize. rewrite <- length_map_to_list in Hsize.
  destruct (map_to_list m) as [|[k x] [|? ?]] eqn:Hl; simplify_eq/=.
  exists k, x. split.
  - apply elem_of_map_to_list. rewrite Hl. left.
  - intros k' x' Hk'. apply elem_of_map_to_list in Hk'. rewrite Hl in Hk'.
    apply list_elem_of_singleton in Hk'. by simplify_eq.
Qed.

(** In a country with one city the best peer of the country is the best peer
    of the city. *)
Lemma groupInv_single_city l m cc c :
  groupInv l m → m !! cc = Some c → size (mvCountry.cities c) = 1%nat →
  ∃ yc y, mvCountry.cities c !! yc = Some y
          ∧ mvCity.best y = mvCountry.best c
          ∧ ∀ yc' y', mvCountry.cities c !! yc' = Some y' → yc' = yc ∧ y' = y.
Proof.
  intros Hinv Hc Hsize.
  destruct (map_size_1_inv _ Hsize) as (yc & y & Hy & Honly).
  exists yc, y. split; [done|]. split; [|done].
  destruct (groupInv_country _ _ _ _ Hinv Hc) as (_ & _ & ->).
  destruct (groupInv_city _ _ _ _ _ _ Hinv Hc Hy) as (_ & _ & ->).
  f_equal. apply filter_ext_elem. intros p Hp. split; [apply inCity_inCountry|].
  intros HC.
  destruct (groupInv_country_member l m cc c p Hinv Hc) as (yc' & y' & Hy' & Hin).
  { by apply list_elem_of_filter. }
  destruct (Honly _ _ Hy') as [-> ->].
  destruct (groupInv_city _ _ _ _ _ _ Hinv Hc Hy) as (_ & Hpeers & _).
  rewrite Hpeers in Hin. by apply list_elem_of_filter in Hin as [? _].
Qed.

End single_city.

(** ** The shape of the rendered exit-node menu *)

Section shape.

Local Open Scope nat_scope.

Variables (e : nat) (st : Status.t) (self : PeerStatus.t).
Variable (os : option ExitNodeSuggestion.t).

Local Abbreviation R := (length (recommendedItems e st os)).
Local Abbreviation T := (length (tailnetItems e st)).
Local Abbreviation cs := (sortedCountries (mullvadPeersOf st self)).

Lemma recommendedItems_lookup i a :
  recommendedItems e st os !! i = Some a →
  ∃ sugg, os = Some sugg
    ∧ ((i = 0 ∧ a = separatorItem (Some e)) ∨ (i = 1 ∧ a = recommendedItem e st sugg)).
Proof.
  unfold recommendedItems. destruct os as [sugg|]; [|done].
  intros Hi. exists sugg. split; [done|].
  destruct i as [|[|i]]; simplify_eq/=; auto.
Qed.

Lemma tailnetItems_lookup i a :
  tailnetItems e st !! i = Some a →
  (i = 0 ∧ a = separatorItem (Some e))
  ∨ (i = 1 ∧ a = headerItem e "Tailnet Exit Nodes")
  ∨ ∃ n ps, tailnetExitNodes st !! n = Some ps ∧ i = 2 + n ∧ a = tailnetItem e st ps.
Proof.
  unfold tailnetItems. destruct (tailnetExitNodes st) as [|ps0 F] eqn:HF; [done|].
  rewrite <- HF. clear HF.
  intros Hi. destruct i as [|[|n]]; cbn [lookup list_lookup] in Hi.
  - left. by simplify_eq.
  - right; left. by simplify_eq.
  - right; right. apply list_lookup_fmap_Some in Hi as (ps & -> & Hps). eauto.
Qed.

Lemma tailnetItems_entry n ps :
  tailnetExitNodes st !! n = Some ps →
  tailnetItems e st !! (2 + n) = Some (tailnetItem e st ps).
Proof.
  unfold tailnetItems. intros Hn.
  destruct (tailnetExitNodes st) as [|ps0 F] eqn:HF; [done|].
  rewrite <- HF in *. clear HF.
  cbn [lookup list_lookup Nat.add].
  apply list_lookup_fmap_Some. eauto.
Qed.

Lemma mullvadItems_lookup k i a :
  mullvadItems e k st self !! i = Some a →
  (i = 0 ∧ a = separatorItem (Some e))
  ∨ (i = 1 ∧ a = headerItem e "Location-based Exit Nodes")
  ∨ (i = 2 ∧ a = mullvadItem e st (mullvadPeersOf st self))
  ∨ ∃ i', i = 3 + i' ∧ countryBlocks (k + 2) (k + 3) st cs !! i' = Some a.
Proof.
  unfold mullvadItems. cbv zeta.
  destruct (0 <? Z.of_nat (size (countries (mullvadPeersOf st self))))%Z; [|done].
  intros Hi. destruct i as [|[|[|i']]]; simplify_eq/=; eauto 6.
Qed.

Lemma mullvadItems_block k i a :
  countryBlocks (k + 2) (k + 3) st cs !! i = Some a →
  mullvadItems e k st self !! (3 + i) = Some a.
Proof.
  unfold mullvadItems. cbv zeta.
  destruct (0 <? Z.of_nat (size (countries (mullvadPeersOf st self))))%Z eqn:Hsize; [done|].
  assert (cs = []) as ->; [|done].
  apply Z.ltb_ge in Hsize.
  assert (countries (mullvadPeersOf st self) = ∅) as Hempty
    by (apply map_size_empty_inv; lia).
  unfold sortedCountries. by rewrite Hempty, map_to_list_empty.
Qed.

Lemma mullvadItems_root k c :
  c ∈ cs →
  mullvadItems e k st self !! 2 = Some (mullvadItem e st (mullvadPeersOf st self)).
Proof.
  unfold mullvadItems. cbv zeta. intros Hc.
  destruct (0 <? Z.of_nat (size (countries (mullvadPeersOf st self))))%Z eqn:Hsize; [done|].
  apply Z.ltb_ge in Hsize.
  assert (countries (mullvadPeersOf st self) = ∅) as Hempty
    by (apply map_size_empty_inv; lia).
  unfold sortedCountries in Hc. rewrite Hempty, map_to_list_empty in Hc.
  by apply elem_of_nil in Hc.
Qed.

(** Every entry of the exit-node menu, by its position relative to the root
    entry "Exit Nodes". *)
Lemma exitNodeItems_lookup i a :
  exitNodeItems e st self os !! i = Some a →
  (i = 0 ∧ a = exitNodesItem)
  ∨ (i = 1 ∧ a = noneItem e st)
  ∨ (∃ i', i = 2 + i' ∧ recommendedItems e st os !! i' = Some a)
  ∨ (∃ i', i = 2 + R + i' ∧ tailnetItems e st !! i' = Some a)
  ∨ (∃ i', i = 2 + R + T + i' ∧ mullvadItems e (e + 2 + R + T) st self !! i' = Some a).
Proof.
  unfold exitNodeItems. intros Hi.
  destruct i as [|[|i]]; simplify_eq/=; auto.
  right; right.
  apply lookup_app_Some in Hi as [Hi|[Hge Hi]]; [left; eauto|right].
  apply lookup_app_Some in Hi as [Hi|[Hge' Hi]].
  - left. exists (i - R). split; [lia|done].
  - right. exists (i - R - T). split; [lia|done].
Qed.

Lemma exitNodeItems_none : exitNodeItems e st self os !! 1 = Some (noneItem e st).
Proof. done. Qed.

Lemma exitNodeItems_tailnet i a :
  tailnetItems e st !! i = Some a → exitNodeItems e st self os !! (2 + R + i) = Some a.
Proof.
  intros Hi. unfold exitNodeItems.
  rewrite lookup_app_r by (simpl; lia). rewrite lookup_app_r by (simpl; lia).
  replace (2 + R + i - length [exitNodesItem; noneItem e st] - R) with i by (simpl; lia).
  by apply lookup_app_l_Some.
Qed.

Lemma exitNodeItems_mullvad i a :
  mullvadItems e (e + 2 + R + T) st self !! i = Some a →
  exitNodeItems e st self os !! (2 + R + T + i) = Some a.
Proof.
  intros Hi. unfold exitNodeItems.
  rewrite lookup_app_r by (simpl; lia). rewrite lookup_app_r by (simpl; lia).
  rewrite lookup_app_r by (simpl; lia).
  by replace (2 + R + T + i - length [exitNodesItem; noneItem e st] - R - T)
    with i by (simpl; lia).
Qed.

End shape.

(** ** The rendered menu as a whole *)

Section rendered.

Local Open Scope nat_scope.

Implicit Types (w : World) (st : Status.t) (self : PeerStatus.t).

Lemma length_tailnetItems e st :
  length (tailnetItems e st) =
  match tailnetExitNodes st with [] => 0 | _ => 2 + length (tailnetExitNodes st) end.
Proof.
  unfold tailnetItems. destruct (tailnetExitNodes st) as [|ps F] eqn:HF; [done|].
  rewrite <- HF. simpl. by rewrite length_fmap.
Qed.

Lemma tailnetListeners_entry ctx k st n ps :
  tailnetExitNodes st !! n = Some ps →
  exitNodeListener ctx (k + 2 + n) (PeerStatus.ID ps) ∈ tailnetListeners ctx k st.
Proof.
  intros Hn. unfold tailnetListeners. apply list_elem_of_lookup. exists n.
  by rewrite list_lookup_imap, Hn.
Qed.

Lemma tailnetListeners_elem ctx k st l :
  l ∈ tailnetListeners ctx k st →
  ∃ n ps, tailnetExitNodes st !! n = Some ps
          ∧ l = exitNodeListener ctx (k + 2 + n) (PeerStatus.ID ps).
Proof.
  unfold tailnetListeners. intros [n Hn]%list_elem_of_lookup.
  rewrite list_lookup_imap in Hn.
  destruct (tailnetExitNodes st !! n) as [ps|] eqn:Hps; simplify_eq/=. eauto.
Qed.

Lemma isActive_spec st id :
  isActive st id = true ↔
  ∃ ens, Status.ExitNodeStatus st = Some ens ∧ id = ExitNodeStatus.ID ens.
Proof.
  unfold isActive. destruct (Status.ExitNodeStatus st) as [ens|].
  - rewrite String.eqb_eq. naive_solver.
  - naive_solver.
Qed.

End rendered.

(** C9. In the rendered exit-node menu the exit-node-eligible peers without
    location metadata have consecutive entries in the order of the status,
    children of the "Exit Nodes" entry; the entry of a peer is disabled iff
    the peer is offline and checked iff the peer's id is the id of the active
    exit node, and its click sends the peer's id. *)
Theorem tailnet_entries_rendered (ctx : nat) (w : World) (st : Status.t)
    (self : PeerStatus.t) :
  Menu.status (menu w) = Some st → Status.Self st = Some self →
  ∃ w' k, rebuildExitNodeMenu ctx w = Ok (tt, w')
    ∧ ∀ n ps,
        filter (λ ps, isTailnetExitNode ps) (Status.Peer st) !! n = Some ps →
        ∃ it, items w' !! (k + n)%nat = Some it
          ∧ parent it = Some (length (items w))
          ∧ isSeparator it = false ∧ isCheckable it = true ∧ hidden it = false
          ∧ title it = (if PeerStatus.Online ps
                        then firstLabel (PeerStatus.DNSName ps)
                        else firstLabel (PeerStatus.DNSName ps) +:+ " (offline)")
          ∧ (disabled it = true ↔ PeerStatus.Online ps = false)
          ∧ (checked it = true ↔
             ∃ ens, Status.ExitNodeStatus st = Some ens
                    ∧ PeerStatus.ID ps = ExitNodeStatus.ID ens)
          ∧ exitNodeListener ctx (k + n) (PeerStatus.ID ps) ∈ listeners w'.
Proof.
  intros Hst Hself.
  set (os := suggestionAt self (localClient w) (effects w ++ [ESleep (newMenuDelay w)])).
  set (e := length (items w)).
  eexists _, (e + (2 + length (recommendedItems e st os) + 2))%nat.
  split; [by apply rebuildExitNodeMenu_run|].
  intros n ps Hn. fold (tailnetExitNodes st) in Hn.
  exists (tailnetItem e st ps). cbn [items listeners set_menu put]. split.
  { rewrite lookup_app_r by lia.
    replace (e + (2 + length (recommendedItems e st os) + 2) + n - length (items w))%nat
      with (2 + length (recommendedItems e st os) + (2 + n))%nat by (unfold e; lia).
    apply exitNodeItems_tailnet. by apply tailnetItems_entry. }
  unfold tailnetItem. cbn [parent isSeparator isCheckable hidden title disabled checked].
  repeat split; try done.
  - by destruct (PeerStatus.Online ps).
  - by destruct (PeerStatus.Online ps).
  - by destruct (PeerStatus.Online ps).
  - by apply isActive_spec.
  - by apply isActive_spec.
  - apply elem_of_app. right. unfold exitNodeListeners.
    apply elem_of_app. right. apply elem_of_app. right. apply elem_of_app. left.
    fold e. fold os.
    replace (e + (2 + length (recommendedItems e st os) + 2) + n)%nat
      with (e + 2 + length (recommendedItems e st os) + 2 + n)%nat by lia.
    by apply tailnetListeners_entry.
Qed.

Section parents.

Local Open Scope nat_scope.

Variables (e : nat) (st : Status.t) (self : PeerStatus.t).
Variable (os : option ExitNodeSuggestion.t).

Local Abbreviation R := (length (recommendedItems e st os)).
Local Abbreviation T := (length (tailnetItems e st)).
Local Abbreviation cs := (sortedCountries (mullvadPeersOf st self)).

(** The parent of an entry is the root entry, the "Mullvad VPN" entry (for
    the entry of a country) or the entry of a multi-city country (for the
    entries of its submenu). *)
Lemma exitNodeItems_parent i a p :
  exitNodeItems e st self os !! i = Some a → parent a = Some p →
  p = e
  ∨ (p = e + 2 + R + T + 2
     ∧ ∃ n c, cs !! n = Some c ∧ i = 2 + R + T + 3 + blockOffset cs n
              ∧ a = countryItem p st c)
  ∨ (∃ n c, cs !! n = Some c ∧ isSingleCity c = false
            ∧ p = e + 2 + R + T + 3 + blockOffset cs n
            ∧ 2 + R + T + 3 + blockOffset cs n < i
            ∧ i < 2 + R + T + 3 + blockOffset cs n + blockLen c).
Proof.
  intros Hi Hp.
  apply exitNodeItems_lookup in Hi
    as [[_ ->]|[[_ ->]|[(i' & _ & Hi)|[(i' & _ & Hi)|(i' & -> & Hi)]]]].
  - done.
  - left. by simplify_eq/=.
  - apply recommendedItems_lookup in Hi as (sugg & _ & [[_ ->]|[_ ->]]);
      left; by simplify_eq/=.
  - apply tailnetItems_lookup in Hi as [[_ ->]|[[_ ->]|(n & ps & _ & _ & ->)]];
      left; by simplify_eq/=.
  - apply mullvadItems_lookup in Hi as [[_ ->]|[[_ ->]|[[_ ->]|(i'' & -> & Hi)]]];
      [left; by simplify_eq/=..|].
    apply countryBlocks_lookup in Hi as (n & c & Hc & Hcases).
    destruct Hcases as [[-> ->]|[Hs Hsub]].
    + right; left. simpl in Hp. simplify_eq. split; [done|].
      exists n, c. split; [done|]. split; [lia|done].
    + right; right. exists n, c. split; [done|]. split; [done|].
      unfold blockLen. rewrite Hs.
      destruct Hsub as [[-> ->]|[[-> ->]|(j & y & Hy & -> & ->)]];
        simpl in Hp; simplify_eq; (split; [lia|]); (split; [lia|]);
        try lia.
      apply lookup_lt_Some in Hy. lia.
Qed.

End parents.

(** ** Countries of the taxonomy in the menu *)

Section countries_rendered.

Local Open Scope nat_scope.

Lemma groupInv_cities_nonempty l m cc c :
  groupInv l m → m !! cc = Some c → (0 < size (mvCountry.cities c)).
Proof.
  intros Hinv Hc.
  destruct (groupInv_country _ _ _ _ Hinv Hc) as (Hne & _).
  destruct (filter (λ p, inCountry cc p) l) as [|p F] eqn:HF; [done|].
  destruct (groupInv_country_member _ _ _ _ p Hinv Hc) as (yc & y & Hy & _).
  { rewrite HF. left. }
  destruct (decide (size (mvCountry.cities c) = 0)) as [Hz|]; [|lia].
  apply map_size_empty_inv in Hz. by rewrite Hz, lookup_empty in Hy.
Qed.

Lemma isSingleCity_spec c : isSingleCity c = true ↔ size (mvCountry.cities c) = 1.
Proof. unfold isSingleCity. by rewrite bool_decide_eq_true. Qed.

End countries_rendered.

(** C4. In the rendered taxonomy every country has its own entry; a nested
    "Best Available" entry is a child of that entry iff the country has more
    than one city; the entry of a country with exactly one city has no
    child at all (a flat toggle, not a submenu) and its one listener sends
    the id of that city's best peer. *)
Theorem country_rendering (ctx : nat) (w : World) (st : Status.t)
    (self : PeerStatus.t) :
  Menu.status (menu w) = Some st → Status.Self st = Some self →
  CapMap_Contains self "mullvad" = true →
  ∃ w' mp new,
    rebuildExitNodeMenu ctx w = Ok (tt, w')
    ∧ newMullvadPeers st = Ok mp
    ∧ listeners w' = listeners w ++ new
    ∧ ∀ cc c, countries mp !! cc = Some c →
        ∃ k it,
          (length (items w) ≤ k)%nat ∧ items w' !! k = Some it
          ∧ title it = countryFlag (mvCountry.code c) +:+ " " +:+ mvCountry.name c
          ∧ isCheckable it = true
          ∧ ((∃ j sub, (length (items w) ≤ j)%nat ∧ items w' !! j = Some sub
                       ∧ parent sub = Some k ∧ title sub = "Best Available")
             ↔ (1 < size (mvCountry.cities c))%nat)
          ∧ (size (mvCountry.cities c) = 1%nat →
               (∀ j sub, (length (items w) ≤ j)%nat → items w' !! j = Some sub →
                         parent sub ≠ Some k)
               ∧ ∃ yc y b,
                   mvCountry.cities c !! yc = Some y ∧ mvCity.best y = Some b
                   ∧ exitNodeListener ctx k (PeerStatus.ID b) ∈ new
                   ∧ ∀ l, l ∈ new → l_item l = k →
                          l = exitNodeListener ctx k (PeerStatus.ID b)).
Proof.
  intros Hst Hself Hcap.
  destruct (newMullvadPeers_inv st) as (mp & Hmp & Hinv).
  assert (mullvadPeersOf st self = mp) as Hof.
  { unfold mullvadPeersOf. by rewrite Hcap, Hmp. }
  set (os := suggestionAt self (localClient w) (effects w ++ [ESleep (newMenuDelay w)])).
  set (e := length (items w)).
  set (R := length (recommendedItems e st os)).
  set (T := length (tailnetItems e st)).
  eexists _, mp, _. split; [by apply rebuildExitNodeMenu_run|].
  split; [done|]. split; [reflexivity|].
  cbn [items listeners set_menu put]. fold e os.
  intros cc c Hc.
  assert (c ∈ sortedCountries mp) as Hin by (apply elem_of_sortedCountries; eauto).
  apply list_elem_of_lookup in Hin as [n Hn].
  set (k := (e + (2 + R + T + 3 + blockOffset (sortedCountries mp) n))%nat).
  pose proof (groupInv_cities_nonempty _ _ _ _ Hinv Hc) as Hpos.
  pose proof (groupInv_bestSet _ _ _ _ Hinv Hc) as [[b Hb] Hbests].
  (* the items at and after the root entry *)
  assert (∀ j a, (e ≤ j)%nat →
            (items w ++ exitNodeItems e st self os) !! j = Some a →
            exitNodeItems e st self os !! (j - e)%nat = Some a) as Hnew.
  { intros j a Hj. by rewrite lookup_app_r by (unfold e in *; lia). }
  assert (∀ i a, exitNodeItems e st self os !! i = Some a →
            (items w ++ exitNodeItems e st self os) !! (e + i)%nat = Some a) as Hat.
  { intros i a Hi. rewrite lookup_app_r by (unfold e; lia).
    by replace (e + i - length (items w))%nat with i by (unfold e; lia). }
  (* an entry whose parent is [k] is in the submenu of the country [c] *)
  assert (∀ j sub, (e ≤ j)%nat →
            (items w ++ exitNodeItems e st self os) !! j = Some sub →
            parent sub = Some k → isSingleCity c = false) as Hchild.
  { intros j sub Hj Hsub Hp. apply Hnew in Hsub; [|done].
    destruct (exitNodeItems_parent _ _ _ _ _ _ _ Hsub Hp)
      as [?|[[? _]|(n' & c' & Hn' & Hs & Hk & _)]]; [unfold k in *; lia..|].
    rewrite Hof in Hn', Hk. fold R T in Hk.
    assert (n' = n) as ->.
    { eapply blockOffset_inj; [done..|unfold k in Hk; lia]. }
    by simplify_eq. }
  exists k, (countryItem (e + 2 + R + T + 2) st c).
  split; [unfold k; lia|]. split.
  { unfold k. apply Hat.
    replace (2 + R + T + 3 + blockOffset (sortedCountries mp) n)%nat
      with (2 + R + T + (3 + blockOffset (sortedCountries mp) n))%nat by lia.
    apply exitNodeItems_mullvad, mullvadItems_block. rewrite Hof.
    replace (e + 2 + R + T + 2)%nat with (e + 2 + R + T + 2)%nat by lia.
    by apply countryBlocks_country. }
  split; [done|]. split; [done|]. split; [split|].
  - intros (j & sub & Hj & Hsub & Hp & _).
    pose proof (Hchild j sub Hj Hsub Hp) as Hs.
    destruct (decide (size (mvCountry.cities c) = 1%nat)) as [H1|]; [|lia].
    apply isSingleCity_spec in H1. congruence.
  - intros Hsize.
    assert (isSingleCity c = false) as Hs.
    { apply not_true_is_false. rewrite isSingleCity_spec. lia. }
    exists (k + 1)%nat, (bestAvailableItem k). split; [unfold k; lia|]. split; [|done].
    unfold k.
    replace (e + (2 + R + T + 3 + blockOffset (sortedCountries mp) n) + 1)%nat
      with (e + (2 + R + T + (3 + (blockOffset (sortedCountries mp) n + 1))))%nat by lia.
    apply Hat, exitNodeItems_mullvad, mullvadItems_block. rewrite Hof.
    destruct (countryBlocks_submenu (e + 2 + R + T + 2) (e + 2 + R + T + 3) st
                (sortedCountries mp) n c Hn Hs) as [HBA _].
    fold R T. rewrite HBA. do 2 f_equal. lia.
  - intros Hsize. pose proof Hsize as Hs. apply isSingleCity_spec in Hs. split.
    { intros j sub Hj Hsub Hp. pose proof (Hchild j sub Hj Hsub Hp). congruence. }
    destruct (groupInv_single_city _ _ _ _ Hinv Hc Hsize) as (yc & y & Hy & Hbest & _).
    exists yc, y, b. split; [done|]. split; [congruence|].
    assert (exitNodeListener ctx k (PeerStatus.ID b)
            = exitNodeListener ctx (e + 2 + R + T + 3 + blockOffset (sortedCountries mp) n)
                (bestID (mvCountry.best c))) as HL.
    { rewrite Hb. simpl. unfold k. f_equal. lia. }
    split.
    + unfold exitNodeListeners. apply elem_of_app. right. apply elem_of_app. right.
      apply elem_of_app. right. unfold mullvadListeners. rewrite Hof, HL.
      fold R T. by apply countriesListeners_single.
    + intros l Hl Hitem. unfold exitNodeListeners in Hl.
      apply elem_of_app in Hl as [Hl|Hl].
      { apply list_elem_of_singleton in Hl as ->. simpl in Hitem. unfold k in Hitem. lia. }
      apply elem_of_app in Hl as [Hl|Hl].
      { unfold recommendedListeners in Hl. destruct os as [sugg|]; [|by apply elem_of_nil in Hl].
        apply list_elem_of_singleton in Hl as ->. simpl in Hitem. unfold k in Hitem. lia. }
      apply elem_of_app in Hl as [Hl|Hl].
      { apply tailnetListeners_elem in Hl as (n' & ps & Hps & ->). simpl in Hitem.
        apply lookup_lt_Some in Hps. fold R in Hitem.
        pose proof (length_tailnetItems e st) as HT. fold T in HT.
        destruct (tailnetExitNodes st); simpl in *; unfold k in Hitem; lia. }
      unfold mullvadListeners in Hl. rewrite Hof in Hl. fold R T in Hl.
      apply countriesListeners_elem in Hl as (n' & c' & Hn' & Hcases).
      destruct (decide (n' = n)) as [->|Hne].
      { assert (c' = c) as -> by congruence.
        destruct Hcases as [[_ ->]|[? _]]; [|congruence].
        by rewrite HL. }
      exfalso.
      pose proof (lookup_lt_Some _ _ _ Hn). pose proof (lookup_lt_Some _ _ _ Hn').
      assert (blockOffset (sortedCountries mp) n' + blockLen c'
                ≤ blockOffset (sortedCountries mp) n
              ∨ blockOffset (sortedCountries mp) n + blockLen c
                ≤ blockOffset (sortedCountries mp) n')%nat as Hoff.
      { destruct (Nat.lt_trichotomy n' n) as [Hlt|[?|Hlt]]; [|done|].
        - left. apply blockOffset_lt; [done..|lia].
        - right. apply blockOffset_lt; [done..|lia]. }
      pose proof (blockLen_pos c).
      destruct Hcases as [[Hs' ->]|[Hs' [->|(j & y' & Hy' & ->)]]];
        simpl in Hitem; unfold k in Hitem; unfold blockLen in Hoff;
        rewrite ?Hs', ?Hs in Hoff; try (apply lookup_lt_Some in Hy'); lia.
Qed.

(** ** Which entries are checked *)

Section checked.

Local Open Scope nat_scope.

Implicit Types (st : Status.t) (c : mvCountry.t) (y : mvCity.t) (p : PeerStatus.t).

Lemma cityActive_peer st y :
  cityActive st y = true →
  ∃ p, p ∈ mvCity.peers y ∧ isActive st (PeerStatus.ID p) = true.
Proof.
  unfold cityActive. rewrite existsb_exists. intros (p & Hp & Hact).
  exists p. by rewrite list_elem_of_In.
Qed.

Lemma countryActive_city st c :
  countryActive st c = true →
  ∃ yc y, mvCountry.cities c !! yc = Some y ∧ cityActive st y = true.
Proof.
  unfold countryActive. rewrite existsb_exists. intros (y & Hy & Hact).
  apply list_elem_of_In, list_elem_of_fmap in Hy as ([yc y'] & -> & Hy).
  apply elem_of_map_to_list in Hy. eauto.
Qed.



(** The active peer of a city of the taxonomy is a peer of the status at the
    codes of the city. *)
Lemma groupInv_active_city l m st cc c yc y :
  groupInv l m → m !! cc = Some c → mvCountry.cities c !! yc = Some y →
  cityActive st y = true →
  ∃ p, p ∈ l ∧ inCity cc yc p ∧ isActive st (PeerStatus.ID p) = true.
Proof.
  intros Hinv Hc Hy (p & Hp & Hact)%cityActive_peer.
  destruct (groupInv_city _ _ _ _ _ _ Hinv Hc Hy) as (_ & Hpeers & _).
  rewrite Hpeers in Hp. apply list_elem_of_filter in Hp as [? ?]. eauto.
Qed.

Lemma groupInv_active_country l m st cc c :
  groupInv l m → m !! cc = Some c → countryActive st c = true →
  ∃ p, p ∈ l ∧ inCountry cc p ∧ isActive st (PeerStatus.ID p) = true.
Proof.
  intros Hinv Hc (yc & y & Hy & Hact)%countryActive_city.
  destruct (groupInv_active_city _ _ _ _ _ _ _ Hinv Hc Hy Hact) as (p & ? & ? & ?).
  exists p. eauto using inCity_inCountry.
Qed.




End checked.

Section checked_entries.

Local Open Scope nat_scope.

Variables (e : nat) (st : Status.t) (self : PeerStatus.t).
Variable (os : option ExitNodeSuggestion.t).

Local Abbreviation R := (length (recommendedItems e st os)).
Local Abbreviation T := (length (tailnetItems e st)).
Local Abbreviation cs := (sortedCountries (mullvadPeersOf st self)).


End checked_entries.

Section active_once.

Local Open Scope nat_scope.

Variables (st : Status.t) (self : PeerStatus.t).
Hypothesis distinct_ids : NoDup (PeerStatus.ID <$> Status.Peer st).

Local Abbreviation cs := (sortedCountries (mullvadPeersOf st self)).








End active_once.

Section no_exit_node.

Variables (st : Status.t) (self : PeerStatus.t).
Hypothesis no_exit_node : Status.ExitNodeStatus st = None.




End no_exit_node.

(** ** The checked entries of the menu *)

Section checked_siblings.

Local Open Scope nat_scope.

Variables (e : nat) (st : Status.t) (self : PeerStatus.t).
Variable (os : option ExitNodeSuggestion.t).
Hypothesis distinct_ids : NoDup (PeerStatus.ID <$> Status.Peer st).

Local Abbreviation cs := (sortedCountries (mullvadPeersOf st self)).



End checked_siblings.



(** ** Rebuilding the whole menu *)

Section rebuild_facts.

Local Open Scope nat_scope.

Implicit Types (w : World) (st : state.t).

Lemma setRemoteIcon_run item url w :
  setRemoteIcon item url w =
  Ok (tt, put (items w) (listeners w) (effects w ++ remoteIconEffects item url) w).
Proof.
  unfold setRemoteIcon, remoteIconEffects. destruct (String.eqb url "").
  - rewrite skip_run. by rewrite app_nil_r.
  - apply emit_run.
Qed.

Lemma profileBody_run ctx accounts st profile w :
  profileBody ctx accounts st profile w =
  Ok (tt, put (items w ++ [profileItem accounts st profile])
              (listeners w ++ [mkListener ctx (length (items w))
                                 (toAccountsCh (LoginProfile.ID profile))])
              (effects w ++ remoteIconEffects (length (items w))
                              (LoginProfile.ProfilePicURL profile)) w).
Proof.
  unfold profileBody, profileItem. fold (isCurrent st profile).
  destruct (isCurrent st profile).
  - mstep. erewrite bind_Ok by apply setRemoteIcon_run. done.
  - mstep. erewrite bind_Ok by apply setRemoteIcon_run. done.
Qed.

Lemma profiles_loop ctx accounts st ps w :
  forEach ps (profileBody ctx accounts st) w =
  Ok (tt, put (items w ++ (profileItem accounts st <$> ps))
              (listeners w ++
               imap (λ i profile, mkListener ctx (length (items w) + i)
                                    (toAccountsCh (LoginProfile.ID profile))) ps)
              (effects w ++
               concat (imap (λ i profile, remoteIconEffects (length (items w) + i)
                                            (LoginProfile.ProfilePicURL profile)) ps)) w).
Proof.
  revert w. induction ps as [|p ps IH]; intros w; simpl.
  - rewrite skip_run. by rewrite !app_nil_r.
  - erewrite bind_Ok by apply profileBody_run. rewrite IH.
    cbn [items listeners effects put]. rewrite put_put.
    rewrite <- !app_assoc, length_app. simpl.
    rewrite Nat.add_0_r. do 3 f_equal.
    + do 2 f_equal. apply imap_ext. intros i x _. simpl. f_equal. lia.
    + do 3 f_equal. apply imap_ext. intros i x _. simpl. f_equal. lia.
Qed.

End rebuild_facts.

Ltac wstep :=
  erewrite bind_Ok by
    first [ apply AddSubMenuItemCheckbox_run | apply AddSubMenuItem_run
          | apply AddSeparator_run | apply systray_AddMenuItem_run
          | apply systray_AddSeparator_run
          | apply onClick_run | apply updItem_run
          | apply setRemoteIcon_run | apply profiles_loop
          | apply emit_run | apply request_run | reflexivity ];
  unfold put;
  cbn [items listeners effects menu localClient newMenuDelay appLogo eventLoops nextCtx
       set_menu set_items set_listeners set_eventLoops set_nextCtx set_effects
       set_appLogo app length alter list_alter setHidden].

Section rebuild_run.

Local Open Scope nat_scope.

Lemma cancel_run (c : option nat) w :
  match c with Some c => cancel c | None => skip end w =
  Ok (tt, mkWorld (localClient w) (newMenuDelay w) (items w) (appLogo w)
            (survivors l_ctx c (listeners w)) (survivors id c (eventLoops w))
            (nextCtx w) (effects w) (menu w)).
Proof. destruct c; [done|]. by destruct w. Qed.

Lemma rebuild_run st status self ip ips w :
  state.status st = Some status → Status.Self status = Some self →
  PeerStatus.TailscaleIPs self = ip :: ips →
  rebuild st w = Ok (tt, rebuilt st status self ip w).
Proof.
  intros Hst Hself Hips. unfold rebuild.
  wstep. erewrite bind_Ok by apply cancel_run.
  cbn [items listeners effects menu localClient newMenuDelay appLogo eventLoops nextCtx].
  do 14 wstep.
  assert (selfEntry st = (item ← systray_AddMenuItem
            ("This Device: " +:+ PeerStatus.HostName self +:+ " (" +:+ ip +:+ ")") "";
            modify (set_menu (set_self (Some item))))) as ->.
  { unfold selfEntry. rewrite Hst, Hself, Hips. done. }
  do 3 wstep.
  match goal with
  | |- (_ ≫= _) ?W = _ => replace W with (headWorld st self ip w)
  end.
  2:{ unfold headWorld, menuHead, headEffects, accountListeners, profileIconEffects,
        set_menu, set_self, set_disconnect, set_connect, set_status, set_eventCancel.
      cbn [items listeners effects menu localClient newMenuDelay appLogo eventLoops nextCtx
           Menu.status Menu.connect Menu.disconnect Menu.self Menu.more Menu.exitNodes
           Menu.quit Menu.eventCancel app].
      rewrite <- !app_assoc. cbn [app].
      f_equal. f_equal. f_equal. cbn [length]. rewrite length_app. cbn [length]. lia. }
  erewrite bind_Ok by (by eapply rebuildExitNodeMenu_run).
  set (HW := headWorld st self ip w).
  do 6 wstep.
  rewrite !alter_at_length.
  rewrite length_app, !length_app. cbn [length].
  unfold modify, set_eventLoops, set_quit, set_more, set_exitNodes, rebuilt.
  subst HW. unfold headWorld.
  cbn [items listeners effects menu localClient newMenuDelay appLogo eventLoops nextCtx
       Menu.status Menu.connect Menu.disconnect Menu.self Menu.more Menu.exitNodes
       Menu.quit Menu.eventCancel].
  rewrite Hst, <- !app_assoc. cbn [app]. reflexivity.
Qed.

End rebuild_run.

(** ** Fetching the state; rebuilds that panic *)

Section fetch.

Local Open Scope nat_scope.

Lemma fetchState_run w :
  fetchState w =
  Ok (fetchedState (localClient w) (effects w),
      put (items w) (listeners w)
          (effects w ++ fetchEffects (localClient w) (effects w)) w).
Proof.
  unfold fetchState, fetchedState, fetchEffects, profileEffects, statusEffects.
  erewrite bind_Ok by apply request_run.
  cbn [items listeners effects localClient put].
  destruct (LocalClient.Status (localClient w) (effects w)) as [s|err].
  - erewrite bind_Ok by reflexivity.
    erewrite bind_Ok by apply request_run.
    cbn [items listeners effects localClient put].
    destruct (LocalClient.ProfileStatus _ _) as [p|err'].
    + erewrite bind_Ok by reflexivity. unfold mret, M_ret, put.
      cbn [items listeners effects localClient newMenuDelay appLogo eventLoops nextCtx menu].
      by rewrite <- ?app_assoc.
    + erewrite bind_Ok by (erewrite bind_Ok by apply emit_run; reflexivity).
      unfold mret, M_ret, put.
      cbn [items listeners effects localClient newMenuDelay appLogo eventLoops nextCtx menu].
      by rewrite <- ?app_assoc.
  - erewrite bind_Ok by (erewrite bind_Ok by apply emit_run; reflexivity).
    erewrite bind_Ok by apply request_run.
    cbn [items listeners effects localClient put].
    rewrite <- !app_assoc. cbn [app].
    destruct (LocalClient.ProfileStatus _ _) as [p|err'].
    + erewrite bind_Ok by reflexivity. unfold mret, M_ret, put.
      cbn [items listeners effects localClient newMenuDelay appLogo eventLoops nextCtx menu].
      by rewrite <- ?app_assoc.
    + erewrite bind_Ok by (erewrite bind_Ok by apply emit_run; reflexivity).
      unfold mret, M_ret, put.
      cbn [items listeners effects localClient newMenuDelay appLogo eventLoops nextCtx menu].
      by rewrite <- ?app_assoc.
Qed.

(** Up to the exit-node menu a rebuild does not read through the status. *)
Lemma rebuild_panics st w :
  match state.status st with
  | None => True
  | Some status => Status.Self status = None
  end →
  rebuild st w = Panic nilDeref.
Proof.
  intros Habsent. unfold rebuild.
  wstep. erewrite bind_Ok by apply cancel_run.
  cbn [items listeners effects menu localClient newMenuDelay appLogo eventLoops nextCtx].
  do 14 wstep.
  assert (selfEntry st = skip) as ->.
  { unfold selfEntry. destruct (state.status st) as [status|]; [|done].
    by rewrite Habsent. }
  do 3 wstep.
  apply bind_Panic.
  destruct (state.status st) as [status|] eqn:Hst.
  - by apply rebuildExitNodeMenu_nil_self with status.
  - by apply rebuildExitNodeMenu_nil_status.
Qed.

End fetch.

Section rebuild_no_ip.

Lemma rebuild_no_ip st status self w :
  state.status st = Some status → Status.Self status = Some self →
  PeerStatus.TailscaleIPs self = [] →
  rebuild st w = Panic indexOutOfRange.
Proof.
  intros Hst Hself Hips. unfold rebuild.
  wstep. erewrite bind_Ok by apply cancel_run.
  cbn [items listeners effects menu localClient newMenuDelay appLogo eventLoops nextCtx].
  do 14 wstep. wstep.
  apply bind_Panic. unfold selfEntry. by rewrite Hst, Hself, Hips.
Qed.

(** The outcome of a rebuild, by what the state holds. *)
Lemma rebuild_cases st w :
  match rebuild st w with
  | Panic _ =>
      match state.status st with
      | None => True
      | Some status =>
          match Status.Self status with
          | None => True
          | Some self => PeerStatus.TailscaleIPs self = []
          end
      end
  | Ok (_, w2) =>
      ∃ status self ip,
        state.status st = Some status ∧ Status.Self status = Some self
        ∧ head (PeerStatus.TailscaleIPs self) = Some ip
        ∧ w2 = rebuilt st status self ip w
  end.
Proof.
  destruct (state.status st) as [status|] eqn:Hst.
  - destruct (Status.Self status) as [self|] eqn:Hself.
    + destruct (PeerStatus.TailscaleIPs self) as [|ip ips] eqn:Hips.
      * by rewrite (rebuild_no_ip st status self).
      * rewrite (rebuild_run st status self ip ips) by done.
        exists status, self, ip. by rewrite Hips.
    + rewrite rebuild_panics; [done|by rewrite Hst].
  - rewrite rebuild_panics; [done|by rewrite Hst].
Qed.

End rebuild_no_ip.

(** C8, on the code. When the status request of a rebuild fails,
    [fetchState] logs the error and returns a state without status; the
    rebuild of that state adds no self entry, and then panics on the nil
    status in [rebuildExitNodeMenu]: the exit-node, settings and quit entries
    are never built. *)
Theorem rebuild_status_absent_panics (w : World) (err : error) :
  LocalClient.Status (localClient w) (effects w) = Failure err →
  ∃ st w1,
    fetchState w = Ok (st, w1)
    ∧ state.status st = None
    ∧ ELog (Error err) ∈ effects w1
    ∧ selfEntry st w1 = Ok (tt, w1)
    ∧ rebuild st w1 = Panic nilDeref
    ∧ (fetchState ≫= rebuild) w = Panic nilDeref.
Proof.
  intros Herr. eexists _, _. split; [apply fetchState_run|].
  assert (state.status (fetchedState (localClient w) (effects w)) = None) as Hnone.
  { unfold fetchedState. by rewrite Herr. }
  split; [done|]. split.
  { cbn [effects put]. unfold fetchEffects, statusEffects. rewrite Herr.
    apply elem_of_app. right. apply elem_of_app. left. right. left. }
  split.
  { unfold selfEntry. rewrite Hnone. apply skip_run. }
  assert (∀ w', rebuild (fetchedState (localClient w) (effects w)) w' = Panic nilDeref)
    as Hpanic.
  { intros w'. apply rebuild_panics. by rewrite Hnone. }
  split; [apply Hpanic|].
  erewrite bind_Ok by apply fetchState_run. apply Hpanic.
Qed.

(** ** The event loop *)

Section event_loop.

Lemma onState_Running_run w :
  onState ipn.Running w =
  (rebuild (fetchedState (localClient w) (effects w)) ≫= λ _,
   setAppIcon connected;;
   m ← gets menu;
   connect ← deref (Menu.connect m);
   SetTitle "Connected" connect;;
   Disable connect;;
   disconnect ← deref (Menu.disconnect m);
   Show disconnect;;
   Enable disconnect)
    (put (items w) (listeners w)
         (effects w ++ fetchEffects (localClient w) (effects w))
         (set_appLogo loading w)).
Proof.
  unfold onState. erewrite bind_Ok by reflexivity.
  erewrite bind_Ok by apply fetchState_run. done.
Qed.


End event_loop.


Section exit_node_command.

Lemma exitNode_command_run id w :
  (if String.eqb id "" then
     log_Print "disable exit node";;
     r ← request (CSetUseExitNode false) (λ lc h, LocalClient.SetUseExitNode lc h false);
     match r with
     | Some err => log_Print ("failed disabling exit node: " +:+ Error err)
     | None => skip
     end
   else
     log_Print ("enable exit node: " +:+ id);;
     let mp := MaskedPrefs.mk false id false true in
     r ← request (CEditPrefs mp) (λ lc h, LocalClient.EditPrefs lc h mp);
     match r with
     | Some err => log_Print ("failed setting exit node: " +:+ Error err)
     | None => skip
     end) w =
  Ok (tt, put (items w) (listeners w)
              (effects w ++ [exitNodeAnnounce id; ECall (exitNodeCommand id)]
               ++ exitNodeFailure (localClient w) (effects w ++ [exitNodeAnnounce id]) id)
              w).
Proof.
  unfold exitNodeAnnounce, exitNodeCommand, exitNodeFailure.
  destruct (String.eqb id "").
  - erewrite bind_Ok by apply emit_run. erewrite bind_Ok by apply request_run.
    cbn [items listeners effects localClient put]. rewrite !put_put.
    destruct (LocalClient.SetUseExitNode _ _ _) as [err|].
    + unfold log_Print. rewrite emit_run. cbn [items listeners effects localClient put].
      by rewrite put_put, <- !app_assoc.
    + rewrite skip_run. cbn [items listeners effects localClient put].
      by rewrite put_put, <- !app_assoc.
  - erewrite bind_Ok by apply emit_run. cbv zeta.
    erewrite bind_Ok by apply request_run.
    cbn [items listeners effects localClient put]. rewrite !put_put.
    destruct (LocalClient.EditPrefs _ _ _) as [err|].
    + unfold log_Print. rewrite emit_run. cbn [items listeners effects localClient put].
      by rewrite put_put, <- !app_assoc.
    + rewrite skip_run. cbn [items listeners effects localClient put].
      by rewrite put_put, <- !app_assoc.
Qed.

End exit_node_command.

(** C6. On the selection of an exit node the event loop first announces and
    issues one daemon command: clearing the exit node when the selected id
    is the zero id, otherwise the masked preference update that sets the id
    and its set-flag. A failure of the command adds a log line and nothing
    else. In both cases the state is then fetched and the menu rebuilt, from
    the same continuation. *)
Theorem onExitNode_spec (id : StableNodeID) (w : World) :
  onExitNode id w =
    (fetchState ≫= rebuild)
      (put (items w) (listeners w)
           (effects w ++ [exitNodeAnnounce id; ECall (exitNodeCommand id)]
            ++ exitNodeFailure (localClient w) (effects w ++ [exitNodeAnnounce id]) id)
           w)
  ∧ List.filter isCall
      ([exitNodeAnnounce id; ECall (exitNodeCommand id)]
       ++ exitNodeFailure (localClient w) (effects w ++ [exitNodeAnnounce id]) id)
    = [ECall (exitNodeCommand id)]
  ∧ (exitNodeCommand id = CSetUseExitNode false ↔ id = "")
  ∧ (id ≠ "" → exitNodeCommand id = CEditPrefs (MaskedPrefs.mk false id false true)).
Proof.
  split; [|split; [|split]].
  - unfold onExitNode. erewrite bind_Ok by apply exitNode_command_run. reflexivity.
  - unfold exitNodeAnnounce, exitNodeFailure.
    destruct (String.eqb id "").
    + by destruct (LocalClient.SetUseExitNode _ _ _).
    + by destruct (LocalClient.EditPrefs _ _ _).
  - unfold exitNodeCommand. destruct (String.eqb id "") eqn:Hid.
    + by apply String.eqb_eq in Hid.
    + apply String.eqb_neq in Hid. split; [done|]. intros ->. done.
  - intros Hid. unfold exitNodeCommand.
    by apply String.eqb_neq in Hid as ->.
Qed.

(** ** The IPN bus watcher *)

Section watcher.

Lemma watchReads_error reads err :
  readError reads = Some err →
  (watchReads reads).2 = InnerReturn (Some (wrapError "ipnbus error: " err)).
Proof.
  induction reads as [|[|[n|e]] reads IH]; simpl; try done.
  by intros [= ->].
Qed.

(** A subscription that ends in an error makes [watchIPNBusInner] return that
    error, wrapped. *)
Lemma watchIPNBusInner_error sub err :
  subscriptionError sub = Some err →
  ∃ prefix, (watchIPNBusInner sub).2 = InnerReturn (Some (wrapError prefix err)).
Proof.
  destruct sub as [reads|e]; simpl.
  - intros Herr. eexists. by apply watchReads_error.
  - intros [= ->]. by eexists.
Qed.

Lemma watchReads_sleepless reads :
  List.filter (isSleep reconnectDelay) (watchReads reads).1 = []
  ∧ List.filter isWatch (watchReads reads).1 = []
  ∧ List.filter isFatal (watchReads reads).1 = [].
Proof.
  induction reads as [|[|[n|e]] reads IH]; simpl; try done.
  destruct (Notify.State n); simpl; done.
Qed.

Lemma watchIPNBusInner_effects sub :
  List.filter (isSleep reconnectDelay) (watchIPNBusInner sub).1 = []
  ∧ length (List.filter isWatch (watchIPNBusInner sub).1) = 1%nat
  ∧ List.filter isFatal (watchIPNBusInner sub).1 = [].
Proof.
  destruct sub as [reads|e]; simpl; [|done].
  destruct (watchReads_sleepless reads) as (Hs & Hw & Hf).
  rewrite !List.filter_app, Hs, Hw, Hf.
  by destruct (watchReads reads).2.
Qed.

End watcher.

(** C7. The watcher retries without bound. A subscription that ends in an
    error (of the subscription or of a read) that is not a cancellation is
    followed by a log line, a sleep of 3 seconds and the next subscription;
    if the error is a cancellation of the context, a log line and a fatal
    exit follow, and nothing after. So over any number of subscriptions that
    fail without cancellation the watcher subscribes and sleeps 3 seconds
    once per failure, never exits, and stands ready to subscribe again. *)
Theorem watchIPNBus_retry :
  (∀ sub subs err,
     subscriptionError sub = Some err → errors_Is_Canceled err = false →
     ∃ err', (watchIPNBusInner sub).2 = InnerReturn (Some err')
       ∧ watchIPNBus (sub :: subs) =
         ((watchIPNBusInner sub).1 ++ [ELog (Error err'); ESleep reconnectDelay]
          ++ (watchIPNBus subs).1, (watchIPNBus subs).2))
  ∧ (∀ sub subs err,
       subscriptionError sub = Some err → errors_Is_Canceled err = true →
       ∃ err', (watchIPNBusInner sub).2 = InnerReturn (Some err')
         ∧ watchIPNBus (sub :: subs) =
           ((watchIPNBusInner sub).1
            ++ [ELog (Error err'); EFatal ("watchIPNBus: " +:+ Error err')], Exited))
  ∧ (∀ subs,
       Forall (λ sub, ∃ err, subscriptionError sub = Some err
                             ∧ errors_Is_Canceled err = false) subs →
       (watchIPNBus subs).2 = Reconnecting
       ∧ length (List.filter isWatch (watchIPNBus subs).1) = length subs
       ∧ length (List.filter (isSleep reconnectDelay) (watchIPNBus subs).1) = length subs
       ∧ List.filter isFatal (watchIPNBus subs).1 = [])
  ∧ reconnectDelay = 3000000000.
Proof.
  assert (∀ sub subs err,
     subscriptionError sub = Some err → errors_Is_Canceled err = false →
     ∃ err', (watchIPNBusInner sub).2 = InnerReturn (Some err')
       ∧ watchIPNBus (sub :: subs) =
         ((watchIPNBusInner sub).1 ++ [ELog (Error err'); ESleep reconnectDelay]
          ++ (watchIPNBus subs).1, (watchIPNBus subs).2)) as Hretry.
  { intros sub subs err Herr Hnc.
    destruct (watchIPNBusInner_error sub err Herr) as (prefix & Hinner).
    eexists. split; [exact Hinner|]. cbn [watchIPNBus]. rewrite Hinner.
    cbn [errors_Is_Canceled]. by rewrite Hnc. }
  split; [exact Hretry|]. split; [|split; [|done]].
  - intros sub subs err Herr Hc.
    destruct (watchIPNBusInner_error sub err Herr) as (prefix & Hinner).
    eexists. split; [exact Hinner|]. cbn [watchIPNBus]. rewrite Hinner.
    cbn [errors_Is_Canceled]. by rewrite Hc.
  - induction 1 as [|sub subs (err & Herr & Hnc) _ IH]; [done|].
    destruct (Hretry sub subs err Herr Hnc) as (err' & _ & ->).
    destruct IH as (Hst & Hw & Hs & Hf).
    destruct (watchIPNBusInner_effects sub) as (Hs' & Hw' & Hf').
    cbn [fst snd]. split; [done|].
    rewrite !List.filter_app, !length_app, Hs', Hw', Hf', Hw, Hs, Hf.
    cbn. rewrite Z.eqb_refl. cbn. done.
Qed.

(** ** The statements at the sample tailnet *)

(** The tailnet exit node [home], offline and in use: its entry is titled
    after its first DNS label, disabled and checked. *)
Lemma tailnet_entries_rendered_witness :
  Menu.status (menu (sample.world (sample.status (Some "n4"))))
    = Some (sample.status (Some "n4"))
  ∧ Status.Self (sample.status (Some "n4")) = Some sample.self
  ∧ ∃ w' k it,
      rebuildExitNodeMenu 0 (sample.world (sample.status (Some "n4"))) = Ok (tt, w')
      ∧ items w' !! k = Some it
      ∧ title it = "home (offline)" ∧ parent it = Some 0%nat
      ∧ disabled it = true ∧ checked it = true
      ∧ exitNodeListener 0 k "n4" ∈ listeners w'.
Proof.
  split; [reflexivity|]. split; [reflexivity|].
  destruct (tailnet_entries_rendered 0 (sample.world (sample.status (Some "n4")))
              (sample.status (Some "n4")) sample.self eq_refl eq_refl)
    as (w' & k & Hrun & Hent).
  assert (filter (λ ps, isTailnetExitNode ps)
            (Status.Peer (sample.status (Some "n4"))) !! 0%nat = Some sample.home)
    as Hn by (vm_compute; reflexivity).
  destruct (Hent 0%nat sample.home Hn)
    as (it & Hit & Hp & _ & _ & _ & Ht & Hd & Hc & Hl).
  rewrite Nat.add_0_r in Hit, Hl.
  exists w', k, it. split; [exact Hrun|]. split; [exact Hit|].
  split; [exact Ht|]. split; [exact Hp|].
  split; [exact (proj2 Hd eq_refl)|]. split; [|exact Hl].
  apply (proj2 Hc). exists (ExitNodeStatus.mk "n4" true). split; reflexivity.
Defined.

(** Sweden has one city: its entry has no child and its click sends the id
    of the Stockholm node. Germany has two: a "Best Available" entry is
    nested under its entry. *)
Lemma country_rendering_witness :
  Menu.status (menu (sample.world (sample.status None))) = Some (sample.status None)
  ∧ Status.Self (sample.status None) = Some sample.self
  ∧ CapMap_Contains sample.self "mullvad" = true
  ∧ ∃ w' se de,
      rebuildExitNodeMenu 0 (sample.world (sample.status None)) = Ok (tt, w')
      ∧ (∃ k it, items w' !! k = Some it
           ∧ title it = countryFlag "SE" +:+ " Sweden"
           ∧ mvCountry.name se = "Sweden"
           ∧ (∀ j sub, items w' !! j = Some sub → parent sub ≠ Some k)
           ∧ exitNodeListener 0 k "n3" ∈ listeners w')
      ∧ (∃ k it j sub, items w' !! k = Some it
           ∧ title it = countryFlag "DE" +:+ " Germany"
           ∧ mvCountry.name de = "Germany"
           ∧ items w' !! j = Some sub ∧ parent sub = Some k
           ∧ title sub = "Best Available").
Proof.
  split; [reflexivity|]. split; [reflexivity|]. split; [by vm_compute|].
  destruct (country_rendering 0 (sample.world (sample.status None))
              (sample.status None) sample.self eq_refl eq_refl)
    as (w' & mp & new & Hrun & Hmp & Hnew & Hall); [by vm_compute|].
  assert (match newMullvadPeers (sample.status None) with
          | Ok mp =>
              match countries mp !! "SE", countries mp !! "DE" with
              | Some se, Some de =>
                  bool_decide (size (mvCountry.cities se) = 1%nat)
                  && bool_decide (size (mvCountry.cities de) = 2%nat)
                  && bool_decide (mvCountry.code se = "SE")
                  && bool_decide (mvCountry.name se = "Sweden")
                  && bool_decide (mvCountry.code de = "DE")
                  && bool_decide (mvCountry.name de = "Germany")
                  && bool_decide (PeerStatus.ID <$>
                       (map_to_list (mvCountry.cities se) ≫= λ y, option_list (mvCity.best y.2))
                       = ["n3"])
              | _, _ => false
              end
          | Panic _ => false
          end = true) as Hcheck by (vm_compute; reflexivity).
  rewrite Hmp in Hcheck.
  destruct (countries mp !! "SE") as [se|] eqn:Hse; [|done].
  destruct (countries mp !! "DE") as [de|] eqn:Hde; [|done].
  apply andb_prop in Hcheck as [Hcheck Hids].
  apply andb_prop in Hcheck as [Hcheck Hdn].
  apply andb_prop in Hcheck as [Hcheck Hdc].
  apply andb_prop in Hcheck as [Hcheck Hsn].
  apply andb_prop in Hcheck as [Hcheck Hsc].
  apply andb_prop in Hcheck as [Hs1 Hs2].
  apply bool_decide_eq_true in Hids, Hdn, Hdc, Hsn, Hsc, Hs1, Hs2.
  exists w', se, de. split; [exact Hrun|]. split.
  - destruct (Hall "SE" se Hse) as (k & it & _ & Hit & Ht & _ & _ & Hone).
    destruct Hone as (Hflat & yc & y & b & Hy & Hb & Hl & _); [done|].
    exists k, it. split; [exact Hit|].
    split; [rewrite Ht, Hsc, Hsn; reflexivity|]. split; [exact Hsn|].
    split.
    + intros j sub Hj. apply (Hflat j sub); [simpl; lia|done].
    + rewrite Hnew. apply elem_of_app. right.
      assert (PeerStatus.ID b = "n3") as <-; [|done].
      assert (PeerStatus.ID b ∈
                PeerStatus.ID <$> (map_to_list (mvCountry.cities se)
                                     ≫= λ y, option_list (mvCity.best y.2))) as Hin.
      { apply list_elem_of_fmap. exists b. split; [done|].
        apply list_elem_of_bind. exists (yc, y). split.
        - simpl. rewrite Hb. by left.
        - by apply elem_of_map_to_list. }
      rewrite Hids in Hin. by apply list_elem_of_singleton in Hin.
  - destruct (Hall "DE" de Hde) as (k & it & _ & Hit & Ht & _ & Hbest & _).
    destruct (proj2 Hbest) as (j & sub & _ & Hj & Hp & Hs).
    { rewrite Hs2. apply Nat.lt_1_2. }
    exists k, it, j, sub. split; [exact Hit|].
    split; [rewrite Ht, Hdc, Hdn; reflexivity|]. split; [exact Hdn|].
    split; [exact Hj|]. split; [exact Hp|exact Hs].
Defined.


(** The first rebuild against a daemon whose status request fails. *)
Lemma rebuild_status_absent_panics_witness :
  LocalClient.Status (localClient (sample.start sample.brokenDaemon))
      (effects (sample.start sample.brokenDaemon))
    = Failure (errorString "tailscaled not running")
  ∧ (fetchState ≫= rebuild) (sample.start sample.brokenDaemon) = Panic nilDeref
  ∧ ∃ st w1, fetchState (sample.start sample.brokenDaemon) = Ok (st, w1)
      ∧ ELog "tailscaled not running" ∈ effects w1.
Proof.
  split; [reflexivity|].
  destruct (rebuild_status_absent_panics (sample.start sample.brokenDaemon)
              (errorString "tailscaled not running") eq_refl)
    as (st & w1 & Hfetch & _ & Hlog & _ & _ & Hpanic).
  split; [exact Hpanic|]. exists st, w1. split; [exact Hfetch|exact Hlog].
Defined.

(** Two failed subscriptions, one refused and one broken after a state
    notification: two subscriptions, two sleeps, no exit. A cancelled
    subscription: a fatal exit, whatever would follow. *)
Lemma watchIPNBus_retry_witness :
  (let subs := [Failure (errorString "connection refused");
                Success [ReadNext (Success (Notify.mk (Some ipn.Running)));
                         ReadNext (Failure (errorString "EOF"))]] in
   (watchIPNBus subs).2 = Reconnecting
   ∧ length (List.filter (isSleep 3000000000) (watchIPNBus subs).1) = 2%nat
   ∧ List.filter isFatal (watchIPNBus subs).1 = [])
  ∧ ∃ es, watchIPNBus [Failure context_Canceled; Failure (errorString "unused")]
          = (es ++ [ELog "watching ipn bus: context canceled";
                    EFatal "watchIPNBus: watching ipn bus: context canceled"], Exited).
Proof.
  destruct watchIPNBus_retry as (_ & Hfatal & Hloop & _).
  split.
  - destruct (Hloop [Failure (errorString "connection refused");
                     Success [ReadNext (Success (Notify.mk (Some ipn.Running)));
                              ReadNext (Failure (errorString "EOF"))]])
      as (Hst & _ & Hs & Hf).
    { repeat constructor; eexists; (split; [reflexivity|reflexivity]). }
    split; [exact Hst|]. split; [exact Hs|exact Hf].
  - destruct (Hfatal (Failure context_Canceled) [Failure (errorString "unused")]
                context_Canceled eq_refl eq_refl) as (err' & Hinner & Hrun).
    injection Hinner as <-. eexists. exact Hrun.
Defined.
(** * Further properties of the code *)

(** ** The outcome of a rebuild *)

(** X1. A rebuild succeeds exactly when the state holds a status whose self
    peer has at least one address. With a status but no self peer it panics
    on a nil pointer ([status.Self.CapMap]); so it does without status; with a
    self peer without address it panics on the index ([TailscaleIPs[0]]),
    before the exit-node menu is built. *)
Theorem rebuild_outcome (st : state.t) (w : World) :
  ((∃ w', rebuild st w = Ok (tt, w')) ↔
   ∃ status self ip, state.status st = Some status ∧ Status.Self status = Some self
                     ∧ head (PeerStatus.TailscaleIPs self) = Some ip)
  ∧ (rebuild st w = Panic nilDeref ↔
     state.status st = None
     ∨ ∃ status, state.status st = Some status ∧ Status.Self status = None)
  ∧ (rebuild st w = Panic indexOutOfRange ↔
     ∃ status self, state.status st = Some status ∧ Status.Self status = Some self
                    ∧ PeerStatus.TailscaleIPs self = []).
Proof.
  destruct (state.status st) as [status|] eqn:Hst.
  - destruct (Status.Self status) as [self|] eqn:Hself.
    + destruct (PeerStatus.TailscaleIPs self) as [|ip ips] eqn:Hips.
      * rewrite (rebuild_no_ip st status self w Hst Hself Hips).
        split; [|split].
        -- split; [by intros (? & ?)|].
           intros (s & p & i & [= <-] & Hp & Hi).
           rewrite Hself in Hp. injection Hp as <-. by rewrite Hips in Hi.
        -- split; [done|]. intros [?|(s & [= <-] & Hp)]; [done|congruence].
        -- split; [|done]. intros _. by exists status, self.
      * rewrite (rebuild_run st status self ip ips w Hst Hself Hips).
        split; [|split].
        -- split; [|by eauto]. intros _. exists status, self, ip. by rewrite Hips.
        -- split; [done|]. intros [?|(s & [= <-] & Hp)]; [done|congruence].
        -- split; [done|]. intros (s & p & [= <-] & Hp & Hi).
           rewrite Hself in Hp. injection Hp as <-. by rewrite Hips in Hi.
    + rewrite rebuild_panics by (by rewrite Hst).
      split; [|split].
      * split; [by intros (? & ?)|]. intros (s & p & i & [= <-] & Hp & _). congruence.
      * split; [|done]. intros _. right. by exists status.
      * split; [done|]. intros (s & p & [= <-] & Hp & _). congruence.
  - rewrite rebuild_panics by (by rewrite Hst).
    split; [|split].
    + split; [by intros (? & ?)|]. by intros (s & p & i & ? & _).
    + split; [|done]. intros _. by left.
    + split; [done|]. by intros (s & p & ? & _).
Qed.
(** ** The menu a rebuild leaves *)

Section rebuilt_menu.

Local Open Scope nat_scope.

Lemma rebuild_Ok_inv st w w' :
  rebuild st w = Ok (tt, w') →
  ∃ status self ip,
    state.status st = Some status ∧ Status.Self status = Some self
    ∧ head (PeerStatus.TailscaleIPs self) = Some ip
    ∧ w' = rebuilt st status self ip w.
Proof.
  intros Hrun. pose proof (rebuild_cases st w) as Hcases.
  rewrite Hrun in Hcases. exact Hcases.
Qed.

Lemma length_menuHead st self ip :
  length (menuHead st self ip) = 6 + length (state.allProfiles st).
Proof. unfold menuHead. rewrite !length_app, length_fmap. simpl. lia. Qed.

Lemma menuHead_self st self ip :
  menuHead st self ip !! (length (menuHead st self ip) - 2) = Some (selfItem self ip).
Proof.
  rewrite length_menuHead. unfold menuHead.
  rewrite lookup_app_r by (simpl; lia).
  rewrite lookup_app_r by (rewrite length_fmap; simpl; lia).
  rewrite length_fmap. cbn [length].
  by replace (6 + length (state.allProfiles st) - 2 - 4 - length (state.allProfiles st))
    with 0 by lia.
Qed.

Lemma length_exitNodeItems_pos e status self os : 0 < length (exitNodeItems e status self os).
Proof. unfold exitNodeItems. rewrite length_app. simpl. lia. Qed.

End rebuilt_menu.

(** X2. After a rebuild every item pointer of the menu is set and points at the
    entry it names: "Connect", the hidden "Disconnect", "This Device" with the
    host name and the first address, "Exit Nodes", "More settings" and
    "Quit"; the menu holds the status of the state. So the [select] of the
    event loop started by the rebuild reads through no nil pointer. *)
Theorem rebuild_menu_pointers (st : state.t) (w w' : World) :
  rebuild st w = Ok (tt, w') →
  Menu.status (menu w') = state.status st
  ∧ (∃ i it, Menu.connect (menu w') = Some i ∧ items w' !! i = Some it
       ∧ title it = "Connect" ∧ hidden it = false ∧ parent it = None)
  ∧ (∃ i it, Menu.disconnect (menu w') = Some i ∧ items w' !! i = Some it
       ∧ title it = "Disconnect" ∧ hidden it = true ∧ parent it = None)
  ∧ (∃ i it status self ip,
       Menu.self (menu w') = Some i ∧ items w' !! i = Some it
       ∧ state.status st = Some status ∧ Status.Self status = Some self
       ∧ head (PeerStatus.TailscaleIPs self) = Some ip
       ∧ title it = "This Device: " +:+ PeerStatus.HostName self +:+ " (" +:+ ip +:+ ")"
       ∧ parent it = None)
  ∧ (∃ i it, Menu.exitNodes (menu w') = Some i ∧ items w' !! i = Some it
       ∧ title it = "Exit Nodes" ∧ parent it = None)
  ∧ (∃ i it, Menu.more (menu w') = Some i ∧ items w' !! i = Some it
       ∧ title it = "More settings" ∧ disabled it = false ∧ parent it = None)
  ∧ (∃ i it, Menu.quit (menu w') = Some i ∧ items w' !! i = Some it
       ∧ title it = "Quit" ∧ tooltip it = "Quit the app" ∧ disabled it = false
       ∧ parent it = None)
  ∧ ∀ dt, eventLoop_iter dt CtxDone w' = Ok (false, w').
Proof.
  intros Hrun.
  destruct (rebuild_Ok_inv st w w' Hrun) as (status & self & ip & Hst & Hself & Hip & ->).
  unfold rebuilt.
  set (hd := menuHead st self ip).
  set (exits := exitNodeItems (length hd) status self _).
  cbn [menu items Menu.status Menu.connect Menu.disconnect Menu.self Menu.exitNodes
       Menu.more Menu.quit].
  assert (6 ≤ length hd)%nat as Hlen by (unfold hd; rewrite length_menuHead; lia).
  split; [done|]. split; [|split; [|split; [|split; [|split; [|split]]]]].
  - exists 0%nat, connectItem. by rewrite lookup_app_l by lia.
  - exists 1%nat, disconnectItem. by rewrite lookup_app_l by lia.
  - exists (length hd - 2)%nat, (selfItem self ip), status, self, ip.
    split; [done|]. split; [|done].
    rewrite lookup_app_l by lia. apply menuHead_self.
  - exists (length hd), exitNodesItem. split; [done|]. split; [|done].
    rewrite lookup_app_r by lia. by rewrite Nat.sub_diag.
  - exists (length hd + length exits)%nat, moreItem. split; [done|]. split; [|done].
    rewrite lookup_app_r by lia. rewrite lookup_app_r by lia.
    by replace (length hd + length exits - length hd - length exits)%nat with 0%nat by lia.
  - exists (length hd + length exits + 1)%nat, quitItem. split; [done|]. split; [|done].
    rewrite lookup_app_r by lia. rewrite lookup_app_r by lia.
    by replace (length hd + length exits + 1 - length hd - length exits)%nat
      with 1%nat by lia.
  - intros dt. reflexivity.
Qed.
Section layout.

Local Open Scope nat_scope.

Lemma exitNodeItems_child e st self os i a :
  exitNodeItems e st self os !! i = Some a → i ≠ 0 → is_Some (parent a).
Proof.
  intros Hi Hne.
  apply exitNodeItems_lookup in Hi
    as [[-> _]|[[_ ->]|[(i' & _ & Hi)|[(i' & _ & Hi)|(i' & _ & Hi)]]]]; [done|by eexists|..].
  - apply recommendedItems_lookup in Hi as (sugg & _ & [[_ ->]|[_ ->]]); by eexists.
  - apply tailnetItems_lookup in Hi as [[_ ->]|[[_ ->]|(n & ps & _ & _ & ->)]]; by eexists.
  - apply mullvadItems_lookup in Hi as [[_ ->]|[[_ ->]|[[_ ->]|(i'' & _ & Hi)]]];
      [by eexists..|].
    apply countryBlocks_lookup in Hi as (n & c & _ & Hcases).
    destruct Hcases as [[_ ->]|[_ [[_ ->]|[[_ ->]|(j & y & _ & _ & ->)]]]]; by eexists.
Qed.

Lemma exitNodeItems_top e st self os :
  filter (λ it, parent it = None) (exitNodeItems e st self os) = [exitNodesItem].
Proof.
  assert (∃ rest, exitNodeItems e st self os = exitNodesItem :: rest) as (rest & Heq)
    by (by eexists).
  rewrite Heq, filter_cons_True by done. f_equal.
  apply filter_nil_not_elem. intros a Ha Hp.
  apply list_elem_of_lookup in Ha as (i & Hi).
  assert (exitNodeItems e st self os !! S i = Some a) as Hi' by (by rewrite Heq).
  apply exitNodeItems_child in Hi'; [|done]. rewrite Hp in Hi'. by destruct Hi'.
Qed.

Lemma menuHead_top st self ip :
  filter (λ it, parent it = None) (menuHead st self ip) =
  [connectItem; disconnectItem; separatorItem None; accountsItem st;
   selfItem self ip; separatorItem None].
Proof.
  unfold menuHead. rewrite !filter_app.
  assert (filter (λ it, parent it = None) (profileItem 3 st <$> state.allProfiles st) = [])
    as ->.
  { apply filter_nil_not_elem. intros a Ha.
    apply list_elem_of_fmap in Ha as (p & -> & _). done. }
  done.
Qed.

Lemma isCall_remoteIcon item url : List.filter isCall (remoteIconEffects item url) = [].
Proof. unfold remoteIconEffects. by destruct (String.eqb url ""). Qed.

Lemma isCall_profileIcons st : List.filter isCall (profileIconEffects st) = [].
Proof.
  unfold profileIconEffects. generalize 4. generalize (state.allProfiles st).
  intros ps. induction ps as [|p ps IH]; intros k; [done|].
  cbn [imap concat]. rewrite List.filter_app, isCall_remoteIcon. cbn [app].
  rewrite <- (IH (S k)). do 2 f_equal. apply imap_ext. intros i x _. simpl.
  f_equal. lia.
Qed.

Lemma isCall_mullvadEffects d st self : List.filter isCall (mullvadEffects d st self) = [].
Proof.
  unfold mullvadEffects. induction (sortedCountries _) as [|c cs IH]; [done|].
  cbn [flat_map]. rewrite List.filter_app, IH. unfold countryEffects.
  by destruct (isSingleCity c).
Qed.

End layout.

(** X3. The top-level entries of a rebuilt menu are, in this order: "Connect",
    "Disconnect", a separator, the account entry, "This Device", a separator,
    "Exit Nodes", "More settings" and "Quit". Every other entry is nested,
    and nothing of the menu before the rebuild is left. *)
Theorem rebuild_top_level (st : state.t) (w w' : World) :
  rebuild st w = Ok (tt, w') →
  ∃ status self ip,
    state.status st = Some status ∧ Status.Self status = Some self
    ∧ head (PeerStatus.TailscaleIPs self) = Some ip
    ∧ filter (λ it, parent it = None) (items w') =
      [connectItem; disconnectItem; separatorItem None; accountsItem st;
       selfItem self ip; separatorItem None; exitNodesItem; moreItem; quitItem].
Proof.
  intros Hrun.
  destruct (rebuild_Ok_inv st w w' Hrun) as (status & self & ip & Hst & Hself & Hip & ->).
  exists status, self, ip. split; [done|]. split; [done|]. split; [done|].
  unfold rebuilt. cbn [items].
  rewrite !filter_app, menuHead_top, exitNodeItems_top. done.
Qed.

(** X4. The only request a rebuild can send to the daemon is the one for an
    exit-node suggestion, sent once, and only when the self peer has the
    capability for it: a rebuild asks neither for the status nor for the
    profiles, and changes no preference. *)
Theorem rebuild_requests (st : state.t) (w w' : World) :
  rebuild st w = Ok (tt, w') →
  ∃ status self new,
    state.status st = Some status ∧ Status.Self status = Some self
    ∧ effects w' = effects w ++ new
    ∧ List.filter isCall new =
      (if CapMap_Contains self NodeAttrSuggestExitNodeUI
       then [ECall CSuggestExitNode] else []).
Proof.
  intros Hrun.
  destruct (rebuild_Ok_inv st w w' Hrun) as (status & self & ip & Hst & Hself & Hip & ->).
  exists status, self. eexists. split; [done|]. split; [done|].
  unfold rebuilt. cbn [effects]. rewrite <- app_assoc. split; [reflexivity|].
  unfold headEffects, exitNodeEffects, recommendedEffects.
  rewrite !List.filter_app, isCall_remoteIcon, isCall_profileIcons, isCall_mullvadEffects.
  cbn. rewrite app_nil_r. by destruct (CapMap_Contains self NodeAttrSuggestExitNodeUI).
Qed.
(** ** Listeners and the shape of the menu *)

Section listeners.

Local Open Scope nat_scope.

Lemma exitNodeItems_recommended e st self os i a :
  recommendedItems e st os !! i = Some a → exitNodeItems e st self os !! (2 + i) = Some a.
Proof.
  intros Hi. unfold exitNodeItems.
  rewrite lookup_app_r by (simpl; lia).
  replace (2 + i - length [exitNodesItem; noneItem e st]) with i by (simpl; lia).
  by apply lookup_app_l_Some.
Qed.

(** Every listener of the exit-node menu belongs to the context of the
    rebuild, reads a checkbox entry of that menu and sends an exit-node id. *)
Lemma exitNodeListeners_elem ctx e st self os l :
  l ∈ exitNodeListeners ctx e st self os →
  l_ctx l = ctx
  ∧ ∃ i it id, l_item l = e + i ∧ i ≠ 0 ∧ exitNodeItems e st self os !! i = Some it
      ∧ isCheckable it = true ∧ isSeparator it = false
      ∧ l_target l = toExitNodeCh id.
Proof.
  unfold exitNodeListeners.
  set (R := length (recommendedItems e st os)).
  set (T := length (tailnetItems e st)).
  intros Hl. apply elem_of_app in Hl as [Hl|Hl].
  { apply list_elem_of_singleton in Hl as ->. split; [done|].
    exists 1, (noneItem e st), "". by repeat split. }
  apply elem_of_app in Hl as [Hl|Hl].
  { unfold recommendedListeners in Hl. destruct os as [sugg|] eqn:Hos;
      [|by apply elem_of_nil in Hl].
    apply list_elem_of_singleton in Hl as ->. split; [done|].
    exists 3, (recommendedItem e st sugg), (ExitNodeSuggestion.ID sugg).
    split; [simpl; lia|]. split; [done|]. split; [|done].
    by apply (exitNodeItems_recommended e st self (Some sugg) 1). }
  apply elem_of_app in Hl as [Hl|Hl].
  { apply tailnetListeners_elem in Hl as (n & ps & Hn & ->). split; [done|].
    exists (2 + R + (2 + n)), (tailnetItem e st ps), (PeerStatus.ID ps).
    split; [simpl; lia|]. split; [lia|]. split; [|done].
    apply exitNodeItems_tailnet. by apply tailnetItems_entry. }
  unfold mullvadListeners in Hl.
  apply countriesListeners_elem in Hl as (n & c & Hc & Hcases).
  set (cs := sortedCountries (mullvadPeersOf st self)) in *.
  destruct Hcases as [[Hs ->]|[Hs [->|(j & y & Hy & ->)]]]; (split; [done|]).
  - exists (2 + R + T + (3 + blockOffset cs n)),
      (countryItem (e + 2 + R + T + 2) st c), (bestID (mvCountry.best c)).
    split; [simpl; lia|]. split; [lia|]. split; [|done].
    apply exitNodeItems_mullvad, mullvadItems_block. by apply countryBlocks_country.
  - exists (2 + R + T + (3 + (blockOffset cs n + 1))),
      (bestAvailableItem (e + 2 + R + T + 3 + blockOffset cs n)),
      (bestID (mvCountry.best c)).
    split; [simpl; lia|]. split; [lia|]. split; [|done].
    apply exitNodeItems_mullvad, mullvadItems_block.
    by apply (countryBlocks_submenu _ _ _ _ n c Hc Hs).
  - exists (2 + R + T + (3 + (blockOffset cs n + 3 + j))),
      (cityItem (e + 2 + R + T + 3 + blockOffset cs n) st y), (bestID (mvCity.best y)).
    split; [simpl; lia|]. split; [lia|]. split; [|done].
    apply exitNodeItems_mullvad, mullvadItems_block.
    by apply (countryBlocks_submenu _ _ _ _ n c Hc Hs).
Qed.

Lemma accountListeners_elem ctx st l :
  l ∈ accountListeners ctx st →
  ∃ n profile, state.allProfiles st !! n = Some profile
    ∧ l = mkListener ctx (4 + n) (toAccountsCh (LoginProfile.ID profile)).
Proof.
  unfold accountListeners. intros [n Hn]%list_elem_of_lookup.
  rewrite list_lookup_imap in Hn.
  destruct (state.allProfiles st !! n) as [p|] eqn:Hp; simplify_eq/=. eauto.
Qed.

Lemma generation_survivors w :
  generation w →
  survivors l_ctx (Menu.eventCancel (menu w)) (listeners w) = []
  ∧ survivors id (Menu.eventCancel (menu w)) (eventLoops w) = [].
Proof.
  unfold generation, survivors.
  destruct (Menu.eventCancel (menu w)) as [c|]; [|by intros [-> ->]].
  intros (-> & Hall & _). split.
  - apply filter_nil_not_elem. intros l Hl Hne. by apply Hne, Hall.
  - rewrite filter_cons_False by (by intros ?). done.
Qed.

Lemma menuHead_profile st self ip n profile :
  state.allProfiles st !! n = Some profile →
  menuHead st self ip !! (4 + n) = Some (profileItem 3 st profile).
Proof.
  intros Hn. unfold menuHead.
  rewrite lookup_app_r by (simpl; lia).
  replace (4 + n - length [connectItem; disconnectItem; separatorItem None; accountsItem st])
    with n by (simpl; lia).
  apply lookup_app_l_Some. by rewrite list_lookup_fmap, Hn.
Qed.

Lemma menuHead_lookup st self ip i a :
  menuHead st self ip !! i = Some a →
  parent a = None
  ∨ ∃ n profile, i = 4 + n ∧ state.allProfiles st !! n = Some profile
                 ∧ a = profileItem 3 st profile.
Proof.
  unfold menuHead. intros Hi.
  apply lookup_app_Some in Hi as [Hi|[Hge Hi]].
  { left. destruct i as [|[|[|[|i]]]]; by simplify_eq/=. }
  apply lookup_app_Some in Hi as [Hi|[Hge' Hi]].
  - right. apply list_lookup_fmap_Some in Hi as (p & -> & Hp).
    exists (i - 4), p. simpl in Hge. split; [lia|]. done.
  - left. destruct (i - _ - _) as [|[|?]]; by simplify_eq/=.
Qed.

End listeners.

(** X5. A rebuild replaces the generation: from a world whose goroutines are
    those of one generation, the rebuilt world holds the goroutines of a
    fresh context only: one event loop, and listeners that all race against
    that context. No listener and no event loop of the menu before is left
    uncancelled. *)
Theorem rebuild_generation (st : state.t) (w w' : World) :
  generation w → rebuild st w = Ok (tt, w') →
  generation w'
  ∧ Menu.eventCancel (menu w') = Some (nextCtx w)
  ∧ nextCtx w' = S (nextCtx w)
  ∧ eventLoops w' = [nextCtx w]
  ∧ (∀ l, l ∈ listeners w' → l_ctx l = nextCtx w ∧ l ∉ listeners w).
Proof.
  intros Hgen Hrun.
  destruct (rebuild_Ok_inv st w w' Hrun) as (status & self & ip & Hst & Hself & Hip & ->).
  destruct (generation_survivors w Hgen) as [Hls Hes].
  assert (∀ l, l ∈ listeners (rebuilt st status self ip w) → l_ctx l = nextCtx w) as Hctx.
  { unfold rebuilt. cbn [listeners]. rewrite Hls. cbn [app]. intros l Hl.
    apply elem_of_app in Hl as [Hl|Hl].
    - by apply accountListeners_elem in Hl as (n & p & _ & ->).
    - by apply exitNodeListeners_elem in Hl as [? _]. }
  assert (eventLoops (rebuilt st status self ip w) = [nextCtx w]) as Hloops.
  { unfold rebuilt. cbn [eventLoops]. by rewrite Hes. }
  split; [|split; [done|split; [done|split; [done|]]]].
  - unfold generation. cbn [rebuilt menu Menu.eventCancel nextCtx].
    split; [done|]. split; [done|]. lia.
  - intros l Hl. split; [by apply Hctx|]. intros Hold.
    apply Hctx in Hl. unfold generation in Hgen.
    destruct (Menu.eventCancel (menu w)) as [c|].
    + destruct Hgen as (_ & Hall & Hlt). apply Hall in Hold. lia.
    + destruct Hgen as [_ Hnil]. rewrite Hnil in Hold. by apply elem_of_nil in Hold.
Qed.

(** X6. The rebuilt menu is a forest in the order of creation, and its listeners
    read entries of it: the parent of an entry was created before the entry
    and is no separator; a listener of the account menu reads an entry
    nested under the account entry; a listener that sends an exit-node id
    reads a checkbox entry below "Exit Nodes". *)
Theorem rebuild_well_formed (st : state.t) (w w' : World) :
  generation w → rebuild st w = Ok (tt, w') →
  (∀ i it p, items w' !! i = Some it → parent it = Some p →
     (p < i)%nat ∧ ∃ pit, items w' !! p = Some pit ∧ isSeparator pit = false)
  ∧ (∀ l, l ∈ listeners w' →
       ∃ it, items w' !! l_item l = Some it ∧ isSeparator it = false
         ∧ match l_target l with
           | toAccountsCh _ => parent it = Some 3%nat
           | toExitNodeCh _ => isCheckable it = true ∧ is_Some (parent it)
           end).
Proof.
  intros Hgen Hrun.
  destruct (rebuild_Ok_inv st w w' Hrun) as (status & self & ip & Hst & Hself & Hip & ->).
  destruct (generation_survivors w Hgen) as [Hls Hes].
  unfold rebuilt. cbn [items listeners]. rewrite Hls. cbn [app].
  set (hd := menuHead st self ip).
  set (os := suggestionAt self _ _).
  set (exits := exitNodeItems (length hd) status self os).
  assert (6 ≤ length hd)%nat as Hlen by (unfold hd; rewrite length_menuHead; lia).
  assert (∀ i it p, (hd ++ exits ++ [moreItem; quitItem]) !! i = Some it →
            parent it = Some p →
            (p < i)%nat
            ∧ ((p = 3%nat)
               ∨ ∃ j pit, p = (length hd + j)%nat ∧ exits !! j = Some pit
                          ∧ isSeparator pit = false)) as Hparent.
  { intros i it p Hi Hp.
    apply lookup_app_Some in Hi as [Hi|[Hge Hi]].
    { apply menuHead_lookup in Hi as [Hnone|(n & pr & -> & _ & ->)]; [congruence|].
      simpl in Hp. injection Hp as <-. split; [lia|by left]. }
    apply lookup_app_Some in Hi as [Hi|[Hge' Hi]].
    2:{ destruct (i - length hd - length exits)%nat as [|[|?]]; by simplify_eq/=. }
    destruct (exitNodeItems_parent _ _ _ _ _ _ _ Hi Hp)
      as [->|[[-> (n & c & Hc & Hin & ->)]|(n & c & Hc & Hs & -> & Hlo & Hhi)]].
    - split.
      + destruct (decide (i - length hd = 0)%nat) as [Hz|Hz]; [|lia].
        rewrite Hz in Hi. by simplify_eq/=.
      + right. exists 0%nat, exitNodesItem. by rewrite Nat.add_0_r.
    - split; [lia|]. right.
      set (R := length (recommendedItems (length hd) status os)) in *.
      set (T := length (tailnetItems (length hd) status)) in *.
      exists (2 + R + T + 2)%nat, (mullvadItem (length hd) status (mullvadPeersOf status self)).
      split; [lia|]. split; [|done].
      apply exitNodeItems_mullvad. eapply mullvadItems_root.
      by eapply list_elem_of_lookup_2.
    - split; [lia|]. right.
      set (R := length (recommendedItems (length hd) status os)) in *.
      set (T := length (tailnetItems (length hd) status)) in *.
      set (cs := sortedCountries (mullvadPeersOf status self)) in *.
      exists (2 + R + T + (3 + blockOffset cs n))%nat,
        (countryItem (length hd + 2 + R + T + 2) status c).
      split; [lia|]. split; [|done].
      apply exitNodeItems_mullvad, mullvadItems_block. by apply countryBlocks_country. }
  split.
  - intros i it p Hi Hp.
    destruct (Hparent i it p Hi Hp) as [Hlt [->|(j & pit & -> & Hj & Hsep)]].
    + split; [done|]. exists (accountsItem st). split; [|done].
      by rewrite lookup_app_l by lia.
    + split; [done|]. exists pit. split; [|done].
      rewrite lookup_app_r by lia.
      replace (length hd + j - length hd)%nat with j by lia.
      by apply lookup_app_l_Some.
  - intros l Hl. apply elem_of_app in Hl as [Hl|Hl].
    + apply accountListeners_elem in Hl as (n & pr & Hn & ->).
      exists (profileItem 3 st pr). cbn [l_item l_target]. split; [|done].
      apply lookup_app_l_Some. by apply menuHead_profile.
    + apply exitNodeListeners_elem in Hl
        as (_ & i & it & id & Hitem & Hne & Hi & Hchk & Hsep & Htarget).
      exists it. rewrite Hitem, Htarget. split; [|split; [done|split; [done|]]].
      * rewrite lookup_app_r by lia.
        replace (length hd + i - length hd)%nat with i by lia.
        by apply lookup_app_l_Some.
      * by eapply exitNodeItems_child.
Qed.
(** ** Generations through the event loop *)

Section keeps.

Lemma quiet_generation f w : quiet f → generation w → generation (f w).
Proof.
  intros Hq. destruct (Hq w) as (Hl & He & Hn & Hc).
  unfold generation. by rewrite Hl, He, Hn, Hc.
Qed.

Lemma keeps_ret {A} (a : A) : keeps (mret a).
Proof. intros w a' w' [= <- <-]. done. Qed.

Lemma keeps_bind {A B} (m : M A) (f : A → M B) :
  keeps m → (∀ a, keeps (f a)) → keeps (m ≫= f).
Proof.
  intros Hm Hf w b w' Hrun Hgen. unfold mbind, M_bind in Hrun.
  destruct (m w) as [[a w1]|] eqn:Hmw; [|done].
  eapply Hf; [done|]. by eapply Hm.
Qed.

Lemma keeps_modify f : quiet f → keeps (modify f).
Proof. intros Hq w a w' [= _ <-] Hgen. by apply quiet_generation. Qed.

Lemma keeps_gets {A} (f : World → A) : keeps (gets f).
Proof. intros w a w' [= <- <-]. done. Qed.

Lemma keeps_deref {A} (p : option A) : keeps (deref p).
Proof. destruct p; [apply keeps_ret|]. by intros w a w' ?. Qed.

Lemma keeps_skip : keeps skip.
Proof. apply keeps_ret. Qed.

Lemma keeps_emit e : keeps (emit e).
Proof. apply keeps_modify. by intros w. Qed.

Lemma keeps_request {A} c (answer : LocalClient.t → list Effect → A) :
  keeps (request c answer).
Proof. intros w a w' [= <- <-] Hgen. done. Qed.

Lemma keeps_updItem f i : keeps (updItem f i).
Proof. apply keeps_modify. by intros w. Qed.

Lemma keeps_setAppIcon l : keeps (setAppIcon l).
Proof. apply keeps_modify. by intros w. Qed.

Lemma keeps_fetchState : keeps fetchState.
Proof.
  intros w a w' Hrun Hgen. rewrite fetchState_run in Hrun.
  injection Hrun as <- <-. done.
Qed.

Lemma rebuilt_generation st status self ip w :
  generation w → generation (rebuilt st status self ip w).
Proof.
  intros Hgen. destruct (generation_survivors w Hgen) as [Hls Hes].
  unfold generation, rebuilt. cbn [menu Menu.eventCancel eventLoops listeners nextCtx].
  rewrite Hls, Hes. cbn [app]. split; [done|]. split; [|lia].
  intros l Hl. apply elem_of_app in Hl as [Hl|Hl].
  - by apply accountListeners_elem in Hl as (n & p & _ & ->).
  - by apply exitNodeListeners_elem in Hl as [? _].
Qed.

Lemma keeps_rebuild st : keeps (rebuild st).
Proof.
  intros w [] w' Hrun Hgen.
  destruct (rebuild_Ok_inv st w w' Hrun) as (status & self & ip & _ & _ & _ & ->).
  by apply rebuilt_generation.
Qed.

Lemma keeps_sendNotification dt title content : keeps (sendNotification dt title content).
Proof.
  unfold sendNotification. apply keeps_bind; [apply keeps_gets|]. intros h.
  destruct (Desktop.dbus_SessionBus dt h); [apply keeps_emit|].
  apply keeps_bind; [apply keeps_emit|]. intros _.
  destruct (Desktop.Notify dt h title content); [apply keeps_emit|apply keeps_skip].
Qed.

Lemma keeps_copyTailscaleIP dt device : keeps (copyTailscaleIP dt device).
Proof.
  unfold copyTailscaleIP. destruct device as [dev|]; [|apply keeps_skip].
  destruct (PeerStatus.TailscaleIPs dev) as [|ip ips]; [apply keeps_skip|].
  cbv zeta. apply keeps_bind; [apply keeps_gets|]. intros h.
  apply keeps_bind; [apply keeps_emit|]. intros _.
  apply keeps_bind; [|intros _; apply keeps_sendNotification].
  destruct (Desktop.clipboard_WriteAll dt h ip); [apply keeps_emit|apply keeps_skip].
Qed.

Lemma keeps_onState s : keeps (onState s).
Proof.
  unfold onState, SetTitle, Disable, Enable, Show, Hide.
  destruct s;
    repeat first
      [ apply keeps_skip | apply keeps_setAppIcon | apply keeps_updItem
      | apply keeps_gets | apply keeps_deref | apply keeps_fetchState
      | apply keeps_rebuild
      | apply keeps_bind; [|intros ?] ].
Qed.

Lemma keeps_onExitNode id : keeps (onExitNode id).
Proof.
  unfold onExitNode, log_Print.
  apply keeps_bind; [|intros _; apply keeps_bind;
                      [apply keeps_fetchState|intros ?; apply keeps_rebuild]].
  destruct (String.eqb id "").
  - apply keeps_bind; [apply keeps_emit|intros _].
    apply keeps_bind; [apply keeps_request|intros [err|]];
      [apply keeps_emit|apply keeps_skip].
  - apply keeps_bind; [apply keeps_emit|intros _]. cbv zeta.
    apply keeps_bind; [apply keeps_request|intros [err|]];
      [apply keeps_emit|apply keeps_skip].
Qed.

Lemma keeps_eventLoop_iter dt ev : keeps (eventLoop_iter dt ev).
Proof.
  unfold eventLoop_iter, log_Print.
  apply keeps_bind; [apply keeps_gets|intros m].
  do 5 (apply keeps_bind; [apply keeps_deref|intros _]).
  destruct ev.
  - apply keeps_ret.
  - apply keeps_bind; [apply keeps_onState|intros _; apply keeps_ret].
  - cbv zeta. apply keeps_bind; [apply keeps_request|intros [err|]]; [|apply keeps_ret].
    apply keeps_bind; [apply keeps_emit|intros _; apply keeps_ret].
  - cbv zeta. apply keeps_bind; [apply keeps_request|intros [err|]]; [|apply keeps_ret].
    apply keeps_bind; [apply keeps_emit|intros _; apply keeps_ret].
  - apply keeps_bind; [apply keeps_gets|intros m'].
    apply keeps_bind; [apply keeps_deref|intros status].
    apply keeps_bind; [apply keeps_copyTailscaleIP|intros _; apply keeps_ret].
  - apply keeps_bind; [apply keeps_emit|intros _; apply keeps_ret].
  - apply keeps_bind; [apply keeps_request|intros [err|]]; [|apply keeps_ret].
    apply keeps_bind; [apply keeps_emit|intros _; apply keeps_ret].
  - apply keeps_bind; [apply keeps_onExitNode|intros _; apply keeps_ret].
  - apply keeps_bind; [apply keeps_emit|intros _; apply keeps_ret].
Qed.

Lemma keeps_eventLoop dt evs : keeps (eventLoop dt evs).
Proof.
  induction evs as [|ev evs IH]; [apply keeps_skip|].
  cbn [eventLoop]. apply keeps_bind; [apply keeps_eventLoop_iter|].
  intros [|]; [apply IH|apply keeps_skip].
Qed.

End keeps.

(** X7. Whatever events the event loop handles, in any order and number
    (state changes, clicks, selections of an account or of an exit node),
    the goroutines stay those of one generation: after them there is one
    event loop whose context is not cancelled, and every listener that is
    not cancelled races against the context of that loop. A selection or a
    state change that rebuilds the menu moves all of them to a new context. *)
Theorem eventLoop_generation (dt : Desktop.t) (evs : list Event) (w w' : World) :
  generation w → is_Some (Menu.eventCancel (menu w)) →
  eventLoop dt evs w = Ok (tt, w') →
  ∃ c, Menu.eventCancel (menu w') = Some c ∧ eventLoops w' = [c]
       ∧ (∀ l, l ∈ listeners w' → l_ctx l = c)
       ∧ (nextCtx w ≤ nextCtx w')%nat.
Proof.
  intros Hgen Hsome Hrun.
  assert (∀ evs w w', eventLoop dt evs w = Ok (tt, w') →
            is_Some (Menu.eventCancel (menu w)) →
            is_Some (Menu.eventCancel (menu w')) ∧ (nextCtx w ≤ nextCtx w')%nat) as Hmono.
  { clear. intros evs. induction evs as [|ev evs IH]; intros w w' Hrun Hsome.
    { injection Hrun as <-. done. }
    cbn [eventLoop] in Hrun. unfold mbind, M_bind in Hrun.
    destruct (eventLoop_iter dt ev w) as [[b w1]|] eqn:Hiter; [|done].
    assert (is_Some (Menu.eventCancel (menu w1)) ∧ (nextCtx w ≤ nextCtx w1)%nat)
      as [Hsome1 Hle1].
    { clear IH Hrun. unfold eventLoop_iter in Hiter.
      unfold mbind, M_bind, gets, deref, mret, M_ret, panic in Hiter.
      destruct (Menu.connect (menu w)); [|done].
      destruct (Menu.disconnect (menu w)); [|done].
      destruct (Menu.self (menu w)); [|done].
      destruct (Menu.more (menu w)); [|done].
      destruct (Menu.quit (menu w)); [|done].
      assert (∀ st w0 w2, rebuild st w0 = Ok (tt, w2) →
                is_Some (Menu.eventCancel (menu w2)) ∧ nextCtx w2 = S (nextCtx w0))
        as Hrebuild.
      { intros st w0 w2 Hr.
        destruct (rebuild_Ok_inv st w0 w2 Hr) as (? & ? & ? & _ & _ & _ & ->).
        split; [by eexists|done]. }
      destruct ev.
      - by simplify_eq.
      - destruct (onState s w) as [[[] w2]|] eqn:Hs; [|done]. injection Hiter as <- <-.
        destruct s; try (injection Hs as <-; done).
        + unfold onState in Hs.
          unfold mbind, M_bind, gets, deref, mret, M_ret, panic in Hs.
          destruct (Menu.connect (menu w)); [|done].
          destruct (Menu.disconnect (menu w)); [|done].
          by injection Hs as <-.
        + unfold onState in Hs.
          unfold mbind, M_bind, gets, deref, mret, M_ret, panic in Hs.
          destruct (Menu.connect (menu w)); [|done].
          destruct (Menu.disconnect (menu w)); [|done].
          by injection Hs as <-.
        + rewrite onState_Running_run in Hs. unfold mbind, M_bind in Hs.
          destruct (rebuild _ _) as [[[] w3]|] eqn:Hr; [|done].
          apply Hrebuild in Hr as [Hsome3 Hn3]. cbn [nextCtx put set_appLogo] in Hn3.
          unfold setAppIcon, gets, deref, SetTitle, Disable, Show, Enable, updItem,
            modify, mret, M_ret, panic in Hs.
          cbn [menu set_appLogo] in Hs.
          destruct (Menu.connect (menu w3)); [|done].
          destruct (Menu.disconnect (menu w3)); [|done].
          injection Hs as <-. cbn [menu nextCtx set_items set_appLogo]. split; [done|lia].
      - cbv zeta in Hiter. unfold request in Hiter.
        destruct (LocalClient.EditPrefs _ _ _); by injection Hiter as <- <-.
      - cbv zeta in Hiter. unfold request in Hiter.
        destruct (LocalClient.EditPrefs _ _ _); by injection Hiter as <- <-.
      - destruct (Menu.status (menu w)) as [status|]; [|done].
        destruct (copyTailscaleIP dt (Status.Self status) w) as [[[] w2]|] eqn:Hcopy;
          [|done].
        injection Hiter as <- <-.
        unfold copyTailscaleIP in Hcopy.
        destruct (Status.Self status) as [dev|]; [|by injection Hcopy as <-].
        destruct (PeerStatus.TailscaleIPs dev) as [|ip ips]; [by injection Hcopy as <-|].
        cbv zeta in Hcopy.
        unfold sendNotification, mbind, M_bind, gets, emit, log_Print, emit, modify, skip,
          mret, M_ret in Hcopy.
        cbn [effects set_effects] in Hcopy.
        destruct (Desktop.clipboard_WriteAll dt _ ip);
          cbn [effects set_effects] in Hcopy;
          destruct (Desktop.dbus_SessionBus dt _);
          try destruct (Desktop.Notify dt _ _ _);
          by injection Hcopy as <-.
      - by injection Hiter as <- <-.
      - unfold request in Hiter.
        destruct (LocalClient.SwitchProfile _ _ _); by injection Hiter as <- <-.
      - destruct (onExitNode id w) as [[[] w2]|] eqn:Hx; [|done]. injection Hiter as <- <-.
        unfold onExitNode in Hx.
        erewrite bind_Ok in Hx by apply exitNode_command_run.
        erewrite bind_Ok in Hx by apply fetchState_run.
        apply Hrebuild in Hx as [Hsome2 Hn2]. cbn [nextCtx put] in Hn2.
        split; [done|lia].
      - by injection Hiter as <- <-. }
    destruct b.
    + destruct (IH w1 w' Hrun Hsome1) as [? ?]. split; [done|lia].
    + injection Hrun as <-. done. }
  destruct (Hmono evs w w' Hrun Hsome) as [[c Hc] Hle].
  pose proof (keeps_eventLoop dt evs w tt w' Hrun Hgen) as Hgen'.
  unfold generation in Hgen'. rewrite Hc in Hgen'. destruct Hgen' as (Hloops & Hall & _).
  exists c. done.
Qed.
(** ** The account menu *)

Section accounts.

Local Open Scope nat_scope.

Lemma profileTitle_empty profile :
  profileTitle profile = "" ↔
  LoginProfile.Name profile = "" ∧ LoginProfile.DomainName profile = "".
Proof.
  unfold profileTitle. cbv zeta.
  destruct (String.eqb (LoginProfile.DomainName profile) "") eqn:Hd; simpl.
  - apply String.eqb_eq in Hd. naive_solver.
  - apply String.eqb_neq in Hd. split; [|naive_solver].
    intros Happ. by destruct (LoginProfile.Name profile).
Qed.

Lemma elem_of_concat {A} (x : A) (ls : list (list A)) :
  x ∈ concat ls ↔ ∃ l, x ∈ l ∧ l ∈ ls.
Proof.
  rewrite list_elem_of_In, in_concat. setoid_rewrite list_elem_of_In. naive_solver.
Qed.

Lemma remoteIcon_profile st n profile :
  state.allProfiles st !! n = Some profile →
  LoginProfile.ProfilePicURL profile ≠ "" →
  ERemoteIcon (4 + n) (LoginProfile.ProfilePicURL profile) ∈ profileIconEffects st.
Proof.
  intros Hn Hurl. unfold profileIconEffects.
  apply elem_of_concat. exists (remoteIconEffects (4 + n) (LoginProfile.ProfilePicURL profile)).
  split.
  - unfold remoteIconEffects. apply String.eqb_neq in Hurl. rewrite Hurl. left.
  - apply list_elem_of_lookup. exists n. by rewrite list_lookup_imap, Hn.
Qed.

End accounts.

(** X8. The account menu of a rebuilt menu. The fourth top-level entry is titled
    after the current profile (its name, and its domain on a second line), or
    "Account" when both are empty. Its children are the profiles of the
    state, one entry each in the order of the state and nothing else; the
    entry of a profile is a checked checkbox iff the profile has the id of the
    current one, and its listener sends the id of the profile; the picture of
    a profile is requested iff its URL is not empty. *)
Theorem accounts_rendered (st : state.t) (w w' : World) :
  rebuild st w = Ok (tt, w') →
  (∃ acc, items w' !! 3%nat = Some acc ∧ parent acc = None
     ∧ title acc = (if bool_decide (LoginProfile.Name (state.curProfile st) = ""
                                    ∧ LoginProfile.DomainName (state.curProfile st) = "")
                    then "Account" else profileTitle (state.curProfile st)))
  ∧ (∀ n profile, state.allProfiles st !! n = Some profile →
       ∃ it, items w' !! (4 + n)%nat = Some it
         ∧ title it = profileTitle profile ∧ parent it = Some 3%nat
         ∧ (isCheckable it = true ↔
            LoginProfile.ID profile = LoginProfile.ID (state.curProfile st))
         ∧ (checked it = true ↔
            LoginProfile.ID profile = LoginProfile.ID (state.curProfile st))
         ∧ mkListener (nextCtx w) (4 + n) (toAccountsCh (LoginProfile.ID profile))
           ∈ listeners w'
         ∧ (ERemoteIcon (4 + n) (LoginProfile.ProfilePicURL profile) ∈ effects w'
            ↔ (LoginProfile.ProfilePicURL profile ≠ ""
               ∨ ERemoteIcon (4 + n) (LoginProfile.ProfilePicURL profile) ∈ effects w)))
  ∧ (∀ i it, items w' !! i = Some it → parent it = Some 3%nat →
       ∃ n profile, i = (4 + n)%nat ∧ state.allProfiles st !! n = Some profile).
Proof.
  intros Hrun.
  destruct (rebuild_Ok_inv st w w' Hrun) as (status & self & ip & Hst & Hself & Hip & ->).
  unfold rebuilt. cbn [items listeners effects].
  set (hd := menuHead st self ip).
  set (os := suggestionAt self _ _).
  set (exits := exitNodeItems (length hd) status self os).
  assert (6 ≤ length hd)%nat as Hlen by (unfold hd; rewrite length_menuHead; lia).
  split; [|split].
  - exists (accountsItem st). split; [by rewrite lookup_app_l by lia|]. split; [done|].
    unfold accountsItem. cbn [title].
    destruct (String.eqb (profileTitle (state.curProfile st)) "") eqn:Ht; simpl.
    + apply String.eqb_eq, profileTitle_empty in Ht. by rewrite bool_decide_eq_true_2.
    + apply String.eqb_neq in Ht. rewrite bool_decide_eq_false_2; [done|].
      by rewrite <- profileTitle_empty.
  - intros n profile Hn. exists (profileItem 3 st profile).
    split; [by apply lookup_app_l_Some, menuHead_profile|].
    split; [done|]. split; [done|].
    unfold profileItem, isCurrent. cbn [isCheckable checked].
    split; [apply String.eqb_eq|]. split; [apply String.eqb_eq|]. split.
    + apply elem_of_app. right. apply elem_of_app. left.
      apply list_elem_of_lookup. exists n. unfold accountListeners.
      by rewrite list_lookup_imap, Hn.
    + split.
      * intros Hin. destruct (decide (LoginProfile.ProfilePicURL profile = ""));
          [|by left].
        right. rewrite !elem_of_app in Hin.
        destruct Hin as [[Hin|Hin]|Hin]; [done|..].
        -- unfold headEffects in Hin. rewrite !elem_of_app in Hin.
           destruct Hin as [Hin|[Hin|Hin]].
           ++ unfold remoteIconEffects in Hin.
              destruct (String.eqb _ ""); [by apply elem_of_nil in Hin|].
              apply list_elem_of_singleton in Hin. injection Hin as ? ?. lia.
           ++ by apply list_elem_of_singleton in Hin.
           ++ unfold profileIconEffects in Hin.
              apply elem_of_concat in Hin as (l & Hin & Hl).
              apply list_elem_of_lookup in Hl as (k & Hk).
              rewrite list_lookup_imap in Hk.
              destruct (state.allProfiles st !! k) as [q|]; simplify_eq/=.
              unfold remoteIconEffects in Hin.
              destruct (String.eqb (LoginProfile.ProfilePicURL q) "") eqn:Hq;
                [by apply elem_of_nil in Hin|].
              apply list_elem_of_singleton in Hin. injection Hin as _ Hurl.
              apply String.eqb_neq in Hq. congruence.
        -- exfalso. unfold exitNodeEffects in Hin. rewrite !elem_of_app in Hin.
           destruct Hin as [Hin|[Hin|Hin]].
           ++ by apply list_elem_of_singleton in Hin.
           ++ unfold recommendedEffects in Hin.
              destruct (CapMap_Contains self NodeAttrSuggestExitNodeUI);
                [by apply list_elem_of_singleton in Hin|by apply elem_of_nil in Hin].
           ++ unfold mullvadEffects in Hin. apply list_elem_of_In, in_flat_map in Hin
                as (c & _ & Hin).
              unfold countryEffects in Hin. destruct (isSingleCity c); [done|].
              by destruct Hin.
      * intros [Hurl|Hold].
        -- apply elem_of_app. left. apply elem_of_app. right.
           unfold headEffects. rewrite !elem_of_app. right. right.
           by apply remoteIcon_profile.
        -- apply elem_of_app. left. apply elem_of_app. by left.
  - intros i it Hi Hp.
    apply lookup_app_Some in Hi as [Hi|[Hge Hi]].
    { apply menuHead_lookup in Hi as [Hnone|(n & pr & -> & Hn & ->)]; [congruence|eauto]. }
    exfalso.
    apply lookup_app_Some in Hi as [Hi|[Hge' Hi]].
    2:{ destruct (i - length hd - length exits)%nat as [|[|?]]; by simplify_eq/=. }
    destruct (exitNodeItems_parent _ _ _ _ _ _ _ Hi Hp)
      as [?|[[? _]|(n & c & _ & _ & ? & _)]]; lia.
Qed.
(** ** The sections of the exit-node menu *)

Section sections_present.

Local Open Scope nat_scope.

Lemma groupInv_empty l m :
  groupInv l m → (m = ∅ ↔ ∀ p, p ∈ l → ¬ qualifies p).
Proof.
  intros Hinv. split.
  - intros -> p Hp [Hopt [loc Hloc]]%qualifies_loc.
    specialize (Hinv (Location.CountryCode loc)). rewrite lookup_empty in Hinv.
    simpl in Hinv. rewrite filter_nil_not_elem in Hinv. apply (Hinv p Hp).
    apply inCountry_loc. eauto.
  - intros Hnone. apply map_eq. intros cc. rewrite lookup_empty.
    destruct (m !! cc) as [c|] eqn:Hc; [|done].
    destruct (groupInv_country _ _ _ _ Hinv Hc) as (Hne & _).
    destruct (filter (λ p, inCountry cc p) l) as [|p F] eqn:HF; [done|].
    assert (p ∈ filter (λ p, inCountry cc p) l) as Hp by (rewrite HF; left).
    apply list_elem_of_filter in Hp as [Hin Hp].
    destruct (Hnone p Hp). apply inCountry_loc in Hin as (? & loc & ? & _).
    apply qualifies_loc. eauto.
Qed.

Lemma existsb_false_iff {A} (f : A → bool) (l : list A) :
  existsb f l = false ↔ ∀ x, x ∈ l → f x = false.
Proof.
  induction l as [|x l IH]; simpl.
  - split; [|done]. intros _ x Hx. by apply elem_of_nil in Hx.
  - rewrite orb_false_iff, IH. split.
    + intros [Hx Hl] y [->|Hy]%elem_of_cons; auto.
    + intros Hall. split; [apply Hall; left|]. intros y Hy. apply Hall. by right.
Qed.

Lemma tailnetExitNodes_nil st :
  tailnetExitNodes st = [] ↔ existsb isTailnetExitNode (Status.Peer st) = false.
Proof.
  unfold tailnetExitNodes. rewrite filter_nil_not_elem, existsb_false_iff.
  split; intros Hall p Hp; specialize (Hall p Hp).
  - destruct (isTailnetExitNode p); [by destruct Hall|done].
  - rewrite Hall. by intros [].
Qed.

Lemma mullvadPeersOf_empty st self :
  countries (mullvadPeersOf st self) = ∅ ↔
  CapMap_Contains self "mullvad" && existsb qualifies (Status.Peer st) = false.
Proof.
  unfold mullvadPeersOf.
  destruct (CapMap_Contains self "mullvad"); [|done]. simpl.
  destruct (newMullvadPeers_inv st) as (mp & -> & Hinv).
  rewrite (groupInv_empty _ _ Hinv), existsb_false_iff.
  split; intros Hall p Hp; specialize (Hall p Hp).
  - destruct (qualifies p); [by destruct Hall|done].
  - rewrite Hall. by intros [].
Qed.

Lemma countryBlocks_no_header e m base st cs :
  e < base →
  filter (isHeaderOf e) (countryBlocks m base st cs) = []
  ∧ filter (isSeparatorOf e) (countryBlocks m base st cs) = [].
Proof.
  intros Hlt. split; apply filter_nil_not_elem; intros a Ha;
    apply list_elem_of_lookup in Ha as (i & Hi);
    apply countryBlocks_lookup in Hi as (n & c & _ & Hcases);
    destruct Hcases as [[_ ->]|[_ [[_ ->]|[[_ ->]|(j & y & _ & _ & ->)]]]];
    unfold isHeaderOf, isSeparatorOf; simpl; try naive_solver.
  intros [_ [= Heq]]. lia.
Qed.

Lemma tailnetItems_headers e st :
  filter (isHeaderOf e) (tailnetItems e st)
  = (if hasTailnetSection st then [headerItem e "Tailnet Exit Nodes"] else [])
  ∧ length (filter (isSeparatorOf e) (tailnetItems e st)) = Nat.b2n (hasTailnetSection st).
Proof.
  unfold tailnetItems, hasTailnetSection.
  destruct (tailnetExitNodes st) as [|ps F] eqn:HF.
  { apply tailnetExitNodes_nil in HF. by rewrite HF. }
  assert (existsb isTailnetExitNode (Status.Peer st) = true) as ->.
  { apply not_false_is_true. intros Hf. apply tailnetExitNodes_nil in Hf. congruence. }
  generalize (ps :: F). intros l.
  assert (filter (isHeaderOf e) (tailnetItem e st <$> l) = []
          ∧ filter (isSeparatorOf e) (tailnetItem e st <$> l) = []) as [Hh Hs].
  { split; apply filter_nil_not_elem; intros a (p & -> & _)%list_elem_of_fmap;
      unfold isHeaderOf, isSeparatorOf; simpl; naive_solver. }
  rewrite filter_cons_False by (unfold isHeaderOf; simpl; naive_solver).
  rewrite filter_cons_True by done.
  rewrite (filter_cons_True (isSeparatorOf e)) by done.
  rewrite (filter_cons_False (isSeparatorOf e)) by (unfold isSeparatorOf; simpl; naive_solver).
  by rewrite Hh, Hs.
Qed.

Lemma mullvadItems_headers e k st self :
  e < k →
  filter (isHeaderOf e) (mullvadItems e k st self)
  = (if hasMullvadSection st self then [headerItem e "Location-based Exit Nodes"] else [])
  ∧ length (filter (isSeparatorOf e) (mullvadItems e k st self))
    = Nat.b2n (hasMullvadSection st self).
Proof.
  intros Hlt. unfold mullvadItems, hasMullvadSection. cbv zeta.
  destruct (0 <? Z.of_nat (size (countries (mullvadPeersOf st self))))%Z eqn:Hsize.
  - assert (CapMap_Contains self "mullvad" && existsb qualifies (Status.Peer st) = true)
      as ->.
    { apply not_false_is_true. intros Hf. apply mullvadPeersOf_empty in Hf.
      rewrite Hf, map_size_empty in Hsize. done. }
    destruct (countryBlocks_no_header e (k + 2) (k + 3) st
                (sortedCountries (mullvadPeersOf st self))) as [Hh Hs]; [lia|].
    rewrite filter_cons_False by (unfold isHeaderOf; simpl; naive_solver).
    rewrite filter_cons_True by done.
    rewrite filter_cons_False by (unfold isHeaderOf; simpl; naive_solver).
    rewrite (filter_cons_True (isSeparatorOf e)) by done.
    rewrite (filter_cons_False (isSeparatorOf e)) by (unfold isSeparatorOf; simpl; naive_solver).
    rewrite (filter_cons_False (isSeparatorOf e)) by (unfold isSeparatorOf; simpl; naive_solver).
    by rewrite Hh, Hs.
  - assert (CapMap_Contains self "mullvad" && existsb qualifies (Status.Peer st) = false)
      as ->; [|done].
    apply mullvadPeersOf_empty. apply map_size_empty_inv.
    apply Z.ltb_ge in Hsize. lia.
Qed.

End sections_present.

(** X10. The exit-node menu is "Exit Nodes" and "None", followed by up to three
    sections, each introduced by a separator: the recommended node, present
    iff the self peer has the capability for suggestions and the daemon
    gives one; the tailnet exit nodes, under the header "Tailnet Exit Nodes",
    present iff some peer is an exit-node option without location; the
    location-based exit nodes, under the header "Location-based Exit Nodes",
    present iff the self peer has the "mullvad" capability and some peer is
    an exit-node option with a location. *)
Theorem exit_node_sections (ctx : nat) (w : World) (st : Status.t) (self : PeerStatus.t) :
  Menu.status (menu w) = Some st → Status.Self st = Some self →
  ∃ w' new,
    rebuildExitNodeMenu ctx w = Ok (tt, w')
    ∧ items w' = items w ++ new
    ∧ (∃ none rest, new = exitNodesItem :: none :: rest ∧ title none = "None")
    ∧ filter (isHeaderOf (length (items w))) new
      = (if hasTailnetSection st
         then [headerItem (length (items w)) "Tailnet Exit Nodes"] else [])
        ++ (if hasMullvadSection st self
            then [headerItem (length (items w)) "Location-based Exit Nodes"] else [])
    ∧ length (filter (isSeparatorOf (length (items w))) new)
      = (Nat.b2n (bool_decide
                    (is_Some (suggestionAt self (localClient w)
                                (effects w ++ [ESleep (newMenuDelay w)]))))
         + Nat.b2n (hasTailnetSection st) + Nat.b2n (hasMullvadSection st self))%nat
    ∧ (is_Some (suggestionAt self (localClient w) (effects w ++ [ESleep (newMenuDelay w)]))
       ↔ CapMap_Contains self NodeAttrSuggestExitNodeUI = true
         ∧ ∃ sugg, LocalClient.SuggestExitNode (localClient w)
                     (effects w ++ [ESleep (newMenuDelay w)]) = Success sugg).
Proof.
  intros Hst Hself.
  set (e := length (items w)).
  set (os := suggestionAt self (localClient w) (effects w ++ [ESleep (newMenuDelay w)])).
  exists (set_menu (set_exitNodes (Some e))
            (put (items w ++ exitNodeItems e st self os)
                 (listeners w ++ exitNodeListeners ctx e st self os)
                 (effects w ++ exitNodeEffects (newMenuDelay w) st self) w)),
    (exitNodeItems e st self os).
  split; [by apply rebuildExitNodeMenu_run|]. split; [done|].
  split; [by eexists _, _|].
  unfold exitNodeItems.
  set (R := length (recommendedItems e st os)).
  set (T := length (tailnetItems e st)).
  destruct (tailnetItems_headers e st) as [Hth Hts].
  destruct (mullvadItems_headers e (e + 2 + R + T) st self) as [Hmh Hms]; [lia|].
  rewrite !filter_app, Hth, Hmh, !length_app, Hts, Hms.
  assert (filter (isHeaderOf e) (recommendedItems e st os) = []
          ∧ length (filter (isSeparatorOf e) (recommendedItems e st os))
            = Nat.b2n (bool_decide (is_Some os))) as [-> ->].
  { unfold recommendedItems. destruct os as [sugg|]; [|done].
    rewrite filter_cons_False by (unfold isHeaderOf; simpl; naive_solver).
    rewrite filter_cons_False by (unfold isHeaderOf; simpl; naive_solver).
    rewrite (filter_cons_True (isSeparatorOf e)) by done.
    rewrite (filter_cons_False (isSeparatorOf e)) by (unfold isSeparatorOf; simpl; naive_solver).
    done. }
  split; [done|]. split.
  { rewrite !filter_cons_False by (unfold isSeparatorOf; simpl; naive_solver).
    cbn [filter list_filter length]. lia. }
  unfold os, suggestionAt.
  destruct (CapMap_Contains self NodeAttrSuggestExitNodeUI).
  - destruct (LocalClient.SuggestExitNode _ _) as [sugg|err].
    + split; [eauto|by eexists].
    + split; [by intros [? ?]|]. by intros [_ [? ?]].
  - split; [by intros [? ?]|]. by intros [? _].
Qed.
(** ** Clicks *)

Section clicks.

Lemma string_app_assoc (s1 s2 s3 : string) : (s1 +:+ s2) +:+ s3 = s1 +:+ (s2 +:+ s3).
Proof.
  unfold String.app. induction s1 as [|c s1 IH]; [done|]. simpl. by rewrite IH.
Qed.

Lemma select_run dt ev w :
  pointersSet (menu w) →
  eventLoop_iter dt ev w =
  match ev with
  | CtxDone => mret false
  | StateChange s => onState s;; mret true
  | ConnectClicked =>
      let mp := MaskedPrefs.mk true "" true false in
      r ← request (CEditPrefs mp) (λ lc h, LocalClient.EditPrefs lc h mp);
      match r with
      | Some err => log_Print (Error err);; mret true
      | None => mret true
      end
  | DisconnectClicked =>
      let mp := MaskedPrefs.mk false "" true false in
      r ← request (CEditPrefs mp) (λ lc h, LocalClient.EditPrefs lc h mp);
      match r with
      | Some err => log_Print ("disconnecting: " +:+ Error err);; mret true
      | None => mret true
      end
  | SelfClicked =>
      m ← gets menu;
      status ← deref (Menu.status m);
      copyTailscaleIP dt (Status.Self status);;
      mret true
  | MoreClicked => emit (EOpenBrowser "http://100.100.100.100/");; mret true
  | AccountSelected id =>
      r ← request (CSwitchProfile id) (λ lc h, LocalClient.SwitchProfile lc h id);
      match r with
      | Some err =>
          log_Print ("failed switching to profile ID " +:+ id +:+ ": " +:+ Error err);;
          mret true
      | None => mret true
      end
  | ExitNodeSelected id => onExitNode id;; mret true
  | QuitClicked => emit EQuit;; mret true
  end w.
Proof.
  intros ([c Hc] & [d Hd] & [s Hs] & [m Hm] & [q Hq]).
  unfold eventLoop_iter. erewrite bind_Ok by reflexivity.
  rewrite Hc, Hd, Hs, Hm, Hq. reflexivity.
Qed.

Lemma select_nil dt ev w : ¬ pointersSet (menu w) → eventLoop_iter dt ev w = Panic nilDeref.
Proof.
  intros Hnil. unfold eventLoop_iter. erewrite bind_Ok by reflexivity.
  unfold pointersSet in Hnil.
  destruct (Menu.connect (menu w)); [|done].
  destruct (Menu.disconnect (menu w)); [|done].
  destruct (Menu.self (menu w)); [|done].
  destruct (Menu.more (menu w)); [|done].
  destruct (Menu.quit (menu w)); [|done].
  destruct Hnil. by repeat split.
Qed.



End clicks.

(** X11. A click on "Connect", "Disconnect", "More settings" or "Quit", and the
    selection of an account, each do one thing and leave the menu, its
    entries, the listeners and the icon as they are: the menu changes only
    when the daemon reports a state, or after the selection of an exit node.
    "Connect" and "Disconnect" ask for the preference [WantRunning] to be
    set to true and to false; the selection of an account asks for the switch
    to the profile; a failure is logged, with its own prefix, and the loop
    goes on; "More settings" opens the web interface and "Quit" quits. *)
Theorem click_commands (dt : Desktop.t) (w : World) :
  pointersSet (menu w) →
  eventLoop_iter dt ConnectClicked w =
    Ok (true, put (items w) (listeners w)
                  (effects w ++ ECall (CEditPrefs (wantRunning true))
                   :: failureLog "" (LocalClient.EditPrefs (localClient w) (effects w)
                                       (wantRunning true))) w)
  ∧ eventLoop_iter dt DisconnectClicked w =
    Ok (true, put (items w) (listeners w)
                  (effects w ++ ECall (CEditPrefs (wantRunning false))
                   :: failureLog "disconnecting: "
                        (LocalClient.EditPrefs (localClient w) (effects w)
                           (wantRunning false))) w)
  ∧ (∀ id, eventLoop_iter dt (AccountSelected id) w =
    Ok (true, put (items w) (listeners w)
                  (effects w ++ ECall (CSwitchProfile id)
                   :: failureLog ("failed switching to profile ID " +:+ id +:+ ": ")
                        (LocalClient.SwitchProfile (localClient w) (effects w) id)) w))
  ∧ eventLoop_iter dt MoreClicked w =
    Ok (true, put (items w) (listeners w)
                  (effects w ++ [EOpenBrowser "http://100.100.100.100/"]) w)
  ∧ eventLoop_iter dt QuitClicked w =
    Ok (true, put (items w) (listeners w) (effects w ++ [EQuit]) w)
  ∧ eventLoop_iter dt CtxDone w = Ok (false, w).
Proof.
  intros Hset. rewrite !(select_run dt _ w Hset).
  split; [|split; [|split; [|split; [|split]]]].
  - cbv zeta. erewrite bind_Ok by apply request_run. unfold wantRunning, failureLog.
    cbn [localClient effects put].
    destruct (LocalClient.EditPrefs _ _ _) as [err|]; [|done].
    erewrite bind_Ok by apply emit_run. cbn [items listeners effects put].
    by rewrite put_put, <- app_assoc.
  - cbv zeta. erewrite bind_Ok by apply request_run. unfold wantRunning, failureLog.
    cbn [localClient effects put].
    destruct (LocalClient.EditPrefs _ _ _) as [err|]; [|done].
    erewrite bind_Ok by apply emit_run. cbn [items listeners effects put].
    by rewrite put_put, <- app_assoc.
  - intros id. rewrite (select_run dt _ w Hset).
    erewrite bind_Ok by apply request_run. unfold failureLog.
    cbn [localClient effects put].
    destruct (LocalClient.SwitchProfile _ _ _) as [err|]; [|done].
    erewrite bind_Ok by apply emit_run. cbn [items listeners effects put].
    rewrite put_put, <- app_assoc. cbn [app]. do 6 f_equal.
    by rewrite !string_app_assoc.
  - by erewrite bind_Ok by apply emit_run.
  - by erewrite bind_Ok by apply emit_run.
  - done.
Qed.

(** ** The event loop as a whole *)

(** X13. The event loop handles its events one after the other and returns when
    it finds its context done: what follows in the queue is not handled by
    this loop. Entering the [select] reads through the five item pointers:
    if one of them is nil the loop panics whatever the event. *)
Theorem eventLoop_stops (dt : Desktop.t) (evs1 evs2 : list Event) (w : World) :
  (CtxDone ∉ evs1 →
   eventLoop dt (evs1 ++ evs2) w = (eventLoop dt evs1 ≫= λ _, eventLoop dt evs2) w)
  ∧ eventLoop dt (evs1 ++ CtxDone :: evs2) w = eventLoop dt (evs1 ++ [CtxDone]) w
  ∧ (¬ pointersSet (menu w) → ∀ ev, eventLoop dt (ev :: evs2) w = Panic nilDeref).
Proof.
  split; [|split].
  - revert w. induction evs1 as [|ev evs1 IH]; intros w Hnot; [done|].
    apply not_elem_of_cons in Hnot as [Hne Hnot].
    cbn [app eventLoop]. unfold mbind, M_bind.
    destruct (eventLoop_iter dt ev w) as [[b w1]|] eqn:Hiter; [|done].
    destruct b; [by rewrite IH|].
    exfalso. destruct (decide (pointersSet (menu w))) as [Hset|Hnil].
    + rewrite (select_run dt ev w Hset) in Hiter.
      unfold mbind, M_bind in Hiter.
      destruct ev; try done;
        repeat match type of Hiter with
               | context [match ?m with Ok _ => _ | Panic _ => _ end] =>
                   destruct m as [[? ?]|]; [|done]
               | context [match ?r with Some _ => _ | None => _ end] =>
                   destruct r; unfold mbind, M_bind in Hiter
               end; done.
    + by rewrite (select_nil dt ev w Hnil) in Hiter.
  - revert w. induction evs1 as [|ev evs1 IH]; intros w.
    + cbn [app eventLoop]. unfold mbind, M_bind.
      destruct (eventLoop_iter dt CtxDone w) as [[b w1]|] eqn:Hiter; [|done].
      destruct b; [|done]. exfalso.
      destruct (decide (pointersSet (menu w))) as [Hset|Hnil].
      * by rewrite (select_run dt _ w Hset) in Hiter.
      * by rewrite (select_nil dt _ w Hnil) in Hiter.
    + cbn [app eventLoop]. unfold mbind, M_bind.
      destruct (eventLoop_iter dt ev w) as [[b w1]|]; [|done].
      destruct b; [apply IH|done].
  - intros Hnil ev. cbn [eventLoop]. apply bind_Panic. by apply select_nil.
Qed.
(** ** What the watcher forwards and closes *)

Section watcher_facts.

Lemma watchReads_sent reads :
  omap sentState (watchReads reads).1 = statesOf reads
  ∧ List.filter isBusCall (watchReads reads).1 = [].
Proof.
  induction reads as [|[|[n|e]] reads [IHs IHb]]; simpl; try done.
  destruct (Notify.State n); simpl; [split; [by f_equal|done]|done].
Qed.

Lemma watchIPNBusInner_sent sub :
  omap sentState (watchIPNBusInner sub).1 = statesOfSub sub
  ∧ List.filter isBusCall (watchIPNBusInner sub).1 = busCallsOf sub.
Proof.
  unfold busCallsOf. destruct sub as [reads|e]; simpl; [|done].
  destruct (watchReads_sent reads) as [Hs Hb].
  rewrite omap_app, List.filter_app, Hs, Hb.
  destruct (watchReads reads).2; simpl; by rewrite ?app_nil_r.
Qed.

Lemma omap_sentState_tail (l : list Effect) :
  Forall (λ e, sentState e = None) l → omap sentState l = [].
Proof. induction 1 as [|e l He _ IH]; [done|]. simpl. by rewrite He. Qed.

End watcher_facts.

(** X14. The watcher forwards to the state channel the states of the
    notifications it reads, every one once and in the order of the reads,
    over all the subscriptions it gets to ask for; a notification without
    state is skipped, and nothing else is sent. Each state sent is logged
    right after. *)
Theorem watcher_forwards (subs : list Subscription) :
  omap sentState (watchIPNBus subs).1 = handled subs ≫= statesOfSub
  ∧ (∀ i s, (watchIPNBus subs).1 !! i = Some (ESend s) →
       (watchIPNBus subs).1 !! S i = Some (ELog ("new state: " +:+ State_String s))).
Proof.
  split.
  - induction subs as [|sub subs IH]; [done|].
    cbn [watchIPNBus handled]. destruct (watchIPNBusInner_sent sub) as [Hs _].
    destruct (watchIPNBusInner sub).2 as [[err|]|]; cbn [mbind list_bind fst].
    + destruct (errors_Is_Canceled err); cbn [fst].
      * rewrite omap_app, Hs. simpl. by rewrite !app_nil_r.
      * rewrite !omap_app, Hs, IH. done.
    + rewrite !omap_app, Hs, IH. done.
    + rewrite Hs. simpl. by rewrite app_nil_r.
  - assert (∀ reads i s, (watchReads reads).1 !! i = Some (ESend s) →
              (watchReads reads).1 !! S i
              = Some (ELog ("new state: " +:+ State_String s))) as Hreads.
    { induction reads as [|[|[n|e]] reads IH]; intros i s Hi; simpl in *; try done.
      destruct (Notify.State n) as [s'|]; simpl in *; [|by apply IH].
      destruct i as [|[|i]]; simpl in *; [by simplify_eq|done|by apply IH]. }
    assert (∀ sub i s, (watchIPNBusInner sub).1 !! i = Some (ESend s) →
              (watchIPNBusInner sub).1 !! S i
              = Some (ELog ("new state: " +:+ State_String s))) as Hinner.
    { intros [reads|e] i s Hi; simpl in *.
      - destruct i as [|i]; [done|]. simpl in *.
        apply lookup_app_Some in Hi as [Hi|[_ Hi]].
        + apply lookup_app_l_Some. by apply Hreads.
        + destruct (watchReads reads).2; simpl in Hi; [|done].
          by destruct (i - _)%nat.
      - by destruct i. }
    assert (∀ (l1 l2 : list Effect) i s,
              (∀ i s, l1 !! i = Some (ESend s) →
                 l1 !! S i = Some (ELog ("new state: " +:+ State_String s))) →
              (∀ i s, l2 !! i = Some (ESend s) →
                 l2 !! S i = Some (ELog ("new state: " +:+ State_String s))) →
              (l1 ++ l2) !! i = Some (ESend s) →
              (l1 ++ l2) !! S i = Some (ELog ("new state: " +:+ State_String s)))
      as Happ.
    { intros l1 l2 i s H1 H2 Hi.
      apply lookup_app_Some in Hi as [Hi|[Hge Hi]].
      - apply lookup_app_l_Some. by apply H1.
      - apply H2 in Hi. rewrite lookup_app_r by lia.
        by replace (S i - length l1)%nat with (S (i - length l1)) by lia. }
    induction subs as [|sub subs IH]; intros i s Hi; [done|].
    cbn [watchIPNBus] in *.
    destruct (watchIPNBusInner sub).2 as [[err|]|]; cbn [fst] in *.
    + destruct (errors_Is_Canceled err); cbn [fst] in *.
      * revert Hi. apply Happ; [by apply Hinner|].
        intros [|[|?]] ? ?; by simplify_eq/=.
      * revert Hi. apply Happ; [by apply Hinner|].
        intros [|[|j]] s' Hj; simplify_eq/=. by apply IH.
    + revert Hi. apply Happ; [by apply Hinner|].
      intros [|j] s' Hj; simplify_eq/=. by apply IH.
    + by apply Hinner.
Qed.

(** X15. The watcher asks for its subscriptions one at a time: a watcher it
    obtained is closed before the next subscription is asked for, and a
    subscription that failed closes nothing. Finding the context done between
    two reads is no error: nothing is logged for that subscription, the
    watcher is closed, and the loop sleeps 3 seconds and subscribes again. *)
Theorem watcher_closes (subs : list Subscription) :
  List.filter isBusCall (watchIPNBus subs).1 = handled subs ≫= busCallsOf
  ∧ (∀ reads subs',
       (watchReads reads).2 = InnerReturn None →
       watchIPNBus (Success reads :: subs') =
         ((watchIPNBusInner (Success reads)).1 ++ [ESleep reconnectDelay]
          ++ (watchIPNBus subs').1, (watchIPNBus subs').2)
       ∧ List.filter isLog (watchIPNBusInner (Success reads)).1
         = (λ s, ELog ("new state: " +:+ State_String s)) <$> statesOf reads
       ∧ last (watchIPNBusInner (Success reads)).1 = Some EWatcherClose).
Proof.
  split.
  - induction subs as [|sub subs IH]; [done|].
    cbn [watchIPNBus handled]. destruct (watchIPNBusInner_sent sub) as [_ Hb].
    destruct (watchIPNBusInner sub).2 as [[err|]|]; cbn [mbind list_bind fst].
    + destruct (errors_Is_Canceled err); cbn [fst].
      * rewrite List.filter_app, Hb. simpl. by rewrite !app_nil_r.
      * rewrite !List.filter_app, Hb, IH. done.
    + rewrite !List.filter_app, Hb, IH. done.
    + rewrite Hb. simpl. by rewrite app_nil_r.
  - intros reads subs' Hdone. split; [|split].
    + cbn [watchIPNBus watchIPNBusInner snd]. by rewrite Hdone.
    + cbn [watchIPNBusInner fst]. rewrite Hdone. clear subs subs'.
      rewrite List.filter_app. simpl. rewrite List.filter_app. simpl.
      rewrite app_nil_r.
      induction reads as [|[|[n|e]] reads IH]; simpl in *; try done.
      destruct (Notify.State n); simpl; by rewrite IH.
    + cbn [watchIPNBusInner fst]. rewrite Hdone.
      rewrite app_assoc. by rewrite last_snoc.
Qed.
(** ** The cache of remote images *)

Section remote_icon.

Import RemoteIcon.

Variable http_Get : Network.

Lemma setRemoteIcon_hit item url b s :
  url ≠ "" → httpCache s !! url = Some b →
  RemoteIcon.setRemoteIcon http_Get (Some item) url s =
  if (0 <? Z.of_nat (length b))%Z
  then mk (httpCache s) (requests s) (icons s ++ [(item, b)])
  else s.
Proof.
  intros Hurl Hhit. unfold RemoteIcon.setRemoteIcon.
  apply String.eqb_neq in Hurl. by rewrite Hurl, Hhit.
Qed.

Lemma setRemoteIcon_inv menu url s :
  cacheInv s → cacheInv (RemoteIcon.setRemoteIcon http_Get menu url s).
Proof.
  intros (Hcache & Hnodup & Hicons).
  unfold RemoteIcon.setRemoteIcon. destruct menu as [item|]; [|done].
  destruct (String.eqb url "") eqn:Hurl; [done|].
  assert (∀ b s', cacheInv s' →
            (b ≠ [] ∨ (0 <? Z.of_nat (length b))%Z = false) →
            cacheInv (if (0 <? Z.of_nat (length b))%Z
                      then mk (httpCache s') (requests s') (icons s' ++ [(item, b)])
                      else s')) as Hset.
  { intros b s' (Hc & Hn & Hi) Hb.
    destruct (0 <? Z.of_nat (length b))%Z eqn:Hlen; [|done].
    split; [done|]. split; [done|]. simpl.
    intros i b' [Hin|Hin]%elem_of_app; [by eapply Hi|].
    apply list_elem_of_singleton in Hin. injection Hin as -> ->.
    intros ->. done. }
  assert (∀ b : list ascii, b ≠ [] ∨ (0 <? Z.of_nat (length b))%Z = false) as Hlen.
  { intros [|c b]; [by right|by left]. }
  destruct (httpCache s !! url) as [b|] eqn:Hhit; [by apply Hset|].
  destruct (http_Get (requests s) url) as [r|err] eqn:Hresp.
  - destruct (StatusCode r =? StatusOK) eqn:Hok.
    + apply Hset; [|done]. apply Z.eqb_eq in Hok.
      split; [|split]; simpl.
      * intros u b. destruct (decide (u = url)) as [->|Hne].
        -- rewrite lookup_insert_eq. split.
           ++ intros [= <-]. exists r. split; [|done].
              apply elem_of_app. right. left.
           ++ intros (r' & [Hin|Hin]%elem_of_app & Hok' & <-).
              ** assert (httpCache s !! url = Some (Body r')) as Hc
                   by (apply Hcache; eauto).
                 congruence.
              ** apply list_elem_of_singleton in Hin. by injection Hin as <-.
        -- rewrite lookup_insert_ne by done. rewrite Hcache.
           split; intros (r' & Hin & Hr); exists r'; (split; [|done]).
           ++ apply elem_of_app. by left.
           ++ apply elem_of_app in Hin as [Hin|Hin]; [done|].
              apply list_elem_of_singleton in Hin. congruence.
      * rewrite List.filter_app, fmap_app. simpl. unfold fetched at 2. simpl.
        rewrite <- Z.eqb_eq in Hok. rewrite Hok. simpl.
        apply NoDup_app. split; [done|]. split; [|apply NoDup_singleton].
        intros u Hu Hu'. apply list_elem_of_singleton in Hu' as ->.
        apply list_elem_of_fmap in Hu as ([u' [r'|e']] & Hfst & Hin); simpl in Hfst;
          subst u'; apply list_elem_of_In, filter_In in Hin as [Hin Hf];
          unfold fetched in Hf; simpl in Hf; [|done].
        apply list_elem_of_In in Hin. apply Z.eqb_eq in Hf.
        assert (httpCache s !! url = Some (Body r')) as Hc by (apply Hcache; eauto).
        congruence.
      * done.
    + apply Hset; [|by right]. split; [|split]; simpl.
      * intros u b. rewrite Hcache.
        split; intros (r' & Hin & Hr); exists r'; (split; [|done]).
        -- apply elem_of_app. by left.
        -- apply elem_of_app in Hin as [Hin|Hin]; [done|].
           apply list_elem_of_singleton in Hin. injection Hin as -> ->.
           destruct Hr as [Hr _]. apply Z.eqb_neq in Hok. done.
      * rewrite List.filter_app, fmap_app. simpl. unfold fetched at 2. simpl.
        rewrite Hok. simpl. by rewrite app_nil_r.
      * done.
  - apply Hset; [|by right]. split; [|split]; simpl.
    + intros u b. rewrite Hcache.
      split; intros (r' & Hin & Hr); exists r'; (split; [|done]).
      * apply elem_of_app. by left.
      * apply elem_of_app in Hin as [Hin|Hin]; [done|].
        apply list_elem_of_singleton in Hin. by injection Hin.
    + rewrite List.filter_app, fmap_app. simpl. by rewrite app_nil_r.
    + done.
Qed.

Lemma cacheInv_empty : cacheInv RemoteIcon.empty.
Proof.
  split; [|split]; simpl.
  - intros url b. rewrite lookup_empty. split; [done|].
    by intros (r & Hin%elem_of_nil & _).
  - constructor.
  - intros item b Hin. by apply elem_of_nil in Hin.
Qed.

Lemma setRemoteIcons_inv calls s :
  cacheInv s → cacheInv (setRemoteIcons http_Get calls s).
Proof.
  revert s. induction calls as [|c calls IH]; intros s Hinv; [done|].
  apply IH. by apply setRemoteIcon_inv.
Qed.

End remote_icon.

(** X16. Over any sequence of calls of [setRemoteIcon] from the empty cache, and
    whatever the network answers: no URL is fetched with the status OK more
    than once, since the cache then holds its body (an empty one as well);
    the cache holds nothing but such bodies; and no icon is ever set to an
    empty image. *)
Theorem setRemoteIcon_cache (http_Get : RemoteIcon.Network)
    (calls : list (option nat * string)) :
  let s := RemoteIcon.setRemoteIcons http_Get calls RemoteIcon.empty in
  NoDup (fst <$> List.filter RemoteIcon.fetched (RemoteIcon.requests s))
  ∧ (∀ url b, RemoteIcon.httpCache s !! url = Some b ↔
       ∃ r, (url, Success r) ∈ RemoteIcon.requests s
            ∧ RemoteIcon.StatusCode r = RemoteIcon.StatusOK ∧ RemoteIcon.Body r = b)
  ∧ (∀ item b, (item, b) ∈ RemoteIcon.icons s → b ≠ []).
Proof.
  intros s.
  destruct (setRemoteIcons_inv http_Get calls RemoteIcon.empty cacheInv_empty)
    as (Hcache & Hnodup & Hicons).
  done.
Qed.

(** X17. One call of [setRemoteIcon]. Without menu item or with the empty URL
    nothing happens at all. With the image in the cache no request is sent,
    and the icon is set iff the image is not empty. Otherwise one request is
    sent; its body is cached and set iff the answer has the status OK (set
    only if not empty); an error, or another status, caches nothing and sets
    nothing, so that the next call for the URL asks again. *)
Theorem setRemoteIcon_call (http_Get : RemoteIcon.Network) (item : nat) (url : string)
    (s : RemoteIcon.t) :
  RemoteIcon.setRemoteIcon http_Get None url s = s
  ∧ RemoteIcon.setRemoteIcon http_Get (Some item) "" s = s
  ∧ (url ≠ "" →
     let s' := RemoteIcon.setRemoteIcon http_Get (Some item) url s in
     match RemoteIcon.httpCache s !! url with
     | Some b =>
         RemoteIcon.requests s' = RemoteIcon.requests s
         ∧ RemoteIcon.httpCache s' = RemoteIcon.httpCache s
         ∧ RemoteIcon.icons s'
           = RemoteIcon.icons s ++ (if decide (b = []) then [] else [(item, b)])
     | None =>
         let resp := http_Get (RemoteIcon.requests s) url in
         RemoteIcon.requests s' = RemoteIcon.requests s ++ [(url, resp)]
         ∧ match resp with
           | Success r =>
               if decide (RemoteIcon.StatusCode r = RemoteIcon.StatusOK) then
                 RemoteIcon.httpCache s' = <[url := RemoteIcon.Body r]> (RemoteIcon.httpCache s)
                 ∧ RemoteIcon.icons s'
                   = RemoteIcon.icons s
                     ++ (if decide (RemoteIcon.Body r = []) then []
                         else [(item, RemoteIcon.Body r)])
                 ∧ RemoteIcon.requests
                     (RemoteIcon.setRemoteIcon http_Get (Some item) url s')
                   = RemoteIcon.requests s'
               else RemoteIcon.httpCache s' = RemoteIcon.httpCache s
                    ∧ RemoteIcon.icons s' = RemoteIcon.icons s
           | Failure _ =>
               RemoteIcon.httpCache s' = RemoteIcon.httpCache s
               ∧ RemoteIcon.icons s' = RemoteIcon.icons s
           end
     end).
Proof.
  split; [done|]. split; [done|]. intros Hurl s'.
  assert (∀ (b : list ascii),
            (0 <? Z.of_nat (length b))%Z = if decide (b = []) then false else true)
    as Hlen by (by intros [|c b]).
  apply String.eqb_neq in Hurl as Hurl'.
  destruct (RemoteIcon.httpCache s !! url) as [b|] eqn:Hhit.
  - subst s'. rewrite (setRemoteIcon_hit http_Get item url b s Hurl Hhit), Hlen.
    destruct (decide (b = [])); simpl; by rewrite ?app_nil_r.
  - cbv zeta.
    assert (s' =
      let s1 := RemoteIcon.mk (RemoteIcon.httpCache s)
                  (RemoteIcon.requests s
                   ++ [(url, http_Get (RemoteIcon.requests s) url)])
                  (RemoteIcon.icons s) in
      match http_Get (RemoteIcon.requests s) url with
      | Success r =>
          if decide (RemoteIcon.StatusCode r = RemoteIcon.StatusOK) then
            RemoteIcon.mk (<[url := RemoteIcon.Body r]> (RemoteIcon.httpCache s))
              (RemoteIcon.requests s1)
              (RemoteIcon.icons s
               ++ (if decide (RemoteIcon.Body r = []) then []
                   else [(item, RemoteIcon.Body r)]))
          else s1
      | Failure _ => s1
      end) as Hs'.
    { subst s'. unfold RemoteIcon.setRemoteIcon. rewrite Hurl', Hhit. cbv zeta.
      destruct (http_Get (RemoteIcon.requests s) url) as [r|err]; [|done].
      destruct (decide (RemoteIcon.StatusCode r = RemoteIcon.StatusOK)) as [Hok|Hok].
      - apply Z.eqb_eq in Hok. rewrite Hok, Hlen.
        destruct (decide (RemoteIcon.Body r = [])); simpl; by rewrite ?app_nil_r.
      - apply Z.eqb_neq in Hok. by rewrite Hok. }
    clearbody s'. subst s'. cbv zeta.
    destruct (http_Get (RemoteIcon.requests s) url) as [r|err]; [|done].
    destruct (decide (RemoteIcon.StatusCode r = RemoteIcon.StatusOK)) as [Hok|Hok];
      [|done].
    split; [done|]. split; [done|]. split; [done|].
    erewrite setRemoteIcon_hit; [|done|by apply lookup_insert_eq].
    by destruct (0 <? _)%Z.
Qed.
(** ** Flags read back *)

Section flag_letters.

Lemma list_ascii_of_string_of_list (l : list ascii) :
  list_ascii_of_string (string_of_list_ascii l) = l.
Proof. induction l; simpl; congruence. Qed.

Lemma indicator_bytes (c : ascii) :
  isASCIILetter c = true →
  ∃ b0 b1 b2 b3,
    encodeRune (regionalIndicator (lowerByte c)) = [b0; b1; b2; b3]
    ∧ byte_of_Z (byteZ b3 - 0xA6 + 97) = lowerByte c.
Proof.
  destruct c as [[] [] [] [] [] [] [] []]; vm_compute; try congruence;
    intros _; by eexists _, _, _, _.
Qed.

Lemma asciiLower_two (c0 c1 : ascii) :
  asciiLower (String c0 (String c1 "")) = String (lowerByte c0) (String (lowerByte c1) "").
Proof. done. Qed.

Lemma countryFlag_empty code : countryFlag code = "" ↔ twoLetters code = None.
Proof.
  destruct code as [|c0 [|c1 [|c2 rest]]]; try done.
  rewrite countryFlag_two. unfold twoLetters.
  destruct (isASCIILetter c0) eqn:H0; simpl; [|done].
  destruct (isASCIILetter c1) eqn:H1; simpl; [|done].
  split; [|done]. intros Hflag. apply (f_equal String.length) in Hflag.
  unfold string_of_runes in Hflag. simpl concat in Hflag.
  rewrite length_string_of_list_ascii, app_nil_r, length_app in Hflag.
  rewrite !lowerByte_encoded in Hflag by done. done.
Qed.

Lemma flagLetters_countryFlag code c0 c1 :
  twoLetters code = Some (c0, c1) →
  flagLetters (countryFlag code) = Some (lowerByte c0, lowerByte c1).
Proof.
  destruct code as [|d0 [|d1 [|d2 rest]]]; try done.
  unfold twoLetters. rewrite countryFlag_two.
  destruct (isASCIILetter d0) eqn:H0; cbn [andb]; [|done].
  destruct (isASCIILetter d1) eqn:H1; cbn [andb]; [|done].
  intros [= <- <-].
  destruct (indicator_bytes d0 H0) as (a0 & a1 & a2 & a3 & Ha & Ha3).
  destruct (indicator_bytes d1 H1) as (b0 & b1 & b2 & b3 & Hb & Hb3).
  unfold flagLetters, string_of_runes. cbn [concat map].
  rewrite list_ascii_of_string_of_list, Ha, Hb. cbn [app].
  by rewrite Ha3, Hb3.
Qed.

End flag_letters.

(** X18. The flag of a valid code tells the code, up to the case of its letters:
    the letters read back from the flag are the lowercased letters of the
    code. So two codes have the same flag only if they are equal up to case,
    and the flag is empty for invalid codes only. *)
Theorem countryFlag_round_trip (code : string) :
  match twoLetters code with
  | Some (c0, c1) =>
      countryFlag code ≠ ""
      ∧ flagLetters (countryFlag code) = Some (lowerByte c0, lowerByte c1)
  | None => countryFlag code = ""
  end
  ∧ ∀ code', countryFlag code ≠ "" → countryFlag code = countryFlag code' →
             asciiLower code = asciiLower code'.
Proof.
  split.
  - destruct (twoLetters code) as [[c0 c1]|] eqn:Htwo.
    + split; [|by apply flagLetters_countryFlag].
      rewrite countryFlag_empty. congruence.
    + by apply countryFlag_empty.
  - intros code' Hne Heq.
    destruct (twoLetters code) as [[c0 c1]|] eqn:Htwo;
      [|by apply countryFlag_empty in Htwo].
    destruct (twoLetters code') as [[d0 d1]|] eqn:Htwo';
      [|apply countryFlag_empty in Htwo'; congruence].
    pose proof (flagLetters_countryFlag _ _ _ Htwo) as H1.
    pose proof (flagLetters_countryFlag _ _ _ Htwo') as H2.
    rewrite Heq, H2 in H1. injection H1 as Hd0 Hd1.
    destruct code as [|a0 [|a1 [|a2 rest]]]; try done.
    destruct code' as [|b0 [|b1 [|b2 rest']]]; try done.
    unfold twoLetters in Htwo, Htwo'.
    destruct (isASCIILetter a0 && isASCIILetter a1); [|done].
    destruct (isASCIILetter b0 && isASCIILetter b1); [|done].
    simplify_eq. by rewrite !asciiLower_two, Hd0, Hd1.
Qed.
(** ** The sorted views of the taxonomy *)

Section sorted.

Context {A : Type} (name : A → string).

#[local] Instance byName_total : Total (byName name).
Proof.
  intros a b. unfold byName.
  rewrite (String.compare_antisym (name b) (name a)).
  destruct (String.compare (name a) (name b)); simpl; auto.
Qed.

Lemma compare_le_trans (x y z : string) :
  String.compare x y ≠ Gt → String.compare y z ≠ Gt → String.compare x z ≠ Gt.
Proof.
  intros Hxy Hyz.
  destruct (String.compare x y) eqn:Exy; [| |done].
  { apply String.compare_eq_iff in Exy as ->. done. }
  destruct (String.compare y z) eqn:Eyz; [| |done].
  { apply String.compare_eq_iff in Eyz as <-. by rewrite Exy. }
  assert (String.compare x z = Lt) as ->; [|done].
  apply OrderedTypeEx.String_as_OT.cmp_lt.
  apply OrderedTypeEx.String_as_OT.lt_trans with y;
    by apply OrderedTypeEx.String_as_OT.cmp_lt.
Qed.

#[local] Instance byName_trans : Transitive (byName name).
Proof. intros a b c. apply compare_le_trans. Qed.

Lemma merge_sort_byName (l : list A) :
  merge_sort (byName name) l ≡ₚ l
  ∧ StronglySorted (byName name) (merge_sort (byName name) l)
  ∧ ∀ l', l' ≡ₚ l → Sorted (byName name) l' → NoDup (name <$> l) →
          l' = merge_sort (byName name) l.
Proof.
  split; [apply merge_sort_Permutation|].
  split; [apply StronglySorted_merge_sort; apply _|].
  intros l' Hperm Hsorted Hnodup.
  apply (Sorted_unique_strong (byName name)); [| |apply Sorted_merge_sort; apply _|].
  - intros x1 x2 Hx1 Hx2 H12 H21. unfold byName in *.
    assert (name x1 = name x2) as Hname.
    { apply String.compare_eq_iff.
      rewrite (String.compare_antisym (name x2) (name x1)) in H21.
      destruct (String.compare (name x1) (name x2)); done. }
    rewrite Hperm in Hx1. rewrite merge_sort_Permutation in Hx2.
    apply list_elem_of_lookup in Hx1 as (i & Hi).
    apply list_elem_of_lookup in Hx2 as (j & Hj).
    assert (i = j) as ->.
    { eapply NoDup_lookup; [done| |].
      - by rewrite list_lookup_fmap, Hi.
      - by rewrite list_lookup_fmap, Hj, Hname. }
    congruence.
  - done.
  - by rewrite merge_sort_Permutation.
Qed.

End sorted.

(** X19. [sortedCountries] and [sortedCities] list every country of the taxonomy,
    and every city of a country, once, in the order of the names (bytewise,
    as [cmp.Compare] orders strings): an entry is never followed by one with
    a smaller name. When the names are pairwise distinct this is the only
    sorted arrangement of the values, so the order of the menu depends
    neither on the iteration order of the map nor on the sorting algorithm. *)
Theorem sorted_views (mp : mullvadPeers) (mc : mvCountry.t) :
  (sortedCountries mp ≡ₚ snd <$> map_to_list (countries mp)
   ∧ length (sortedCountries mp) = size (countries mp)
   ∧ StronglySorted (λ a b, String.compare (mvCountry.name a) (mvCountry.name b) ≠ Gt)
       (sortedCountries mp)
   ∧ ∀ l, l ≡ₚ snd <$> map_to_list (countries mp) →
          Sorted (λ a b, String.compare (mvCountry.name a) (mvCountry.name b) ≠ Gt) l →
          NoDup (mvCountry.name <$> l) → l = sortedCountries mp)
  ∧ (sortedCities mc ≡ₚ snd <$> map_to_list (mvCountry.cities mc)
     ∧ length (sortedCities mc) = size (mvCountry.cities mc)
     ∧ StronglySorted (λ a b, String.compare (mvCity.name a) (mvCity.name b) ≠ Gt)
         (sortedCities mc)
     ∧ ∀ l, l ≡ₚ snd <$> map_to_list (mvCountry.cities mc) →
            Sorted (λ a b, String.compare (mvCity.name a) (mvCity.name b) ≠ Gt) l →
            NoDup (mvCity.name <$> l) → l = sortedCities mc).
Proof.
  split.
  - destruct (merge_sort_byName mvCountry.name (snd <$> map_to_list (countries mp)))
      as (Hperm & Hsorted & Huniq).
    split; [done|]. split.
    { unfold sortedCountries. by rewrite Hperm, length_fmap, length_map_to_list. }
    split; [done|]. intros l Hl Hs Hn. apply Huniq; [done|done|by rewrite <- Hl].
  - destruct (merge_sort_byName mvCity.name (snd <$> map_to_list (mvCountry.cities mc)))
      as (Hperm & Hsorted & Huniq).
    split; [done|]. split.
    { unfold sortedCities. by rewrite Hperm, length_fmap, length_map_to_list. }
    split; [done|]. intros l Hl Hs Hn. apply Huniq; [done|done|by rewrite <- Hl].
Qed.
(** ** The names of the taxonomy *)

(** X20. In the grouping of a status every country is filed under its own code,
    and is named as the first peer of the status with that country code
    names it (among the exit-node options with a location): a later peer
    that spells the country differently changes nothing; and every city is
    named as the first peer with its country code and city code names it.
    Without such peers there is no country at all. *)
Theorem newMullvadPeers_names (st : Status.t) :
  ∃ mp, newMullvadPeers st = Ok mp
  ∧ (countries mp = ∅ ↔ ∀ ps, ps ∈ Status.Peer st → ¬ qualifies ps)
  ∧ ∀ cc c, countries mp !! cc = Some c →
      mvCountry.code c = cc
      ∧ (∃ ps loc rest,
           filter (λ p, inCountry cc p) (Status.Peer st) = ps :: rest
           ∧ PeerStatus.Location ps = Some loc
           ∧ mvCountry.name c = Location.Country loc)
      ∧ ∀ yc y, mvCountry.cities c !! yc = Some y →
          ∃ ps loc rest,
            filter (λ p, inCity cc yc p) (Status.Peer st) = ps :: rest
            ∧ PeerStatus.Location ps = Some loc
            ∧ mvCity.name y = Location.City loc.
Proof.
  destruct (newMullvadPeers_inv st) as ([m] & Hrun & Hinv). simpl in Hinv.
  exists {| countries := m |}. split; [done|]. split; [by apply groupInv_empty|].
  simpl. intros cc c Hc. pose proof (Hinv cc) as Hcc. rewrite Hc in Hcc.
  destruct Hcc as (Hne & Hcode & Hname & _ & Hcities).
  split; [done|]. split.
  - destruct (filter (λ p, inCountry cc p) (Status.Peer st)) as [|ps rest] eqn:HF;
      [done|].
    change (Location.Country <$> PeerStatus.Location ps = Some (mvCountry.name c)) in Hname.
    destruct (PeerStatus.Location ps) as [loc|] eqn:Hloc; [|by cbn in Hname].
    exists ps, loc, rest. split; [done|]. split; [done|].
    cbn in Hname. by injection Hname.
  - intros yc y Hy. specialize (Hcities yc). rewrite Hy in Hcities.
    destruct Hcities as (Hney & _ & _ & Hnamey).
    destruct (filter (λ p, inCity cc yc p) (Status.Peer st)) as [|ps rest] eqn:HF;
      [done|].
    change (Location.City <$> PeerStatus.Location ps = Some (mvCity.name y)) in Hnamey.
    destruct (PeerStatus.Location ps) as [loc|] eqn:Hloc; [|by cbn in Hnamey].
    exists ps, loc, rest. split; [done|]. split; [done|].
    cbn in Hnamey. by injection Hnamey.
Qed.
(** ** The entries of the cities *)

Section city_entries.

Local Open Scope nat_scope.


End city_entries.

(** ** Fetching the state *)

(** ** What a click can select *)

Section offers.

Local Open Scope nat_scope.

Lemma best_country_offered st self c :
  c ∈ sortedCountries (mullvadPeersOf st self) →
  ∃ ps, mvCountry.best c = Some ps ∧ ps ∈ Status.Peer st
        ∧ PeerStatus.ExitNodeOption ps = true ∧ is_Some (PeerStatus.Location ps).
Proof.
  intros [cc Hc]%elem_of_sortedCountries.
  destruct (mullvadPeersOf_inv st self) as (l & Hinv & Hl & Hnil).
  destruct (groupInv_country _ _ _ _ Hinv Hc) as (Hne & _ & Hbest).
  destruct (bestOf (filter (λ p, inCountry cc p) l)) as [ps|] eqn:Hb;
    [|by apply bestOf_nil in Hb].
  exists ps. split; [done|].
  apply bestOf_elem, list_elem_of_filter in Hb as [Hin Hps].
  apply inCountry_loc in Hin as (Hopt & loc & Hloc & _).
  destruct (CapMap_Contains self "mullvad") eqn:Hcap.
  - rewrite Hl in Hps by done. by rewrite Hloc.
  - rewrite Hnil in Hps by done. by apply elem_of_nil in Hps.
Qed.

Lemma best_city_offered st self c y :
  c ∈ sortedCountries (mullvadPeersOf st self) → y ∈ sortedCities c →
  ∃ ps, mvCity.best y = Some ps ∧ ps ∈ mvCity.peers y ∧ ps ∈ Status.Peer st
        ∧ PeerStatus.ExitNodeOption ps = true ∧ is_Some (PeerStatus.Location ps).
Proof.
  intros [cc Hc]%elem_of_sortedCountries [yc Hy]%elem_of_sortedCities.
  destruct (mullvadPeersOf_inv st self) as (l & Hinv & Hl & Hnil).
  destruct (groupInv_city _ _ _ _ _ _ Hinv Hc Hy) as (Hne & Hpeers & Hbest).
  destruct (bestOf (filter (λ p, inCity cc yc p) l)) as [ps|] eqn:Hb;
    [|by apply bestOf_nil in Hb].
  exists ps. split; [done|].
  apply bestOf_elem in Hb. split; [by rewrite Hpeers|].
  apply list_elem_of_filter in Hb as [Hin Hps].
  apply inCity_loc in Hin as (Hopt & loc & Hloc & _).
  destruct (CapMap_Contains self "mullvad") eqn:Hcap.
  - rewrite Hl in Hps by done. by rewrite Hloc.
  - rewrite Hnil in Hps by done. by apply elem_of_nil in Hps.
Qed.

End offers.

(** X23. The clicks of the exit-node menu can select nothing but: no exit node
    (the zero id, from "None"); the node the daemon suggests; a peer of the
    status that is an exit-node option without location; or a peer that is an
    exit-node option with a location and is the best peer of its country or
    of its city. A peer that is no exit-node option is never offered. *)
Theorem exit_node_offers (ctx : nat) (w : World) (st : Status.t) (self : PeerStatus.t) :
  Menu.status (menu w) = Some st → Status.Self st = Some self →
  ∃ w' new,
    rebuildExitNodeMenu ctx w = Ok (tt, w')
    ∧ listeners w' = listeners w ++ new
    ∧ ∀ l, l ∈ new →
        l_ctx l = ctx
        ∧ ∃ id, l_target l = toExitNodeCh id
          ∧ (id = ""
             ∨ (∃ sugg, suggestionAt self (localClient w)
                          (effects w ++ [ESleep (newMenuDelay w)]) = Some sugg
                        ∧ id = ExitNodeSuggestion.ID sugg)
             ∨ (∃ ps, ps ∈ Status.Peer st ∧ PeerStatus.ExitNodeOption ps = true
                      ∧ PeerStatus.Location ps = None ∧ id = PeerStatus.ID ps)
             ∨ (∃ ps c, ps ∈ Status.Peer st ∧ PeerStatus.ExitNodeOption ps = true
                        ∧ is_Some (PeerStatus.Location ps) ∧ id = PeerStatus.ID ps
                        ∧ c ∈ sortedCountries (mullvadPeersOf st self)
                        ∧ (mvCountry.best c = Some ps
                           ∨ ∃ y, y ∈ sortedCities c ∧ mvCity.best y = Some ps))).
Proof.
  intros Hst Hself.
  set (os := suggestionAt self (localClient w) (effects w ++ [ESleep (newMenuDelay w)])).
  set (e := length (items w)).
  eexists _, (exitNodeListeners ctx e st self os).
  split; [by apply rebuildExitNodeMenu_run|]. split; [done|].
  intros l Hl. split; [by apply exitNodeListeners_elem in Hl as [? _]|].
  unfold exitNodeListeners in Hl. rewrite !elem_of_app in Hl.
  destruct Hl as [Hl|[Hl|[Hl|Hl]]].
  - apply list_elem_of_singleton in Hl as ->. exists "". split; [done|by left].
  - unfold recommendedListeners in Hl. destruct os as [sugg|] eqn:Hos;
      [|by apply elem_of_nil in Hl].
    apply list_elem_of_singleton in Hl as ->.
    exists (ExitNodeSuggestion.ID sugg). split; [done|]. right; left. by exists sugg.
  - apply tailnetListeners_elem in Hl as (n & ps & Hn & ->).
    exists (PeerStatus.ID ps). split; [done|]. right; right; left.
    apply list_elem_of_lookup_2 in Hn. unfold tailnetExitNodes in Hn.
    apply list_elem_of_filter in Hn as [Htn Hin].
    unfold isTailnetExitNode in Htn.
    apply Is_true_true, andb_true_iff in Htn as [Hopt Hloc].
    apply negb_true_iff, bool_decide_eq_false in Hloc.
    exists ps. split; [done|]. split; [done|]. split; [|done].
    destruct (PeerStatus.Location ps); [|done]. destruct Hloc. by eexists.
  - unfold mullvadListeners in Hl.
    apply countriesListeners_elem in Hl as (n & c & Hc & Hcases).
    apply list_elem_of_lookup_2 in Hc.
    destruct (best_country_offered st self c Hc) as (b & Hb & Hbin & Hbopt & Hbloc).
    destruct Hcases as [[_ ->]|[_ [->|(j & y & Hy & ->)]]].
    + exists (PeerStatus.ID b). rewrite Hb. split; [done|]. do 3 right.
      exists b, c. eauto 8.
    + exists (PeerStatus.ID b). rewrite Hb. split; [done|]. do 3 right.
      exists b, c. eauto 8.
    + apply list_elem_of_lookup_2 in Hy.
      destruct (best_city_offered st self c y Hc Hy) as (p & Hp & _ & Hpin & Hpopt & Hploc).
      exists (PeerStatus.ID p). rewrite Hp. split; [done|]. do 3 right.
      exists p, c. split; [done|]. split; [done|]. split; [done|]. split; [done|].
      split; [done|]. right. by exists y.
Qed.
(** ** Delays *)

Section delays.

Lemma isAnySleep_remoteIcon item url :
  List.filter isAnySleep (remoteIconEffects item url) = [].
Proof. unfold remoteIconEffects. by destruct (String.eqb url ""). Qed.

Lemma isAnySleep_profileIcons st : List.filter isAnySleep (profileIconEffects st) = [].
Proof.
  unfold profileIconEffects. generalize 4%nat. generalize (state.allProfiles st).
  intros ps. induction ps as [|p ps IH]; intros k; [done|].
  cbn [imap concat]. rewrite List.filter_app, isAnySleep_remoteIcon. cbn [app].
  rewrite <- (IH (S k)). do 2 f_equal. apply imap_ext. intros i x _. simpl.
  f_equal. lia.
Qed.

Lemma isAnySleep_mullvadEffects d st self :
  List.filter isAnySleep (mullvadEffects d st self)
  = replicate (length (multiCity (mullvadPeersOf st self))) (ESleep d).
Proof.
  unfold mullvadEffects, multiCity.
  induction (sortedCountries _) as [|c cs IH]; [done|].
  cbn [flat_map List.filter]. rewrite List.filter_app, IH. unfold countryEffects.
  by destruct (isSingleCity c).
Qed.

End delays.

(** X24. A rebuild sleeps for [newMenuDelay] once after each entry that gets a
    submenu, before the submenu is filled: after the account entry, after
    "Exit Nodes", and after the entry of each country with more than one
    city; it never sleeps otherwise, nor for another duration. *)
Theorem rebuild_delays (st : state.t) (w w' : World) :
  rebuild st w = Ok (tt, w') →
  ∃ status self new,
    state.status st = Some status ∧ Status.Self status = Some self
    ∧ effects w' = effects w ++ new
    ∧ List.filter isAnySleep new
      = replicate (2 + length (multiCity (mullvadPeersOf status self)))
                  (ESleep (newMenuDelay w)).
Proof.
  intros Hrun.
  destruct (rebuild_Ok_inv st w w' Hrun) as (status & self & ip & Hst & Hself & Hip & ->).
  exists status, self. eexists. split; [done|]. split; [done|].
  unfold rebuilt. cbn [effects]. rewrite <- app_assoc. split; [reflexivity|].
  unfold headEffects, exitNodeEffects, recommendedEffects.
  rewrite !List.filter_app, isAnySleep_remoteIcon, isAnySleep_profileIcons,
    isAnySleep_mullvadEffects.
  destruct (CapMap_Contains self NodeAttrSuggestExitNodeUI); done.
Qed.
(** ** The properties at the sample runs *)

Lemma demo_rebuild : rebuild demo.state demo.w0 = Ok (tt, demo.w1).
Proof. by apply (rebuild_run demo.state demo.status sample.self "100.64.0.1" []). Qed.

Lemma demo_generation : generation demo.w0 ∧ generation demo.w1.
Proof.
  assert (generation demo.w0) as Hgen by (by split).
  split; [done|]. by apply rebuilt_generation.
Qed.

Lemma demo_pointers : pointersSet (menu demo.w1).
Proof. repeat split; by eexists. Qed.

(** The first rebuild: the "This Device" entry names the host and its first
    address. *)
Lemma rebuild_menu_pointers_witness :
  rebuild demo.state demo.w0 = Ok (tt, demo.w1)
  ∧ Menu.status (menu demo.w1) = Some demo.status
  ∧ ∃ i it, Menu.self (menu demo.w1) = Some i ∧ items demo.w1 !! i = Some it
            ∧ title it = "This Device: desk (100.64.0.1)".
Proof.
  split; [exact demo_rebuild|].
  destruct (rebuild_menu_pointers demo.state demo.w0 demo.w1 demo_rebuild)
    as (Hs & _ & _ & (i & it & status & self & ip & Hi & Hit & Hst & Hself & Hip & Ht & _)
        & _).
  split; [exact Hs|]. exists i, it. split; [exact Hi|]. split; [exact Hit|].
  injection Hst as <-. injection Hself as <-. injection Hip as <-. exact Ht.
Defined.

(** The nine top-level entries of the first menu. *)
Lemma rebuild_top_level_witness :
  rebuild demo.state demo.w0 = Ok (tt, demo.w1)
  ∧ title <$> filter (λ it, parent it = None) (items demo.w1)
    = ["Connect"; "Disconnect"; ""; profileTitle sample.profile;
       "This Device: desk (100.64.0.1)"; ""; "Exit Nodes"; "More settings"; "Quit"].
Proof.
  split; [exact demo_rebuild|].
  destruct (rebuild_top_level demo.state demo.w0 demo.w1 demo_rebuild)
    as (status & self & ip & Hst & Hself & Hip & ->).
  injection Hst as <-. injection Hself as <-. injection Hip as <-. reflexivity.
Defined.

(** The first rebuild asks the daemon for a suggestion and for nothing
    else. *)
Lemma rebuild_requests_witness :
  rebuild demo.state demo.w0 = Ok (tt, demo.w1)
  ∧ ∃ new, effects demo.w1 = effects demo.w0 ++ new
           ∧ List.filter isCall new = [ECall CSuggestExitNode].
Proof.
  split; [exact demo_rebuild|].
  destruct (rebuild_requests demo.state demo.w0 demo.w1 demo_rebuild)
    as (status & self & new & Hst & Hself & Heff & Hcalls).
  exists new. split; [exact Heff|].
  injection Hst as <-. injection Hself as <-. exact Hcalls.
Defined.

(** The first rebuild starts the generation of context 0. *)
Lemma rebuild_generation_witness :
  generation demo.w0
  ∧ rebuild demo.state demo.w0 = Ok (tt, demo.w1)
  ∧ generation demo.w1 ∧ eventLoops demo.w1 = [0%nat] ∧ nextCtx demo.w1 = 1%nat.
Proof.
  destruct demo_generation as [Hgen0 _].
  destruct (rebuild_generation demo.state demo.w0 demo.w1 Hgen0 demo_rebuild)
    as (Hgen & _ & Hnext & Hloops & _).
  split; [exact Hgen0|]. split; [exact demo_rebuild|]. split; [exact Hgen|].
  split; [exact Hloops|exact Hnext].
Defined.

(** In the first menu the entry of the second profile is nested under the
    account entry, which precedes it and is no separator. *)
Lemma rebuild_well_formed_witness :
  generation demo.w0
  ∧ rebuild demo.state demo.w0 = Ok (tt, demo.w1)
  ∧ ∃ it pit, items demo.w1 !! 5%nat = Some it ∧ parent it = Some 3%nat
              ∧ items demo.w1 !! 3%nat = Some pit ∧ isSeparator pit = false.
Proof.
  destruct demo_generation as [Hgen0 _].
  destruct (rebuild_well_formed demo.state demo.w0 demo.w1 Hgen0 demo_rebuild)
    as [Htree _].
  split; [exact Hgen0|]. split; [exact demo_rebuild|].
  destruct (Htree 5%nat (profileItem 3 demo.state demo.work) 3%nat eq_refl eq_refl)
    as (_ & pit & Hpit & Hsep).
  exists (profileItem 3 demo.state demo.work), pit.
  split; [reflexivity|]. split; [reflexivity|]. split; [exact Hpit|exact Hsep].
Defined.

(** The entry of the second profile: titled with its name, not checked, and
    its click sends its id. *)
Lemma accounts_rendered_witness :
  rebuild demo.state demo.w0 = Ok (tt, demo.w1)
  ∧ ∃ it, items demo.w1 !! 5%nat = Some it ∧ title it = "work@example.org"
          ∧ checked it ≠ true
          ∧ mkListener 0 5 (toAccountsCh "p2") ∈ listeners demo.w1.
Proof.
  split; [exact demo_rebuild|].
  destruct (accounts_rendered demo.state demo.w0 demo.w1 demo_rebuild) as (_ & Hall & _).
  destruct (Hall 1%nat demo.work eq_refl) as (it & Hit & Ht & _ & _ & Hchk & Hl & _).
  exists it. split; [exact Hit|]. split; [exact Ht|]. split; [|exact Hl].
  intros Hc. apply (proj1 Hchk) in Hc. discriminate Hc.
Defined.


(** The sample tailnet has both sections, each under its header. *)
Lemma exit_node_sections_witness :
  Menu.status (menu (sample.world demo.status)) = Some demo.status
  ∧ Status.Self demo.status = Some sample.self
  ∧ ∃ w' new, rebuildExitNodeMenu 0 (sample.world demo.status) = Ok (tt, w')
      ∧ items w' = items (sample.world demo.status) ++ new
      ∧ title <$> filter (isHeaderOf 0) new
        = ["Tailnet Exit Nodes"; "Location-based Exit Nodes"].
Proof.
  split; [reflexivity|]. split; [reflexivity|].
  destruct (exit_node_sections 0 (sample.world demo.status) demo.status sample.self
              eq_refl eq_refl)
    as (w' & new & Hrun & Hitems & _ & Hheaders & _).
  exists w', new. split; [exact Hrun|]. split; [exact Hitems|].
  change (length (items (sample.world demo.status))) with 0%nat in Hheaders.
  rewrite Hheaders.
  assert (hasTailnetSection demo.status = true) as -> by (vm_compute; reflexivity).
  assert (hasMullvadSection demo.status sample.self = true) as ->
    by (vm_compute; reflexivity).
  reflexivity.
Defined.

(** A click on "More settings" in the first menu. *)
Lemma click_commands_witness :
  pointersSet (menu demo.w1)
  ∧ eventLoop_iter demo.desktop MoreClicked demo.w1
    = Ok (true, put (items demo.w1) (listeners demo.w1)
                    (effects demo.w1 ++ [EOpenBrowser "http://100.100.100.100/"]) demo.w1)
  ∧ eventLoop_iter demo.desktop ConnectClicked demo.w1
    = Ok (true, put (items demo.w1) (listeners demo.w1)
                    (effects demo.w1 ++ [ECall (CEditPrefs (wantRunning true))]) demo.w1).
Proof.
  destruct (click_commands demo.desktop demo.w1 demo_pointers)
    as (Hconnect & _ & _ & Hmore & _).
  split; [exact demo_pointers|]. split; [exact Hmore|exact Hconnect].
Defined.


(** The first menu delays three times: Germany has two cities. *)
Lemma rebuild_delays_witness :
  rebuild demo.state demo.w0 = Ok (tt, demo.w1)
  ∧ ∃ new, effects demo.w1 = effects demo.w0 ++ new
           ∧ List.filter isAnySleep new
             = [ESleep 10000000; ESleep 10000000; ESleep 10000000].
Proof.
  split; [exact demo_rebuild|].
  destruct (rebuild_delays demo.state demo.w0 demo.w1 demo_rebuild)
    as (status & self & new & Hst & Hself & Heff & Hsleeps).
  exists new. split; [exact Heff|].
  injection Hst as <-. injection Hself as <-. rewrite Hsleeps.
  assert (length (multiCity (mullvadPeersOf demo.status sample.self)) = 1%nat) as ->
    by (vm_compute; reflexivity).
  reflexivity.
Defined.

(** Every click of the sample exit-node menu belongs to the context of the
    rebuild. *)
Lemma exit_node_offers_witness :
  Menu.status (menu (sample.world demo.status)) = Some demo.status
  ∧ Status.Self demo.status = Some sample.self
  ∧ ∃ w' new, rebuildExitNodeMenu 0 (sample.world demo.status) = Ok (tt, w')
      ∧ listeners w' = listeners (sample.world demo.status) ++ new
      ∧ Forall (λ l, l_ctx l = 0%nat) new.
Proof.
  split; [reflexivity|]. split; [reflexivity|].
  destruct (exit_node_offers 0 (sample.world demo.status) demo.status sample.self
              eq_refl eq_refl)
    as (w' & new & Hrun & Hlis & Hall).
  exists w', new. split; [exact Hrun|]. split; [exact Hlis|].
  apply Forall_forall. intros l Hl. exact (proj1 (Hall l Hl)).
Defined.

(** After a click on "More settings", the selection of an exit node and a
    click on "Quit", the goroutines are those of context 1. *)
Lemma eventLoop_generation_witness :
  generation demo.w1
  ∧ is_Some (Menu.eventCancel (menu demo.w1))
  ∧ eventLoop demo.desktop demo.events demo.w1 = Ok (tt, demo.w2)
  ∧ Menu.eventCancel (menu demo.w2) = Some 1%nat ∧ eventLoops demo.w2 = [1%nat].
Proof.
  destruct demo_generation as [_ Hgen1].
  assert (eventLoop demo.desktop demo.events demo.w1 = Ok (tt, demo.w2)) as Hrun
    by (vm_compute; reflexivity).
  assert (is_Some (Menu.eventCancel (menu demo.w1))) as Hsome by (by eexists).
  destruct (eventLoop_generation demo.desktop demo.events demo.w1 demo.w2 Hgen1 Hsome Hrun)
    as (c & Hc & Hloops & _).
  assert (Menu.eventCancel (menu demo.w2) = Some 1%nat) as Hone
    by (vm_compute; reflexivity).
  split; [exact Hgen1|]. split; [exact Hsome|]. split; [exact Hrun|].
  split; [exact Hone|].
  rewrite Hone in Hc. injection Hc as <-. exact Hloops.
Defined.

